(** * Sharded brute-force kNN: merge of per-shard top-k tables

    Shallow embedding of [cpp/src_prims/selection/knn.h]
    (namespace [MLCommon::Selection]): [merge_tables] and [brute_force_knn],
    together with the two heap primitives of [faiss/Heap.h] that
    [merge_tables] calls.

    Sizes, counters and array indices ([n], [k], [nshard], [i], [j], [s],
    [p], [heap_size]) are natural numbers; labels and translations are
    [int64_t] values, on [Z] (signed overflow is undefined in the source).
    An array is a list: a read outside it yields the default value of its
    type and a write outside it does nothing, where the source has undefined
    behaviour. *)

From stdpp Require Import base list sorting.
From Stdlib Require Import ZArith QArith Lia.

Local Open Scope nat_scope.

(** ** Floats and the comparator object

    [merge_tables] only copies and compares [float] values, so the type of
    distances is kept abstract.  [C] is the template argument of
    [merge_tables]: a faiss comparator object with its static members
    [C::cmp] and [C::neutral]. *)

Class Comparator (T : Type) := {
  cmp : T → T → bool;
  neutral : T
}.

(** The operations on [float] that the code uses: the value [0.0f] that
    [std::vector<float> buf2(nshard)] is filled with, [a < b], unary minus,
    [std::numeric_limits<float>::max()] and [sqrt]. *)
Class FloatOps (T : Type) := {
  fzero : T;
  flt : T → T → bool;
  fneg : T → T;
  fmax : T;
  fsqrt : T → T
}.

(** [faiss::CMin<float, IntType>]: [cmp(a, b)] is [a < b] and [neutral()]
    is [-std::numeric_limits<T>::max()]. *)
Definition CMin {T : Type} {F : FloatOps T} : Comparator T :=
  {| cmp := flt; neutral := fneg fmax |}.

#[export] Instance Comparator_inhabited {T} {C : Comparator T} : Inhabited T :=
  populate neutral.

(** ** faiss heap primitives ([faiss/Heap.h])

    [knn.h] includes this header of the faiss library; [heap_push],
    [heap_pop] and [CMin] are transcribed from it.  Both functions start
    with [bh_val--; bh_ids--;] and then index from 1:
    [rd1 a i] and [wr1 a i x] are [a[i]] and [a[i] = x] through the
    decremented pointer. *)

Definition rd1 {A} `{Inhabited A} (a : list A) (i : nat) : A := a !!! (i - 1).
Definition wr1 {A} (a : list A) (i : nat) (x : A) : list A := <[i - 1 := x]> a.

Section Heap.
Context {T : Type} {C : Comparator T}.

(** [while (i > 1) { i_father = i >> 1; if (!C::cmp(val, bh_val[i_father]))
    break; bh_val[i] = bh_val[i_father]; bh_ids[i] = bh_ids[i_father];
    i = i_father; }] *)
Fixpoint heap_push_loop (fuel i : nat) (bh_val : list T) (bh_ids : list nat)
    (val : T) : nat * list T * list nat :=
  match fuel with
  | 0 => (i, bh_val, bh_ids)
  | S fuel' =>
      if 1 <? i then
        let i_father := i / 2 in
        if negb (cmp val (rd1 bh_val i_father)) then (i, bh_val, bh_ids)
        else heap_push_loop fuel' i_father
               (wr1 bh_val i (rd1 bh_val i_father))
               (wr1 bh_ids i (rd1 bh_ids i_father)) val
      else (i, bh_val, bh_ids)
  end.

(** [heap_push<C>(k, bh_val, bh_ids, val, ids)]: the heap occupies
    [bh_val[0..k-2]] on entry and [bh_val[0..k-1]] on exit. *)
Definition heap_push (k : nat) (bh_val : list T) (bh_ids : list nat)
    (val : T) (ids : nat) : list T * list nat :=
  let '(i, bh_val, bh_ids) := heap_push_loop k k bh_val bh_ids val in
  (wr1 bh_val i val, wr1 bh_ids i ids).

(** [while (1) { i1 = i << 1; i2 = i1 + 1; if (i1 > k) break;
    if (i2 == k + 1 || C::cmp(bh_val[i1], bh_val[i2])) {
      if (C::cmp(val, bh_val[i1])) break;
      bh_val[i] = bh_val[i1]; bh_ids[i] = bh_ids[i1]; i = i1;
    } else {
      if (C::cmp(val, bh_val[i2])) break;
      bh_val[i] = bh_val[i2]; bh_ids[i] = bh_ids[i2]; i = i2; } }] *)
Fixpoint heap_pop_loop (fuel k i : nat) (bh_val : list T) (bh_ids : list nat)
    (val : T) : nat * list T * list nat :=
  match fuel with
  | 0 => (i, bh_val, bh_ids)
  | S fuel' =>
      let i1 := 2 * i in
      let i2 := i1 + 1 in
      if k <? i1 then (i, bh_val, bh_ids)
      else if (i2 =? k + 1) || cmp (rd1 bh_val i1) (rd1 bh_val i2) then
        if cmp val (rd1 bh_val i1) then (i, bh_val, bh_ids)
        else heap_pop_loop fuel' k i1
               (wr1 bh_val i (rd1 bh_val i1))
               (wr1 bh_ids i (rd1 bh_ids i1)) val
      else
        if cmp val (rd1 bh_val i2) then (i, bh_val, bh_ids)
        else heap_pop_loop fuel' k i2
               (wr1 bh_val i (rd1 bh_val i2))
               (wr1 bh_ids i (rd1 bh_ids i2)) val
  end.

(** [heap_pop<C>(k, bh_val, bh_ids)]: removes the top of the heap
    [bh_val[0..k-1]]; afterwards the heap occupies [bh_val[0..k-2]]. *)
Definition heap_pop (k : nat) (bh_val : list T) (bh_ids : list nat)
    : list T * list nat :=
  let val := rd1 bh_val k in
  let '(i, bh_val, bh_ids) := heap_pop_loop k k 1 bh_val bh_ids val in
  (wr1 bh_val i (rd1 bh_val k), wr1 bh_ids i (rd1 bh_ids k)).
End Heap.

(** ** [merge_tables]: one query row *)

(** The per-thread scratch vectors [buf] (split into [pointer] and
    [shard_ids]) and [buf2] ([heap_vals]), with the local [heap_size]. *)
Record merge_state (T : Type) := MergeState {
  heap_size : nat;
  pointer : list nat;
  shard_ids : list nat;
  heap_vals : list T
}.
Arguments MergeState {T} _ _ _ _.
Arguments heap_size {T} _.
Arguments pointer {T} _.
Arguments shard_ids {T} _.
Arguments heap_vals {T} _.

Section Row.
Context {T : Type} {C : Comparator T}.
(** [D_in] and [I_in] are the row pointers [all_distances + i * k] and
    [all_labels + i * k], as maps from an offset to the value read there. *)
Variables (D_in : nat → T) (I_in : nat → Z).
Variables (stride k nshard : nat) (translations : list Z).

(** Body of [for (s = 0; s < nshard; s++)]. *)
Definition seed_shard (st : merge_state T) (s : nat) : merge_state T :=
  let pointer' := <[s := 0]> (pointer st) in
  if (0 <=? I_in (stride * s))%Z then
    let hs := S (heap_size st) in
    let '(hv, si) :=
      heap_push hs (heap_vals st) (shard_ids st) (D_in (stride * s)) s in
    MergeState hs pointer' si hv
  else MergeState (heap_size st) pointer' (shard_ids st) (heap_vals st).

(** [int heap_size = 0;] followed by the seeding loop. *)
Definition seed (buf : merge_state T) : merge_state T :=
  foldl seed_shard
    (MergeState 0 (pointer buf) (shard_ids buf) (heap_vals buf))
    (seq 0 nshard).

(** Body of [for (j = 0; j < k; j++)]: the new state and the pair
    [(D[j], I[j])] it writes. *)
Definition merge_step (st : merge_state T) : merge_state T * (T * Z) :=
  if heap_size st =? 0 then (st, (neutral, (-1)%Z))
  else
    let s := shard_ids st !!! 0 in
    let p := pointer st !!! s in
    let Dj := heap_vals st !!! 0 in
    let Ij := (I_in (stride * s + p) + translations !!! s)%Z in
    let '(hv, si) := heap_pop (heap_size st) (heap_vals st) (shard_ids st) in
    let hs := heap_size st - 1 in
    let p := p + 1 in
    let pointer' := <[s := p]> (pointer st) in
    if (p <? k) && (0 <=? I_in (stride * s + p))%Z then
      let hs := S hs in
      let '(hv, si) := heap_push hs hv si (D_in (stride * s + p)) s in
      (MergeState hs pointer' si hv, (Dj, Ij))
    else (MergeState hs pointer' si hv, (Dj, Ij)).

(** [steps] iterations of the [j] loop: final state and the pairs written
    to [D[j], I[j]], in order of [j]. *)
Fixpoint merge_loop (steps : nat) (st : merge_state T)
    : merge_state T * list (T * Z) :=
  match steps with
  | 0 => (st, [])
  | S steps' =>
      let '(st', w) := merge_step st in
      let '(st'', ws) := merge_loop steps' st' in
      (st'', w :: ws)
  end.

(** One iteration of [for (i = 0; i < n; i++)], on the scratch [buf] left
    by the previous row of the same thread. *)
Definition merge_row (buf : merge_state T) : merge_state T * list (T * Z) :=
  merge_loop k (seed buf).
End Row.

(** ** [merge_tables]: all rows *)

Section Tables.
Context {T : Type} {F : FloatOps T} {C : Comparator T}.

(** [std::vector<int> buf(2 * nshard); std::vector<float> buf2(nshard);]
    both are value-initialised. *)
Definition new_buf (nshard : nat) : merge_state T :=
  MergeState 0 (replicate nshard 0) (replicate nshard 0)
    (replicate nshard fzero).

(** Row [i] on scratch [buf]: [D_in = all_distances + i * k],
    [I_in = all_labels + i * k], [stride = n * k]. *)
Definition merge_row_at (n k nshard : nat) (all_distances : list T)
    (all_labels : list Z) (translations : list Z) (i : nat)
    (buf : merge_state T) : merge_state T * list (T * Z) :=
  merge_row (λ off, all_distances !!! (i * k + off))
            (λ off, all_labels !!! (i * k + off))
            (n * k) k nshard translations buf.

(** The writes [D[j] = ...; I[j] = ...] of row [i], with
    [D = distances + i * k] and [I = labels + i * k]. *)
Definition write_row (k i : nat) (ws : list (T * Z))
    (out : list T * list Z) : list T * list Z :=
  (list_inserts (i * k) ws.*1 out.1, list_inserts (i * k) ws.*2 out.2).

(** One OpenMP thread: it owns one scratch buffer and processes its share
    [rows] of the iterations of [#pragma omp for], one after the other. *)
Definition run_thread (n k nshard : nat) (all_distances : list T)
    (all_labels : list Z) (translations : list Z) (rows : list nat)
    (out : list T * list Z) : list T * list Z :=
  (foldl (λ acc i,
            let '(buf', ws) :=
              merge_row_at n k nshard all_distances all_labels translations
                i acc.1 in
            (buf', write_row k i ws acc.2))
         (new_buf nshard, out) rows).2.

(** [merge_tables] under a given distribution of the rows over threads.
    Threads share nothing but the read-only inputs and write disjoint
    slices of the outputs, so they are run one after the other. *)
Definition merge_tables_on (threads : list (list nat)) (n k nshard : nat)
    (distances : list T) (labels : list Z) (all_distances : list T)
    (all_labels : list Z) (translations : list Z) : list T * list Z :=
  if k =? 0 then (distances, labels)
  else foldl (λ out rows,
                run_thread n k nshard all_distances all_labels translations
                  rows out)
             (distances, labels) threads.

(** [merge_tables<C>(n, k, nshard, distances, labels, all_distances,
    all_labels, translations)], rows in program order on one thread. *)
Definition merge_tables (n k nshard : nat) (distances : list T)
    (labels : list Z) (all_distances : list T) (all_labels : list Z)
    (translations : list Z) : list T * list Z :=
  merge_tables_on [seq 0 n] n k nshard distances labels all_distances
    all_labels translations.
End Tables.

(** ** [brute_force_knn] *)

(** Modelled from the spec: the enumeration [Distance::DistanceType] is
    declared in [distance/distance.h], which is missing.  [knn.h] names two
    of its values (squared L2 and true L2), and "any other value is a
    configuration error": [OtherDistanceType] stands for each of them. *)
Inductive DistanceType :=
  | EucUnexpandedL2
  | EucUnexpandedL2Sqrt
  | OtherDistanceType.

(** What the environment answers for one shard [input[i]]: the error code
    and [att.device] of [cudaPointerGetAttributes], and what
    [faiss::gpu::bruteForceKnn] does when it is called on the shard:
    the [k * n] distances and labels it writes, or [None] when it throws. *)
Record shard (T : Type) := Shard {
  ptr_err : Z;
  att_device : Z;
  backend : option (list T * list Z)
}.
Arguments Shard {T} _ _ _.
Arguments ptr_err {T} _.
Arguments att_device {T} _.
Arguments backend {T} _.

(** The indeterminate contents of the four arrays obtained from [new[]]. *)
Record fresh_memory (T : Type) := FreshMemory {
  result_D_init : nat → T;
  result_I_init : nat → Z;
  all_D_init : nat → T;
  all_I_init : nat → Z
}.
Arguments FreshMemory {T} _ _ _ _.
Arguments result_D_init {T} _ _.
Arguments result_I_init {T} _ _.
Arguments all_D_init {T} _ _.
Arguments all_I_init {T} _ _.

(** [new A[m]]: [m] cells holding whatever [init] says was there. *)
Definition new_array {A : Type} (init : nat → A) (m : nat) : list A :=
  init <$> seq 0 m.

(** Modelled from the spec: the macro [ASSERT] is defined in [cuda_utils.h],
    which is missing.  A configuration error is "reported to the caller
    immediately, operation aborted": the call ends either there or by
    returning.  [Undefined] marks a call that returns after a statement to
    which C++ gives no meaning (see [print_defined]). *)
Inductive knn_outcome := AssertFailed | Undefined | Returned.

(** The caller's device buffers [res_D] and [res_I] when the call ends,
    and the shards on which the backend was run, in the order in which it
    was run on them. *)
Record knn_state (T : Type) := KnnState {
  res_D : list T;
  res_I : list Z;
  searched : list nat
}.
Arguments KnnState {T} _ _ _.
Arguments res_D {T} _.
Arguments res_I {T} _.
Arguments searched {T} _.

Section BruteForce.
Context {T : Type} {F : FloatOps T}.

(** [id_ranges]: the caller's [translations], or the table built by
    [for (i = 0; i < n_params; i++) { if (i < n_params)
    id_ranges->push_back(total_n); total_n += sizes[i]; }]. *)
Definition id_ranges_of (translations : option (list Z)) (sizes : list Z)
    (n_params : nat) : list Z :=
  match translations with
  | Some t => t
  | None =>
      (foldl (λ acc i,
                let id_ranges :=
                  if i <? n_params then acc.1 ++ [acc.2] else acc.1 in
                (id_ranges, (acc.2 + sizes !!! i)%Z))
             ([], 0%Z) (seq 0 n_params)).1
  end.

(** The [else] branch of lines 138-146 prints the caller's table:
    [for (int i = 0; i < translations->size(); i++)
       std::cout << translations[i] << ", ";].
    [translations] is the pointer to the vector, so [translations[i]] is not
    entry [i] of the table but the object [i] vectors after the caller's
    one, and there is none for [i >= 1].  The loop stays within what C++
    defines exactly when the table has at most one entry; nothing is
    printed from a table that was not passed. *)
Definition print_defined (translations : option (list Z)) : bool :=
  match translations with
  | Some t => length t <=? 1
  | None => true
  end.

(** Body of the loop over the shards: [all.1] is [all_D], [all.2] is
    [all_I]; shard [i] owns the slice starting at [i * k * n]. *)
Definition search_shard (n k i : nat) (sh : shard T)
    (acc : list T * list Z * list nat) : list T * list Z * list nat :=
  let '(all_D, all_I, log) := acc in
  if (ptr_err sh =? 0)%Z && (-1 <? att_device sh)%Z then
    match backend sh with
    | Some (ds, ls) =>
        (list_inserts (i * k * n) ds all_D,
         list_inserts (i * k * n) ls all_I, log ++ [i])
    | None => (all_D, all_I, log ++ [i])
    end
  else acc.

(** The loop [for (int i = 0; i < n_params; i++)] is under
    [#pragma omp for]: its iterations run in an order that the schedule
    chooses.  They share nothing but the read-only inputs and write disjoint
    slices, so a run is the list [schedule] of the iterations in the order
    in which they take effect. *)
Definition search_shards_on (schedule : list nat) (n k : nat)
    (input : list (shard T)) (all_D : list T) (all_I : list Z)
    : list T * list Z * list nat :=
  foldl (λ acc i,
           match input !! i with
           | Some sh => search_shard n k i sh acc
           | None => acc
           end)
        (all_D, all_I, []) schedule.

(** The shards in program order, as on one thread. *)
Definition search_shards (n k n_params : nat) (input : list (shard T))
    (all_D : list T) (all_I : list Z) : list T * list Z * list nat :=
  search_shards_on (seq 0 n_params) n k input all_D all_I.

(** Modelled from the spec: [MLCommon::LinAlg::unaryOp] is missing.  It is
    the "transform applied element-wise", here [sqrt] over the first [len]
    cells of [buf], in place: [unaryOp(res_D, res_D, n * k, sqrt, s)]. *)
Definition unaryOp_sqrt (len : nat) (buf : list T) : list T :=
  (fsqrt <$> take len buf) ++ drop len buf.

(** Modelled from the spec: [MLCommon::updateDevice] is missing.  It copies
    the first [len] cells of the host array [src] to the device array [dst]:
    [updateDevice(dst, src, len, s)]. *)
Definition updateDevice {A : Type} (dst src : list A) (len : nat) : list A :=
  list_inserts 0 (take len src) dst.

(** [brute_force_knn<IntType, DistanceType>(input, sizes, n_params, D,
    search_items, n, res_I, res_D, k, s, translations)].  [res_I] and
    [res_D] are the contents of the caller's buffers on entry; the vectors
    themselves ([search_items], of dimension [D]) only reach the backend,
    whose answers are in [input]; an [input[i]] that is missing is skipped.
    [ASSERT_DEVICE_MEM] is taken to print only and the [CUDA_CHECK]s to
    succeed; both macros are missing.  The two kernels run on the stream [s]
    in program order.  [schedule] is the order of the iterations of the
    loop over the shards.  A call that prints a table of two or more
    entries has left what C++ defines: it is marked [Undefined], and its
    state is the one the statements after the loop produce when that read
    has no effect but the text printed. *)
Definition brute_force_knn_on (schedule : list nat) (metric : DistanceType)
    (mem : fresh_memory T) (input : list (shard T)) (sizes : list Z)
    (n_params n : nat) (res_I : list Z) (res_D : list T) (k : nat)
    (translations : option (list Z)) : knn_outcome * knn_state T :=
  match metric with
  | OtherDistanceType => (AssertFailed, KnnState res_D res_I [])
  | _ =>
      let id_ranges := id_ranges_of translations sizes n_params in
      let outcome :=
        if print_defined translations then Returned else Undefined in
      let result_D := new_array (result_D_init mem) (k * n) in
      let result_I := new_array (result_I_init mem) (k * n) in
      let all_D := new_array (all_D_init mem) (n_params * k * n) in
      let all_I := new_array (all_I_init mem) (n_params * k * n) in
      let '(all_D, all_I, log) :=
        search_shards_on schedule n k input all_D all_I in
      let '(result_D, result_I) :=
        merge_tables (C := CMin) n k n_params result_D result_I all_D all_I
          id_ranges in
      let res_D :=
        match metric with
        | EucUnexpandedL2Sqrt => unaryOp_sqrt (n * k) res_D
        | _ => res_D
        end in
      let res_D := updateDevice res_D result_D (k * n) in
      let res_I := updateDevice res_I result_I (k * n) in
      (outcome, KnnState res_D res_I log)
  end.

(** The call with the shards searched in program order. *)
Definition brute_force_knn (metric : DistanceType) (mem : fresh_memory T)
    (input : list (shard T)) (sizes : list Z) (n_params n : nat)
    (res_I : list Z) (res_D : list T) (k : nat)
    (translations : option (list Z)) : knn_outcome * knn_state T :=
  brute_force_knn_on (seq 0 n_params) metric mem input sizes n_params n
    res_I res_D k translations.
End BruteForce.

(** ** Floats as rationals

    Every finite [float] is a rational number; this instance is used to run
    the functions above on concrete inputs.  [Qsqrt] rounds the square root
    down to a multiple of [1 / Qden q], and is exact on squares of integers. *)

Definition Qltb (a b : Q) : bool := negb (Qle_bool b a).

Definition Qsqrt (q : Q) : Q :=
  (Z.sqrt (Qnum q * Zpos (Qden q)) # Qden q)%Q.

(** [FLT_MAX = (2^24 - 1) * 2^104]. *)
Definition FLT_MAX : Q := (340282346638528859811704183484516925440 # 1)%Q.

#[export] Instance Q_float : FloatOps Q :=
  {| fzero := 0%Q; flt := Qltb; fneg := Qopp; fmax := FLT_MAX;
     fsqrt := Qsqrt |}.

(** * Verification *)

#[local] Arguments Nat.div : simpl never.
#[local] Arguments Nat.mul : simpl never.
#[local] Arguments prod_inhabited : simpl never.
#[local] Arguments Comparator_inhabited : simpl never.

(** ** The heap as one array of cells

    [bh_val] and [bh_ids] are always written at the same index, so the heap
    is reasoned about as the array of cells [zip bh_val bh_ids]. *)

Section HeapCells.
Context {T : Type} {C : Comparator T}.

Fixpoint cpush_loop (fuel i : nat) (l : list (T * nat)) (val : T)
    : nat * list (T * nat) :=
  match fuel with
  | 0 => (i, l)
  | S fuel' =>
      if 1 <? i then
        if negb (cmp val (rd1 l (i / 2)).1) then (i, l)
        else cpush_loop fuel' (i / 2) (wr1 l i (rd1 l (i / 2))) val
      else (i, l)
  end.

Definition cpush (k : nat) (l : list (T * nat)) (val : T) (ids : nat)
    : list (T * nat) :=
  let '(i, l') := cpush_loop k k l val in wr1 l' i (val, ids).

Fixpoint cpop_loop (fuel k i : nat) (l : list (T * nat)) (val : T)
    : nat * list (T * nat) :=
  match fuel with
  | 0 => (i, l)
  | S fuel' =>
      if k <? 2 * i then (i, l)
      else if (2 * i + 1 =? k + 1)
              || cmp (rd1 l (2 * i)).1 (rd1 l (2 * i + 1)).1 then
        if cmp val (rd1 l (2 * i)).1 then (i, l)
        else cpop_loop fuel' k (2 * i) (wr1 l i (rd1 l (2 * i))) val
      else
        if cmp val (rd1 l (2 * i + 1)).1 then (i, l)
        else cpop_loop fuel' k (2 * i + 1) (wr1 l i (rd1 l (2 * i + 1))) val
  end.

Definition cpop (k : nat) (l : list (T * nat)) : list (T * nat) :=
  let '(i, l') := cpop_loop k k 1 l (rd1 l k).1 in wr1 l' i (rd1 l' k).

Lemma rd1_zip (bv : list T) (bi : list nat) i :
  length bv = length bi → rd1 (zip bv bi) i = (rd1 bv i, rd1 bi i).
Proof.
  intros Hlen. unfold rd1. rewrite !list_lookup_total_alt, lookup_zip_with.
  destruct (bv !! (i - 1)) as [x|] eqn:Hx; simpl.
  - destruct (lookup_lt_is_Some_2 bi (i - 1)) as [y Hy].
    { rewrite <- Hlen. eauto using lookup_lt_Some. }
    by rewrite Hy.
  - apply lookup_ge_None_1 in Hx.
    by rewrite (lookup_ge_None_2 bi (i - 1)) by lia.
Qed.

Lemma wr1_zip (bv : list T) (bi : list nat) i x y :
  wr1 (zip bv bi) i (x, y) = zip (wr1 bv i x) (wr1 bi i y).
Proof. unfold wr1. apply (insert_zip_with pair). Qed.

Lemma length_wr1 {A} (l : list A) i x : length (wr1 l i x) = length l.
Proof. apply length_insert. Qed.

Lemma heap_push_loop_cells fuel i bv bi val i' bv' bi' :
  length bv = length bi →
  heap_push_loop fuel i bv bi val = (i', bv', bi') →
  length bv' = length bv ∧ length bi' = length bi ∧
  cpush_loop fuel i (zip bv bi) val = (i', zip bv' bi').
Proof.
  revert i bv bi. induction fuel as [|fuel IH]; intros i bv bi Hlen; simpl.
  { intros [= <- <- <-]. done. }
  destruct (1 <? i); [|intros [= <- <- <-]; done].
  rewrite rd1_zip by done. simpl.
  destruct (negb _); [intros [= <- <- <-]; done|].
  intros Hloop. apply IH in Hloop as (? & ? & Hloop).
  - rewrite !length_wr1 in *. by rewrite <- wr1_zip in Hloop.
  - by rewrite !length_wr1.
Qed.

Lemma heap_push_cells k bv bi val ids :
  length bv = length bi →
  let r := heap_push k bv bi val ids in
  length r.1 = length bv ∧ length r.2 = length bi ∧
  zip r.1 r.2 = cpush k (zip bv bi) val ids.
Proof.
  intros Hlen. unfold heap_push, cpush.
  destruct (heap_push_loop k k bv bi val) as [[i' bv'] bi'] eqn:Hloop.
  apply heap_push_loop_cells in Hloop as (? & ? & ->); [|done].
  simpl. rewrite !length_wr1, wr1_zip. done.
Qed.

Lemma heap_pop_loop_cells fuel k i bv bi val i' bv' bi' :
  length bv = length bi →
  heap_pop_loop fuel k i bv bi val = (i', bv', bi') →
  length bv' = length bv ∧ length bi' = length bi ∧
  cpop_loop fuel k i (zip bv bi) val = (i', zip bv' bi').
Proof.
  revert i bv bi. induction fuel as [|fuel IH]; intros i bv bi Hlen; simpl.
  { intros [= <- <- <-]. done. }
  destruct (k <? _); [intros [= <- <- <-]; done|].
  rewrite !rd1_zip by done. simpl.
  destruct (_ || _).
  - destruct (cmp val _); [intros [= <- <- <-]; done|].
    intros Hloop. apply IH in Hloop as (? & ? & Hloop).
    + rewrite !length_wr1 in *. by rewrite <- wr1_zip in Hloop.
    + by rewrite !length_wr1.
  - destruct (cmp val _); [intros [= <- <- <-]; done|].
    intros Hloop. apply IH in Hloop as (? & ? & Hloop).
    + rewrite !length_wr1 in *. by rewrite <- wr1_zip in Hloop.
    + by rewrite !length_wr1.
Qed.

Lemma heap_pop_cells k bv bi :
  length bv = length bi →
  let r := heap_pop k bv bi in
  length r.1 = length bv ∧ length r.2 = length bi ∧
  zip r.1 r.2 = cpop k (zip bv bi).
Proof.
  intros Hlen. unfold heap_pop, cpop. rewrite rd1_zip by done. simpl.
  destruct (heap_pop_loop k k 1 bv bi _) as [[i' bv'] bi'] eqn:Hloop.
  apply heap_pop_loop_cells in Hloop as (? & ? & ->); [|done].
  simpl. rewrite !length_wr1, rd1_zip, wr1_zip by congruence. done.
Qed.
End HeapCells.

(** ** Arithmetic of the heap indices *)

Lemma div2_spec (i : nat) : i = 2 * (i / 2) ∨ i = 2 * (i / 2) + 1.
Proof.
  pose proof (Nat.div_mod_eq i 2). pose proof (Nat.mod_upper_bound i 2). lia.
Qed.

Lemma div2_bounds (i : nat) : 2 ≤ i → 1 ≤ i / 2 < i.
Proof. pose proof (div2_spec i). lia. Qed.

Lemma div2_child (i j : nat) : j / 2 = i → j = 2 * i ∨ j = 2 * i + 1.
Proof. pose proof (div2_spec j). lia. Qed.

Lemma div2_even (i : nat) : (2 * i) / 2 = i.
Proof. pose proof (div2_spec (2 * i)). lia. Qed.

Lemma div2_odd (i : nat) : (2 * i + 1) / 2 = i.
Proof. pose proof (div2_spec (2 * i + 1)). lia. Qed.

(** ** The two loops terminate within their fuel

    [heap_push] and [heap_pop] give their loop the fuel [k]; the loop then
    leaves through its own exit test, and more fuel changes nothing. *)

Section HeapFuel.
Context {T : Type} {C : Comparator T}.

Lemma heap_push_loop_fuel fuel fuel' i (bh_val : list T) (bh_ids : list nat)
    val :
  i ≤ fuel → i ≤ fuel' →
  heap_push_loop fuel i bh_val bh_ids val
  = heap_push_loop fuel' i bh_val bh_ids val.
Proof.
  revert fuel' i bh_val bh_ids.
  induction fuel as [|fuel IH]; intros [|fuel'] i bh_val bh_ids Hf Hf';
    simpl; try done.
  - by destruct (Nat.ltb_spec 1 i); [lia|].
  - by destruct (Nat.ltb_spec 1 i); [lia|].
  - destruct (Nat.ltb_spec 1 i); [|done].
    destruct (negb _); [done|].
    pose proof (div2_bounds i). apply IH; lia.
Qed.

Lemma heap_pop_loop_fuel fuel fuel' k i (bh_val : list T) (bh_ids : list nat)
    val :
  1 ≤ i → k - i < fuel → k - i < fuel' →
  heap_pop_loop fuel k i bh_val bh_ids val
  = heap_pop_loop fuel' k i bh_val bh_ids val.
Proof.
  revert fuel' i bh_val bh_ids.
  induction fuel as [|fuel IH]; intros [|fuel'] i bh_val bh_ids Hi Hf Hf';
    simpl; try lia.
  destruct (Nat.ltb_spec k (2 * i)); [done|].
  destruct (_ || _); (destruct (cmp val _); [done|]); apply IH; lia.
Qed.
End HeapFuel.

(** ** Reads and writes through the decremented pointer *)

Section Rd1Wr1.
Context {A : Type} `{Inhabited A}.
Implicit Types l : list A.

Lemma rd1_wr1_eq l i x : i - 1 < length l → rd1 (wr1 l i x) i = x.
Proof. intros. unfold rd1, wr1. by rewrite list_lookup_total_insert_eq. Qed.

Lemma rd1_wr1_ne l i j x : i - 1 ≠ j - 1 → rd1 (wr1 l i x) j = rd1 l j.
Proof. intros. unfold rd1, wr1. by rewrite list_lookup_total_insert_ne. Qed.

Lemma rd1_take l k i : i - 1 < k → rd1 (take k l) i = rd1 l i.
Proof. intros. unfold rd1. by rewrite lookup_total_take_lt. Qed.

Lemma wr1_take l k i x : i - 1 < k → wr1 (take k l) i x = take k (wr1 l i x).
Proof. intros. unfold wr1. by rewrite take_insert_lt. Qed.

Lemma wr1_wr1 l i x y : wr1 (wr1 l i x) i y = wr1 l i y.
Proof. unfold wr1. apply list_insert_insert_eq. Qed.

Lemma rd1_lookup l i : i - 1 < length l → l !! (i - 1) = Some (rd1 l i).
Proof. intros. unfold rd1. by apply list_lookup_lookup_total_lt. Qed.

(** Exchanging two cells of the first [k] permutes them. *)
Lemma take_swap_perm l k i j x :
  i - 1 < k → j - 1 < k → k ≤ length l → i - 1 ≠ j - 1 →
  take k (wr1 (wr1 l i (rd1 l j)) j x) ≡ₚ take k (wr1 l i x).
Proof.
  intros Hi Hj Hk Hij.
  rewrite <- (wr1_wr1 l i x (rd1 l j)).
  assert (Hx : wr1 l i x !! (i - 1) = Some x).
  { unfold wr1. apply list_lookup_insert_eq. lia. }
  assert (Hy : wr1 l i x !! (j - 1) = Some (rd1 l j)).
  { unfold wr1. rewrite list_lookup_insert_ne by done. apply rd1_lookup. lia. }
  generalize dependent (wr1 l i x). intros l1 Hx Hy.
  rewrite <- !wr1_take by done. unfold wr1.
  apply Permutation_insert_swap; by rewrite lookup_take_lt.
Qed.
End Rd1Wr1.

(** ** The heap primitives only touch the first [k] cells, and permute them *)

Section HeapFrame.
Context {T : Type} {C : Comparator T}.
Implicit Types l : list (T * nat).

Lemma cpush_loop_bounds fuel i l val i' l' :
  cpush_loop fuel i l val = (i', l') →
  length l' = length l ∧ i' ≤ i ∧ (1 ≤ i → 1 ≤ i').
Proof.
  revert i l. induction fuel as [|fuel IH]; intros i l; simpl.
  { intros [= <- <-]. lia. }
  destruct (1 <? i) eqn:Hi; [|intros [= <- <-]; lia].
  apply Nat.ltb_lt in Hi. pose proof (div2_bounds i).
  destruct (negb _); [intros [= <- <-]; lia|].
  intros (Hl & ? & ?)%IH. rewrite length_wr1 in Hl. lia.
Qed.

Lemma cpush_loop_take fuel i l val i' l' k :
  cpush_loop fuel i l val = (i', l') → i - 1 < k →
  cpush_loop fuel i (take k l) val = (i', take k l').
Proof.
  revert i l. induction fuel as [|fuel IH]; intros i l; simpl.
  { by intros [= <- <-]. }
  destruct (1 <? i) eqn:Hi; [|by intros [= <- <-]].
  apply Nat.ltb_lt in Hi. pose proof (div2_bounds i). intros Hloop ?.
  rewrite rd1_take by lia.
  destruct (negb _); [by injection Hloop as <- <-|].
  rewrite wr1_take by lia. apply IH; [done|lia].
Qed.

Lemma cpush_take k l val ids :
  1 ≤ k → take k (cpush k l val ids) = cpush k (take k l) val ids.
Proof.
  intros Hk. unfold cpush.
  destruct (cpush_loop k k l val) as [i' l'] eqn:Hloop.
  pose proof (cpush_loop_bounds _ _ _ _ _ _ Hloop) as (_ & ? & ?).
  rewrite (cpush_loop_take _ _ _ _ _ _ k Hloop) by lia.
  by rewrite wr1_take by lia.
Qed.

(** The cell at [k] is dead on entry to [heap_push(k, ...)]. *)
Lemma cpush_stale k l val ids c :
  1 ≤ k → cpush k (wr1 l k c) val ids = cpush k l val ids.
Proof.
  intros Hk. unfold cpush. destruct k as [|k]; [lia|]. simpl.
  destruct (1 <? S k) eqn:Hi; [|by rewrite wr1_wr1].
  apply Nat.ltb_lt in Hi. pose proof (div2_bounds (S k)).
  rewrite rd1_wr1_ne by lia.
  destruct (negb _); by rewrite wr1_wr1.
Qed.

Lemma cpush_local k l1 l2 val ids :
  1 ≤ k → k ≤ length l1 → k ≤ length l2 →
  take (k - 1) l1 = take (k - 1) l2 →
  take k (cpush k l1 val ids) = take k (cpush k l2 val ids).
Proof.
  intros Hk H1 H2 Heq.
  rewrite <- (cpush_stale k l1 val ids (val, ids)) by done.
  rewrite <- (cpush_stale k l2 val ids (val, ids)) by done.
  rewrite !cpush_take by done. f_equal.
  destruct k as [|k]; [lia|].
  replace (S k - 1) with k in * by lia. unfold wr1.
  replace (S k - 1) with k in * by lia.
  rewrite !(take_S_r _ _ (val, ids)) by (apply list_lookup_insert_eq; lia).
  by rewrite !take_insert_ge, Heq by lia.
Qed.

Lemma cpop_loop_bounds fuel k i l val i' l' :
  cpop_loop fuel k i l val = (i', l') → 1 ≤ i ≤ k →
  length l' = length l ∧ i ≤ i' ≤ k ∧ rd1 l' k = rd1 l k.
Proof.
  revert i l. induction fuel as [|fuel IH]; intros i l; simpl.
  { intros [= <- <-] ?. split_and!; done || lia. }
  destruct (k <? 2 * i) eqn:Hk; [intros [= <- <-] ?; split_and!; done || lia|].
  apply Nat.ltb_ge in Hk.
  destruct (2 * i + 1 =? k + 1) eqn:Hlast; simpl.
  - destruct (cmp val _); [intros [= <- <-] ?; split_and!; done || lia|].
    intros Hloop ?. apply IH in Hloop as (Hl & ? & Hr); [|lia]. rewrite Hr.
    rewrite length_wr1 in Hl. rewrite rd1_wr1_ne by lia.
    split_and!; done || lia.
  - apply Nat.eqb_neq in Hlast.
    destruct (cmp (rd1 l (2 * i)).1 _).
    + destruct (cmp val _); [intros [= <- <-] ?; split_and!; done || lia|].
      intros Hloop ?. apply IH in Hloop as (Hl & ? & Hr); [|lia]. rewrite Hr.
      rewrite length_wr1 in Hl. rewrite rd1_wr1_ne by lia.
      split_and!; done || lia.
    + destruct (cmp val _); [intros [= <- <-] ?; split_and!; done || lia|].
      intros Hloop ?. apply IH in Hloop as (Hl & ? & Hr); [|lia]. rewrite Hr.
      rewrite length_wr1 in Hl. rewrite rd1_wr1_ne by lia.
      split_and!; done || lia.
Qed.

Lemma cpop_loop_take fuel k i l val i' l' :
  cpop_loop fuel k i l val = (i', l') → 1 ≤ i →
  cpop_loop fuel k i (take k l) val = (i', take k l').
Proof.
  revert i l. induction fuel as [|fuel IH]; intros i l; simpl.
  { by intros [= <- <-]. }
  destruct (k <? 2 * i) eqn:Hk; [by intros [= <- <-]|].
  apply Nat.ltb_ge in Hk. intros Hloop ?.
  rewrite !(rd1_take _ k (2 * i)) by lia.
  destruct (2 * i + 1 =? k + 1) eqn:Hlast; simpl in *.
  - destruct (cmp val _); [by injection Hloop as <- <-|].
    rewrite wr1_take by lia. apply IH; [done|lia].
  - apply Nat.eqb_neq in Hlast. rewrite !(rd1_take _ k (2 * i + 1)) by lia.
    destruct (cmp (rd1 l (2 * i)).1 _).
    + destruct (cmp val _); [by injection Hloop as <- <-|].
      rewrite wr1_take by lia. apply IH; [done|lia].
    + destruct (cmp val _); [by injection Hloop as <- <-|].
      rewrite wr1_take by lia. apply IH; [done|lia].
Qed.

Lemma cpop_take k l : 1 ≤ k → take k (cpop k l) = cpop k (take k l).
Proof.
  intros Hk. unfold cpop. rewrite (rd1_take _ k k) by lia.
  destruct (cpop_loop k k 1 l _) as [i' l'] eqn:Hloop.
  pose proof (cpop_loop_bounds _ _ _ _ _ _ _ Hloop) as (_ & ? & _); [lia|].
  rewrite (cpop_loop_take _ _ _ _ _ _ _ Hloop) by lia.
  by rewrite rd1_take, wr1_take by lia.
Qed.

Lemma cpop_local k l1 l2 :
  1 ≤ k → take k l1 = take k l2 →
  take (k - 1) (cpop k l1) = take (k - 1) (cpop k l2).
Proof.
  intros Hk Heq.
  assert (E : ∀ l, take (k - 1) (cpop k l) = take (k - 1) (cpop k (take k l))).
  { intros l. rewrite <- cpop_take, take_take by done. f_equal. lia. }
  by rewrite (E l1), (E l2), Heq.
Qed.
End HeapFrame.

Section HeapPerm.
Context {T : Type} {C : Comparator T}.
Implicit Types l : list (T * nat).

Lemma cpush_loop_perm fuel i l val i' l' k c :
  cpush_loop fuel i l val = (i', l') → 1 ≤ i ≤ k → k ≤ length l →
  take k (wr1 l' i' c) ≡ₚ take k (wr1 l i c).
Proof.
  revert i l. induction fuel as [|fuel IH]; intros i l; simpl.
  { by intros [= <- <-]. }
  destruct (1 <? i) eqn:Hi; [|by intros [= <- <-]].
  apply Nat.ltb_lt in Hi. pose proof (div2_bounds i).
  destruct (negb _); [by intros [= <- <-]|].
  intros Hloop ? ?. etrans.
  - eapply IH; [done|lia|by rewrite length_wr1].
  - apply take_swap_perm; lia.
Qed.

Lemma cpush_perm k l val ids :
  1 ≤ k ≤ length l →
  take k (cpush k l val ids) ≡ₚ (val, ids) :: take (k - 1) l.
Proof.
  intros Hk. unfold cpush.
  destruct (cpush_loop k k l val) as [i' l'] eqn:Hloop.
  rewrite (cpush_loop_perm _ _ _ _ _ _ k _ Hloop) by lia.
  destruct k as [|k]; [lia|]. unfold wr1.
  replace (S k - 1) with k by lia.
  rewrite (take_S_r _ _ (val, ids)) by (apply list_lookup_insert_eq; lia).
  rewrite take_insert_ge by lia. symmetry. apply Permutation_cons_append.
Qed.

Lemma cpop_loop_perm fuel k i l val i' l' :
  cpop_loop fuel k i l val = (i', l') → 1 ≤ i ≤ k → k ≤ length l →
  take (k - 1) (wr1 l' i' (rd1 l k)) ≡ₚ take (k - 1) (wr1 l i (rd1 l k)).
Proof.
  assert (Hmove : ∀ l i ch, 1 ≤ i → i < ch ≤ k → k ≤ length l →
    take (k - 1) (wr1 (wr1 l i (rd1 l ch)) ch (rd1 l k))
    ≡ₚ take (k - 1) (wr1 l i (rd1 l k))).
  { intros l0 i0 ch ? ? ?. destruct (decide (ch = k)) as [->|].
    - unfold wr1 at 1. by rewrite take_insert_ge by lia.
    - apply take_swap_perm; lia. }
  revert i l. induction fuel as [|fuel IH]; intros i l; simpl.
  { by intros [= <- <-]. }
  destruct (k <? 2 * i) eqn:Hk; [by intros [= <- <-]|].
  apply Nat.ltb_ge in Hk.
  destruct (2 * i + 1 =? k + 1) eqn:Hlast; simpl.
  - destruct (cmp val _); [by intros [= <- <-]|].
    intros Hloop ? ?. rewrite <- (Hmove l i (2 * i)) by lia.
    rewrite <- (rd1_wr1_ne l i k (rd1 l (2 * i))) by lia.
    eapply IH; [done|lia|by rewrite length_wr1].
  - apply Nat.eqb_neq in Hlast.
    destruct (cmp (rd1 l (2 * i)).1 _).
    + destruct (cmp val _); [by intros [= <- <-]|].
      intros Hloop ? ?. rewrite <- (Hmove l i (2 * i)) by lia.
      rewrite <- (rd1_wr1_ne l i k (rd1 l (2 * i))) by lia.
      eapply IH; [done|lia|by rewrite length_wr1].
    + destruct (cmp val _); [by intros [= <- <-]|].
      intros Hloop ? ?. rewrite <- (Hmove l i (2 * i + 1)) by lia.
      rewrite <- (rd1_wr1_ne l i k (rd1 l (2 * i + 1))) by lia.
      eapply IH; [done|lia|by rewrite length_wr1].
Qed.

Lemma cpop_perm k l :
  1 ≤ k ≤ length l → rd1 l 1 :: take (k - 1) (cpop k l) ≡ₚ take k l.
Proof.
  intros Hk. unfold cpop.
  destruct (cpop_loop k k 1 l _) as [i' l'] eqn:Hloop.
  pose proof (cpop_loop_bounds _ _ _ _ _ _ _ Hloop) as (_ & _ & ->); [lia|].
  rewrite (cpop_loop_perm _ _ _ _ _ _ _ Hloop) by lia.
  destruct l as [|x l]; [simpl in Hk; lia|].
  destruct k as [|[|k]]; [lia|done|].
  unfold rd1, wr1. simpl. replace (k - 0) with k by lia.
  rewrite (take_S_r l k (l !!! k)).
  - constructor. apply Permutation_cons_append.
  - apply list_lookup_lookup_total_lt. simpl in Hk. lia.
Qed.
End HeapPerm.

(** ** Heap order

    The order facts need [C::cmp] to be a strict weak order (as [<] is on
    floats other than NaN). *)

Class ComparatorLaws {T : Type} (C : Comparator T) := {
  cmp_asym (a b : T) : cmp a b = true → cmp b a = false;
  cmp_negtrans (a b c : T) : cmp b a = false → cmp c b = false → cmp c a = false
}.

(** [cle a b]: [b] does not come strictly before [a]. *)
Definition cle {T : Type} {C : Comparator T} (a b : T) : Prop :=
  cmp b a = false.

(** The first [k] cells form a heap: no cell beats its father. *)
Definition heap_ok {T : Type} {C : Comparator T} (k : nat) (l : list (T * nat))
    : Prop :=
  ∀ j, 2 ≤ j ≤ k → cle (rd1 l (j / 2)).1 (rd1 l j).1.

Section HeapOrder.
Context {T : Type} {C : Comparator T} {L : ComparatorLaws C}.
Implicit Types l : list (T * nat).

Lemma cle_refl (a : T) : cle a a.
Proof.
  unfold cle. destruct (cmp a a) eqn:E; [|done].
  by rewrite (cmp_asym _ _ E) in E.
Qed.

Lemma cle_trans (a b c : T) : cle a b → cle b c → cle a c.
Proof. unfold cle. apply cmp_negtrans. Qed.

Lemma cmp_cle (a b : T) : cmp a b = true → cle a b.
Proof. apply cmp_asym. Qed.

Lemma cpush_exit_ok k i l val ids :
  1 ≤ i ≤ k → k ≤ length l →
  (i = 1 ∨ cle (rd1 l (i / 2)).1 val) →
  (∀ j, 2 ≤ j ≤ k → j ≠ i → j / 2 ≠ i → cle (rd1 l (j / 2)).1 (rd1 l j).1) →
  (∀ j, 2 ≤ j ≤ k → j / 2 = i → cle val (rd1 l j).1) →
  heap_ok k (wr1 l i (val, ids)).
Proof.
  intros Hi Hk Hup PA PB j Hj. pose proof (div2_bounds j).
  destruct (decide (j = i)) as [->|].
  - rewrite rd1_wr1_eq, rd1_wr1_ne by lia. simpl.
    destruct Hup; [lia|done].
  - rewrite (rd1_wr1_ne _ _ j) by lia.
    destruct (decide (j / 2 = i)) as [E|].
    + rewrite E, rd1_wr1_eq by lia. simpl. by apply PB.
    + rewrite rd1_wr1_ne by lia. by apply PA.
Qed.

Lemma cpush_loop_ok fuel k i l val ids i' l' :
  cpush_loop fuel i l val = (i', l') →
  i ≤ fuel → 1 ≤ i ≤ k → k ≤ length l →
  (∀ j, 2 ≤ j ≤ k → j ≠ i → j / 2 ≠ i → cle (rd1 l (j / 2)).1 (rd1 l j).1) →
  (∀ j, 2 ≤ j ≤ k → j / 2 = i →
     cle val (rd1 l j).1 ∧ (2 ≤ i → cle (rd1 l (i / 2)).1 (rd1 l j).1)) →
  heap_ok k (wr1 l' i' (val, ids)).
Proof.
  revert i l. induction fuel as [|fuel IH]; intros i l; simpl.
  { intros _ ? ?. lia. }
  destruct (1 <? i) eqn:Hi.
  2:{ apply Nat.ltb_ge in Hi. intros [= <- <-] ? ? ? PA PB.
      apply cpush_exit_ok; [done|done|left; lia|done|]. intros. by apply PB. }
  apply Nat.ltb_lt in Hi. pose proof (div2_bounds i).
  destruct (cmp val (rd1 l (i / 2)).1) eqn:Hcmp; simpl.
  2:{ intros [= <- <-] ? ? ? PA PB.
      apply cpush_exit_ok; [done|done|by right|done|]. intros. by apply PB. }
  intros Hloop ? ? ? PA PB.
  apply (IH _ _ Hloop); [lia|lia|by rewrite length_wr1| |].
  - intros j ? ? ?. pose proof (div2_bounds j).
    assert (j ≠ i) by (intros ->; lia).
    rewrite (rd1_wr1_ne _ _ j) by lia.
    destruct (decide (j / 2 = i)) as [E|].
    + rewrite E, rd1_wr1_eq by lia. apply PB; [done|done|lia].
    + rewrite rd1_wr1_ne by lia. by apply PA.
  - intros j ? Hj. pose proof (div2_bounds j). pose proof (div2_spec (i / 2)).
    rewrite (rd1_wr1_ne _ _ (i / 2 / 2)) by lia.
    destruct (decide (j = i)) as [->|].
    + rewrite rd1_wr1_eq by lia. split; [by apply cmp_cle|].
      intros ?. apply PA; lia.
    + rewrite rd1_wr1_ne by lia.
      assert (cle (rd1 l (i / 2)).1 (rd1 l j).1).
      { rewrite <- Hj. apply PA; lia. }
      split.
      * eapply cle_trans; [by apply cmp_cle|done].
      * intros ?. eapply cle_trans; [|done]. apply PA; lia.
Qed.

Lemma cpush_ok k l val ids :
  heap_ok (k - 1) l → 1 ≤ k ≤ length l → heap_ok k (cpush k l val ids).
Proof.
  intros Hok Hk. unfold cpush.
  destruct (cpush_loop k k l val) as [i' l'] eqn:Hloop.
  apply (cpush_loop_ok _ _ _ _ _ _ _ _ Hloop); [lia|lia|lia| |].
  - intros j ? ? ?. apply Hok. lia.
  - intros j ? ?. pose proof (div2_bounds j). lia.
Qed.

Lemma heap_top_min k l j :
  heap_ok k l → 1 ≤ j ≤ k → cle (rd1 l 1).1 (rd1 l j).1.
Proof.
  intros Hok. induction j as [j IH] using lt_wf_ind. intros Hj.
  destruct (decide (j = 1)) as [->|]; [apply cle_refl|].
  pose proof (div2_bounds j).
  eapply cle_trans; [apply (IH (j / 2)); lia|apply Hok; lia].
Qed.
End HeapOrder.

Section HeapOrderPop.
Context {T : Type} {C : Comparator T} {L : ComparatorLaws C}.
Implicit Types l : list (T * nat).

Lemma cpop_exit_ok k i l c :
  1 ≤ i ≤ k → k ≤ length l →
  (∀ j, 2 ≤ j ≤ k → j ≠ i → j / 2 ≠ i → cle (rd1 l (j / 2)).1 (rd1 l j).1) →
  (2 ≤ i → cle (rd1 l (i / 2)).1 c.1) →
  (∀ j, 2 ≤ j ≤ k - 1 → j / 2 = i → cle c.1 (rd1 l j).1) →
  heap_ok (k - 1) (wr1 l i c).
Proof.
  intros Hi Hk PA PB PE j Hj. pose proof (div2_bounds j).
  destruct (decide (j = i)) as [->|].
  - rewrite rd1_wr1_eq, rd1_wr1_ne by lia. apply PB. lia.
  - rewrite (rd1_wr1_ne _ _ j) by lia.
    destruct (decide (j / 2 = i)) as [E|].
    + rewrite E, rd1_wr1_eq by lia. by apply PE.
    + rewrite rd1_wr1_ne by lia. apply PA; lia.
Qed.

Lemma cpop_loop_ok fuel k i l c i' l' :
  cpop_loop fuel k i l c.1 = (i', l') →
  k - i < fuel → 1 ≤ i ≤ k → k ≤ length l →
  (∀ j, 2 ≤ j ≤ k → j ≠ i → j / 2 ≠ i → cle (rd1 l (j / 2)).1 (rd1 l j).1) →
  (2 ≤ i → cle (rd1 l (i / 2)).1 c.1) →
  (∀ j, 2 ≤ j ≤ k → j / 2 = i → 2 ≤ i → cle (rd1 l (i / 2)).1 (rd1 l j).1) →
  heap_ok (k - 1) (wr1 l' i' c).
Proof.
  revert i l. induction fuel as [|fuel IH]; intros i l; simpl; [lia|].
  (* leaving the loop with the hole at [i] *)
  assert (Hexit : ∀ ch, (ch = 2 * i ∨ ch = 2 * i + 1) → ch ≤ k →
    cmp c.1 (rd1 l ch).1 = true →
    (∀ j, 2 ≤ j ≤ k - 1 → j / 2 = i → cle (rd1 l ch).1 (rd1 l j).1) →
    k - i < S fuel → 1 ≤ i ≤ k → k ≤ length l →
    (∀ j, 2 ≤ j ≤ k → j ≠ i → j / 2 ≠ i → cle (rd1 l (j / 2)).1 (rd1 l j).1) →
    (2 ≤ i → cle (rd1 l (i / 2)).1 c.1) →
    (∀ j, 2 ≤ j ≤ k → j / 2 = i → 2 ≤ i → cle (rd1 l (i / 2)).1 (rd1 l j).1) →
    heap_ok (k - 1) (wr1 l i c)).
  { intros ch Hch ? Hcmp Hmin ? ? ? PA PB _.
    apply cpop_exit_ok; [done..|]. intros j ? ?.
    eapply cle_trans; [by apply cmp_cle|by apply Hmin]. }
  (* moving the smaller child [ch] up and descending to it *)
  assert (Hstep : ∀ ch, (ch = 2 * i ∨ ch = 2 * i + 1) → ch ≤ k →
    cmp c.1 (rd1 l ch).1 = false →
    (∀ j, 2 ≤ j ≤ k → j / 2 = i → cle (rd1 l ch).1 (rd1 l j).1) →
    cpop_loop fuel k ch (wr1 l i (rd1 l ch)) c.1 = (i', l') →
    k - i < S fuel → 1 ≤ i ≤ k → k ≤ length l →
    (∀ j, 2 ≤ j ≤ k → j ≠ i → j / 2 ≠ i → cle (rd1 l (j / 2)).1 (rd1 l j).1) →
    (2 ≤ i → cle (rd1 l (i / 2)).1 c.1) →
    (∀ j, 2 ≤ j ≤ k → j / 2 = i → 2 ≤ i → cle (rd1 l (i / 2)).1 (rd1 l j).1) →
    heap_ok (k - 1) (wr1 l' i' c)).
  { intros ch Hch ? Hcmp Hmin Hloop ? ? ? PA PB PC.
    assert (ch / 2 = i) as Hfa.
    { destruct Hch as [-> | ->]; [apply div2_even|apply div2_odd]. }
    apply (IH _ _ Hloop); [lia|lia|by rewrite length_wr1| | |].
    - intros j ? ? ?. pose proof (div2_bounds j).
      destruct (decide (j = i)) as [->|].
      + rewrite rd1_wr1_eq, rd1_wr1_ne by lia. apply PC; lia.
      + rewrite (rd1_wr1_ne _ _ j) by lia.
        destruct (decide (j / 2 = i)) as [E|].
        * rewrite E, rd1_wr1_eq by lia. by apply Hmin.
        * rewrite rd1_wr1_ne by lia. by apply PA.
    - intros _. rewrite Hfa, rd1_wr1_eq by lia. done.
    - intros j ? Hj _. pose proof (div2_bounds j).
      rewrite Hfa, rd1_wr1_eq, rd1_wr1_ne by lia.
      rewrite <- Hj. apply PA; lia. }
  destruct (k <? 2 * i) eqn:Hk.
  { apply Nat.ltb_lt in Hk. intros [= <- <-] ? ? ? PA PB PC.
    apply cpop_exit_ok; [done..|]. intros j ? Hj.
    apply div2_child in Hj. lia. }
  apply Nat.ltb_ge in Hk.
  destruct (2 * i + 1 =? k + 1) eqn:Hlast; simpl.
  - apply Nat.eqb_eq in Hlast.
    destruct (cmp c.1 (rd1 l (2 * i)).1) eqn:Hcmp.
    + intros [= <- <-]. apply (Hexit (2 * i)); [by left|done|done|].
      intros j ? Hj. apply div2_child in Hj. lia.
    + apply (Hstep (2 * i)); [by left|done|done|].
      intros j ? Hj. apply div2_child in Hj.
      assert (j = 2 * i) as -> by lia. apply cle_refl.
  - apply Nat.eqb_neq in Hlast.
    destruct (cmp (rd1 l (2 * i)).1 (rd1 l (2 * i + 1)).1) eqn:Hsib.
    + assert (∀ j, 2 ≤ j ≤ k → j / 2 = i →
                cle (rd1 l (2 * i)).1 (rd1 l j).1) as Hmin.
      { intros j ? Hj. apply div2_child in Hj as [-> | ->];
          [apply cle_refl|by apply cmp_cle]. }
      destruct (cmp c.1 (rd1 l (2 * i)).1) eqn:Hcmp.
      * intros [= <- <-]. apply (Hexit (2 * i)); [by left|done|done|].
        intros j ? ?. apply Hmin; [lia|done].
      * apply (Hstep (2 * i)); [by left|done|done|done].
    + assert (∀ j, 2 ≤ j ≤ k → j / 2 = i →
                cle (rd1 l (2 * i + 1)).1 (rd1 l j).1) as Hmin.
      { intros j ? Hj. apply div2_child in Hj as [-> | ->];
          [done|apply cle_refl]. }
      destruct (cmp c.1 (rd1 l (2 * i + 1)).1) eqn:Hcmp.
      * intros [= <- <-]. apply (Hexit (2 * i + 1)); [by right|lia|done|].
        intros j ? ?. apply Hmin; [lia|done].
      * apply (Hstep (2 * i + 1)); [by right|lia|done|done].
Qed.

Lemma cpop_ok k l :
  heap_ok k l → 1 ≤ k ≤ length l → heap_ok (k - 1) (cpop k l).
Proof.
  intros Hok Hk. unfold cpop.
  destruct (cpop_loop k k 1 l _) as [i' l'] eqn:Hloop.
  pose proof (cpop_loop_bounds _ _ _ _ _ _ _ Hloop) as (_ & _ & ->); [lia|].
  apply (cpop_loop_ok _ _ _ _ _ _ _ Hloop); [lia|lia|lia| |lia|lia].
  intros j ? ? ?. by apply Hok.
Qed.
End HeapOrderPop.

(** ** The heap primitives on the two arrays *)

Section HeapState.
Context {T : Type} {C : Comparator T}.

Lemma heap_push_spec hs (bv : list T) (bi : list nat) val ids :
  length bv = length bi → S hs ≤ length bv →
  let r := heap_push (S hs) bv bi val ids in
  length r.1 = length bv ∧ length r.2 = length bi ∧
  take (S hs) (zip r.1 r.2) ≡ₚ (val, ids) :: take hs (zip bv bi).
Proof.
  intros Hlen Hhs.
  destruct (heap_push_cells (S hs) bv bi val ids Hlen) as (? & ? & Hz).
  split_and!; [done..|]. rewrite Hz, cpush_perm.
  - by replace (S hs - 1) with hs by lia.
  - rewrite length_zip_with_l_eq; lia.
Qed.

Lemma heap_pop_spec hs (bv : list T) (bi : list nat) :
  length bv = length bi → 1 ≤ hs ≤ length bv →
  let r := heap_pop hs bv bi in
  length r.1 = length bv ∧ length r.2 = length bi ∧
  (bv !!! 0, bi !!! 0) :: take (hs - 1) (zip r.1 r.2) ≡ₚ take hs (zip bv bi).
Proof.
  intros Hlen Hhs.
  destruct (heap_pop_cells hs bv bi Hlen) as (? & ? & Hz).
  split_and!; [done..|]. rewrite Hz.
  rewrite <- (cpop_perm hs (zip bv bi))
    by (rewrite length_zip_with_l_eq; lia).
  by rewrite rd1_zip.
Qed.

Lemma heap_push_ok {L : ComparatorLaws C} hs (bv : list T) (bi : list nat)
    val ids :
  length bv = length bi → S hs ≤ length bv →
  heap_ok hs (zip bv bi) →
  let r := heap_push (S hs) bv bi val ids in heap_ok (S hs) (zip r.1 r.2).
Proof.
  intros Hlen Hhs Hok.
  destruct (heap_push_cells (S hs) bv bi val ids Hlen) as (? & ? & Hz).
  simpl. rewrite Hz. apply cpush_ok.
  - by replace (S hs - 1) with hs by lia.
  - rewrite length_zip_with_l_eq; lia.
Qed.

Lemma heap_pop_ok {L : ComparatorLaws C} hs (bv : list T) (bi : list nat) :
  length bv = length bi → 1 ≤ hs ≤ length bv →
  heap_ok hs (zip bv bi) →
  let r := heap_pop hs bv bi in heap_ok (hs - 1) (zip r.1 r.2).
Proof.
  intros Hlen Hhs Hok.
  destruct (heap_pop_cells hs bv bi Hlen) as (? & ? & Hz).
  simpl. rewrite Hz. apply cpop_ok; [done|].
  rewrite length_zip_with_l_eq; lia.
Qed.

(** The results only depend on the live cells. *)
Lemma heap_push_local hs (bv1 bv2 : list T) (bi1 bi2 : list nat) val ids :
  length bv1 = length bi1 → length bv2 = length bi2 →
  S hs ≤ length bv1 → S hs ≤ length bv2 →
  take hs (zip bv1 bi1) = take hs (zip bv2 bi2) →
  let r1 := heap_push (S hs) bv1 bi1 val ids in
  let r2 := heap_push (S hs) bv2 bi2 val ids in
  take (S hs) (zip r1.1 r1.2) = take (S hs) (zip r2.1 r2.2).
Proof.
  intros Hl1 Hl2 ? ? Heq.
  destruct (heap_push_cells (S hs) bv1 bi1 val ids Hl1) as (_ & _ & Hz1).
  destruct (heap_push_cells (S hs) bv2 bi2 val ids Hl2) as (_ & _ & Hz2).
  simpl. rewrite Hz1, Hz2. apply cpush_local.
  - lia.
  - rewrite length_zip_with_l_eq; lia.
  - rewrite length_zip_with_l_eq; lia.
  - by replace (S hs - 1) with hs by lia.
Qed.

Lemma heap_pop_local hs (bv1 bv2 : list T) (bi1 bi2 : list nat) :
  length bv1 = length bi1 → length bv2 = length bi2 → 1 ≤ hs →
  take hs (zip bv1 bi1) = take hs (zip bv2 bi2) →
  let r1 := heap_pop hs bv1 bi1 in
  let r2 := heap_pop hs bv2 bi2 in
  take (hs - 1) (zip r1.1 r1.2) = take (hs - 1) (zip r2.1 r2.2).
Proof.
  intros Hl1 Hl2 ? Heq.
  destruct (heap_pop_cells hs bv1 bi1 Hl1) as (_ & _ & Hz1).
  destruct (heap_pop_cells hs bv2 bi2 Hl2) as (_ & _ & Hz2).
  simpl. rewrite Hz1, Hz2. by apply cpop_local.
Qed.
End HeapState.

(** ** Sums over the shards *)

Lemma sum_list_with_ext_in {A} (f g : A → nat) (l : list A) :
  (∀ x, x ∈ l → f x = g x) → sum_list_with f l = sum_list_with g l.
Proof.
  induction l as [|x l IH]; intros Hfg; simpl; [done|].
  rewrite Hfg, IH; [done| |by left]. intros y ?. apply Hfg. by right.
Qed.

Lemma sum_seq_decr (f g : nat → nat) (a n s0 : nat) :
  a ≤ s0 < a + n → 0 < f s0 → g s0 = f s0 - 1 →
  (∀ s, s ≠ s0 → g s = f s) →
  sum_list_with g (seq a n) + 1 = sum_list_with f (seq a n).
Proof.
  revert a. induction n as [|n IH]; intros a Hs0 Hpos Hg0 Hg; simpl; [lia|].
  destruct (decide (a = s0)) as [->|].
  - rewrite Hg0. rewrite (sum_list_with_ext_in g f); [lia|].
    intros s [? ?]%elem_of_seq. apply Hg. lia.
  - rewrite Hg by done. rewrite <- (IH (S a)); [lia|lia|done..].
Qed.

(** ** Candidates of a row *)

(** Number of leading entries with a non-negative label among
    [f p, f (p + 1), ..., f (p + len - 1)]. *)
Fixpoint count_valid (f : nat → Z) (p len : nat) : nat :=
  match len with
  | 0 => 0
  | S len' => if (0 <=? f p)%Z then S (count_valid f (S p) len') else 0
  end.

Lemma count_valid_lt f p len q :
  q < count_valid f p len ↔ q < len ∧ ∀ r, r ≤ q → (0 ≤ f (p + r)%nat)%Z.
Proof.
  revert p q. induction len as [|len IH]; intros p q; simpl; [lia|].
  destruct (0 <=? f p)%Z eqn:E.
  - apply Z.leb_le in E. destruct q as [|q].
    + split; [|lia]. intros _. split; [lia|]. intros r ?.
      by replace (p + r) with p by lia.
    + rewrite <- Nat.succ_lt_mono, IH. split.
      * intros [? Hr]. split; [lia|]. intros [|r] ?.
        -- by rewrite Nat.add_0_r.
        -- replace (p + S r) with (S p + r) by lia. apply Hr. lia.
      * intros [? Hr]. split; [lia|]. intros r ?.
        replace (S p + r) with (p + S r) by lia. apply Hr. lia.
  - apply Z.leb_gt in E. split; [lia|]. intros [_ Hr].
    specialize (Hr 0). rewrite Nat.add_0_r in Hr. lia.
Qed.

Section RowSpec.
Context {T : Type} {C : Comparator T}.
Variables (D_in : nat → T) (I_in : nat → Z).
Variables (stride k nshard : nat) (translations : list Z).

(** Entry [p] of shard [s] in this row. *)
Definition dis (s p : nat) : T := D_in (stride * s + p).
Definition lab (s p : nat) : Z := I_in (stride * s + p).

(** Length of the prefix of shard [s] that the merge can consume: the
    entries before the first negative label, among the first [k]. *)
Definition vlen (s : nat) : nat := count_valid (lab s) 0 k.

(** Candidates not yet emitted in state [st]. *)
Definition remaining (st : merge_state T) : nat :=
  sum_list_with (λ s, vlen s - pointer st !!! s) (seq 0 nshard).

(** Total number of candidates the merge can draw from. *)
Definition total_valid : nat := sum_list_with vlen (seq 0 nshard).

(** The shard [s] and position [p] that an iteration of the [j] loop
    pops: [s = shard_ids[0]], [p = pointer[s]]; [None] on an empty heap. *)
Definition origin (st : merge_state T) : option (nat * nat) :=
  if heap_size st =? 0 then None
  else let s := shard_ids st !!! 0 in Some (s, pointer st !!! s).

Fixpoint merge_origins (steps : nat) (st : merge_state T)
    : list (option (nat * nat)) :=
  match steps with
  | 0 => []
  | S steps' =>
      origin st
      :: merge_origins steps'
           (merge_step D_in I_in stride k translations st).1
  end.

(** What a slot holds, by its origin. *)
Definition emit (o : option (nat * nat)) : T * Z :=
  match o with
  | None => (neutral, (-1)%Z)
  | Some (s, p) => (dis s p, (lab s p + translations !!! s)%Z)
  end.

(** The live cells of the heap. *)
Definition cells (st : merge_state T) : list (T * nat) :=
  take (heap_size st) (zip (heap_vals st) (shard_ids st)).

Lemma vlen_lt s q : q < vlen s ↔ q < k ∧ ∀ r, r ≤ q → (0 ≤ lab s r)%Z.
Proof. unfold vlen. by rewrite count_valid_lt. Qed.

Lemma vlen_le s : vlen s ≤ k.
Proof.
  destruct (decide (vlen s ≤ k)) as [|Hn]; [done|].
  assert (k < vlen s) as [? _]%vlen_lt by lia. lia.
Qed.

Lemma vlen_first s : 0 < k → (0 <=? I_in (stride * s))%Z = true ↔ 0 < vlen s.
Proof.
  intros Hk. rewrite vlen_lt, Z.leb_le. unfold lab. split.
  - intros ?. split; [done|]. intros r ?.
    by replace (stride * s + r) with (stride * s) by lia.
  - intros [_ Hr]. specialize (Hr 0). rewrite Nat.add_0_r in Hr. apply Hr. lia.
Qed.

Lemma vlen_next s p :
  p < vlen s →
  (p + 1 <? k) && (0 <=? I_in (stride * s + (p + 1)))%Z = true
  ↔ p + 1 < vlen s.
Proof.
  rewrite !vlen_lt, andb_true_iff, Nat.ltb_lt, Z.leb_le. unfold lab.
  intros [? Hr]. split.
  - intros [? ?]. split; [done|]. intros r ?.
    destruct (decide (r = p + 1)) as [->|]; [done|]. apply Hr. lia.
  - intros [? Hr']. split; [done|]. by apply Hr'.
Qed.

(** *** Invariant of the [j] loop

    The live cells are the heads [(D_in[s][pointer[s]], s)] of exactly the
    shards that still have a candidate. *)
Definition row_inv (st : merge_state T) : Prop :=
  length (pointer st) = nshard ∧
  length (heap_vals st) = length (shard_ids st) ∧
  heap_size st ≤ length (heap_vals st) ∧
  NoDup (cells st).*2 ∧
  (∀ d s, (d, s) ∈ cells st →
     s < nshard ∧ pointer st !!! s < vlen s ∧ d = dis s (pointer st !!! s)) ∧
  (∀ s, s < nshard → s ∉ (cells st).*2 → pointer st !!! s = vlen s).

Local Abbreviation step := (merge_step D_in I_in stride k translations).

Lemma merge_step_empty st :
  heap_size st = 0 → step st = (st, (neutral, (-1)%Z)).
Proof. intros E. unfold merge_step. by rewrite E. Qed.

Lemma merge_step_nonempty st :
  0 < k → row_inv st → heap_size st ≠ 0 →
  let s := shard_ids st !!! 0 in
  let p := pointer st !!! s in
  s < nshard ∧ p < vlen s ∧ heap_vals st !!! 0 = dis s p ∧
  (step st).2 = emit (Some (s, p)) ∧
  pointer (step st).1 = <[s := p + 1]> (pointer st) ∧
  row_inv (step st).1.
Proof.
  destruct st as [hs ptr ids vals]. unfold row_inv, cells. simpl.
  intros Hk (Hlp & Hlen & Hhs & Hnd & Hin & Hout) Hne.
  destruct (heap_pop_spec hs vals ids) as (Hl1 & Hl2 & Hpop); [done|lia|].
  assert (Htop : (vals !!! 0, ids !!! 0) ∈ take hs (zip vals ids)).
  { rewrite <- Hpop. by left. }
  destruct (Hin _ _ Htop) as (Hs & Hp & Hd).
  set (s := ids !!! 0) in *. set (p := ptr !!! s) in *.
  assert (Hmid : (s ∉ (take (hs - 1) (zip (heap_pop hs vals ids).1
                                           (heap_pop hs vals ids).2)).*2)
                 ∧ NoDup (take (hs - 1) (zip (heap_pop hs vals ids).1
                                              (heap_pop hs vals ids).2)).*2).
  { rewrite <- Hpop in Hnd. simpl in Hnd. by apply NoDup_cons in Hnd. }
  destruct Hmid as [Hs_mid Hnd_mid].
  assert (Hin_mid : ∀ d s', (d, s') ∈ take (hs - 1)
             (zip (heap_pop hs vals ids).1 (heap_pop hs vals ids).2) →
           s' ≠ s ∧ s' < nshard ∧ ptr !!! s' < vlen s'
           ∧ d = dis s' (ptr !!! s')).
  { intros d s' Hel. split.
    - intros ->. apply Hs_mid. apply list_elem_of_fmap. by exists (d, s).
    - apply Hin. rewrite <- Hpop. by right. }
  assert (Hout_mid : ∀ s', s' < nshard → s' ≠ s →
            s' ∉ (take (hs - 1) (zip (heap_pop hs vals ids).1
                                     (heap_pop hs vals ids).2)).*2 →
            ptr !!! s' = vlen s').
  { intros s' ? ? Hnel. apply Hout; [done|]. rewrite <- Hpop. simpl.
    rewrite not_elem_of_cons. done. }
  split; [done|]. split; [done|]. split; [done|].
  unfold merge_step; simpl.
  destruct (Nat.eqb_spec hs 0) as [|_]; [done|].
  destruct (heap_pop hs vals ids) as [hv si]; simpl in *.
  fold s. fold p. pose proof (vlen_next s p Hp) as Hnext.
  destruct ((p + 1 <? k) && (0 <=? I_in (stride * s + (p + 1)))%Z);
    [destruct (heap_push (S (hs - 1)) hv si _ s) as [hv' si'] eqn:Hpush|];
    simpl; (split; [by rewrite Hd|]); (split; [done|]).
  - (* invariant, a new head is pushed *)
    destruct (heap_push_spec (hs - 1) hv si (D_in (stride * s + (p + 1))) s)
      as (Hl1' & Hl2' & Hperm); [congruence|lia|].
    rewrite Hpush in Hl1', Hl2', Hperm. simpl in *.
    split_and!.
    + by rewrite length_insert.
    + congruence.
    + lia.
    + rewrite Hperm. simpl. by apply NoDup_cons.
    + intros d s'. rewrite Hperm. intros [[= -> ->]|Hel]%elem_of_cons.
      * rewrite list_lookup_total_insert_eq by lia.
        split_and!; [done| |done]. by apply Hnext.
      * destruct (Hin_mid _ _ Hel) as (? & ? & ? & ?).
        by rewrite list_lookup_total_insert_ne.
    + intros s' ?. rewrite Hperm. simpl. intros [? ?]%not_elem_of_cons.
      rewrite list_lookup_total_insert_ne by done. by apply Hout_mid.
  - (* invariant, the shard is exhausted *)
    split_and!.
    + by rewrite length_insert.
    + congruence.
    + lia.
    + done.
    + intros d s' Hel. destruct (Hin_mid _ _ Hel) as (? & ? & ? & ?).
      by rewrite list_lookup_total_insert_ne.
    + intros s' ? Hnel. destruct (decide (s' = s)) as [->|].
      * rewrite list_lookup_total_insert_eq by lia.
        assert (¬ p + 1 < vlen s) by (intros ?%Hnext; done). lia.
      * rewrite list_lookup_total_insert_ne by done. by apply Hout_mid.
Qed.

(** *** The seeding loop *)

Local Abbreviation seed_sh := (seed_shard D_in I_in stride).

(** State after the shards below [m] have been looked at. *)
Definition seed_inv (m : nat) (st : merge_state T) : Prop :=
  length (pointer st) = nshard ∧
  length (heap_vals st) = nshard ∧ length (shard_ids st) = nshard ∧
  heap_size st ≤ m ∧
  NoDup (cells st).*2 ∧
  (∀ d s, (d, s) ∈ cells st → s < m ∧ 0 < vlen s ∧ d = dis s 0) ∧
  (∀ s, s < m → s ∉ (cells st).*2 → vlen s = 0) ∧
  (∀ s, s < m → pointer st !!! s = 0).

Lemma seed_shard_inv m st :
  0 < k → m < nshard → seed_inv m st → seed_inv (S m) (seed_sh st m).
Proof.
  destruct st as [hs ptr ids vals]. unfold seed_inv, cells, seed_shard. simpl.
  intros Hk Hm (Hlp & Hlv & Hli & Hhs & Hnd & Hin & Hout & Hptr).
  pose proof (vlen_first m Hk) as Hfirst.
  assert (Hptr' : ∀ s, s < S m → <[m:=0]> ptr !!! s = 0).
  { intros s ?. destruct (decide (s = m)) as [->|].
    - rewrite list_lookup_total_insert_eq; [done|lia].
    - rewrite list_lookup_total_insert_ne by done. apply Hptr. lia. }
  destruct (0 <=? I_in (stride * m))%Z.
  - destruct (heap_push (S hs) vals ids _ m) as [hv' si'] eqn:Hpush.
    destruct (heap_push_spec hs vals ids (D_in (stride * m)) m)
      as (Hl1 & Hl2 & Hperm); [congruence|lia|].
    rewrite Hpush in Hl1, Hl2, Hperm. simpl in *.
    split_and!; [by rewrite length_insert|congruence|congruence|lia| | | |done].
    + rewrite Hperm. simpl. apply NoDup_cons. split; [|done].
      intros ([d s] & -> & Hel)%list_elem_of_fmap.
      apply Hin in Hel. simpl in Hel. lia.
    + intros d s. rewrite Hperm. intros [[= -> ->]|Hel]%elem_of_cons.
      * split_and!; [lia|by apply Hfirst|].
        unfold dis. by rewrite Nat.add_0_r.
      * apply Hin in Hel. split_and!; [lia|apply Hel..].
    + intros s ?. rewrite Hperm. simpl. intros [? ?]%not_elem_of_cons.
      apply Hout; [lia|done].
  - simpl. split_and!; [by rewrite length_insert|done|done|lia|done| | |done].
    + intros d s Hel. apply Hin in Hel. split_and!; [lia|apply Hel..].
    + intros s ? Hnel. destruct (decide (s = m)) as [->|].
      * assert (¬ 0 < vlen m) by (intros ?%Hfirst; done). lia.
      * apply Hout; [lia|done].
Qed.

Lemma seed_fold_inv m st0 :
  0 < k → m ≤ nshard → seed_inv 0 st0 →
  seed_inv m (foldl seed_sh st0 (seq 0 m)).
Proof.
  intros Hk. induction m as [|m IH]; intros Hm H0; [done|].
  rewrite seq_S, foldl_app. simpl. apply seed_shard_inv; [done|lia|].
  apply IH; [lia|done].
Qed.

Definition buf_ok (buf : merge_state T) : Prop :=
  length (pointer buf) = nshard ∧ length (heap_vals buf) = nshard ∧
  length (shard_ids buf) = nshard.

Local Abbreviation seedR := (seed D_in I_in stride nshard).

Lemma seed_seed_inv buf : 0 < k → buf_ok buf → seed_inv nshard (seedR buf).
Proof.
  intros Hk (? & ? & ?). apply seed_fold_inv; [done|done|].
  unfold seed_inv, cells. simpl.
  split_and!; [done|done|done|done|constructor|..].
  - intros d s Hel. by apply elem_of_nil in Hel.
  - intros s ?. lia.
  - intros s ?. lia.
Qed.

Lemma seed_pointer buf :
  0 < k → buf_ok buf → pointer (seedR buf) = replicate nshard 0.
Proof.
  intros Hk Hbuf.
  destruct (seed_seed_inv buf Hk Hbuf) as (Hlp & _ & _ & _ & _ & _ & _ & Hptr).
  apply (list_eq_same_length _ _ nshard); [by rewrite length_replicate|done|].
  intros i x y Hi Hx Hy. apply lookup_replicate in Hy as [-> _].
  apply list_lookup_total_correct in Hx. rewrite Hptr in Hx; done.
Qed.

Lemma seed_row_inv buf : 0 < k → buf_ok buf → row_inv (seedR buf).
Proof.
  intros Hk Hbuf.
  destruct (seed_seed_inv buf Hk Hbuf)
    as (Hlp & Hlv & Hli & Hhs & Hnd & Hin & Hout & Hptr).
  split_and!; [done|congruence|lia|done|..].
  - intros d s Hel. apply Hin in Hel as (? & ? & ?).
    rewrite Hptr by done. done.
  - intros s ? Hnel. rewrite Hptr by done. symmetry. by apply Hout.
Qed.

Lemma seed_remaining buf :
  0 < k → buf_ok buf → remaining (seedR buf) = total_valid.
Proof.
  intros Hk Hbuf. unfold remaining, total_valid.
  rewrite seed_pointer by done.
  apply sum_list_with_ext_in. intros s [_ ?]%elem_of_seq.
  rewrite lookup_total_replicate_2 by done. lia.
Qed.

(** *** The [j] loop *)

(** The candidates emitted by [steps] iterations, in order. *)
Definition emitted (steps : nat) (st : merge_state T) : list (nat * nat) :=
  omap id (merge_origins steps st).

Local Abbreviation loop := (merge_loop D_in I_in stride k translations).

Lemma merge_loop_S steps st :
  loop (S steps) st
  = ((loop steps (step st).1).1, (step st).2 :: (loop steps (step st).1).2).
Proof.
  simpl. destruct (step st) as [st' w]. simpl.
  by destruct (loop steps st') as [st'' ws].
Qed.

Lemma origin_None st : heap_size st = 0 → origin st = None.
Proof. unfold origin. by intros ->. Qed.

Lemma origin_Some st :
  heap_size st ≠ 0 →
  origin st = Some (shard_ids st !!! 0, pointer st !!! (shard_ids st !!! 0)).
Proof. unfold origin. by destruct (Nat.eqb_spec (heap_size st) 0). Qed.

Lemma emitted_S steps st :
  emitted (S steps) st
  = match origin st with
    | Some e => e :: emitted steps (step st).1
    | None => emitted steps (step st).1
    end.
Proof. unfold emitted. simpl. by destruct (origin st). Qed.

Lemma step_origin st :
  0 < k → row_inv st →
  (step st).2 = emit (origin st) ∧ row_inv (step st).1.
Proof.
  intros Hk Hinv. destruct (decide (heap_size st = 0)) as [E|E].
  - by rewrite merge_step_empty, origin_None.
  - rewrite origin_Some by done.
    by destruct (merge_step_nonempty st Hk Hinv E) as (_ & _ & _ & ? & _ & ?).
Qed.

Lemma step_pointer_mono st s :
  0 < k → row_inv st → pointer st !!! s ≤ pointer (step st).1 !!! s.
Proof.
  intros Hk Hinv. destruct (decide (heap_size st = 0)) as [E|E].
  - by rewrite merge_step_empty.
  - destruct (merge_step_nonempty st Hk Hinv E) as (? & _ & _ & _ & -> & _).
    destruct Hinv as (Hlp & _).
    destruct (decide (s = shard_ids st !!! 0)) as [->|].
    + rewrite list_lookup_total_insert_eq; lia.
    + by rewrite list_lookup_total_insert_ne.
Qed.

Lemma merge_loop_emit steps st :
  0 < k → row_inv st →
  (loop steps st).2 = emit <$> merge_origins steps st ∧
  row_inv (loop steps st).1.
Proof.
  intros Hk. revert st. induction steps as [|steps IH]; intros st Hinv; [done|].
  rewrite merge_loop_S. simpl.
  destruct (step_origin st Hk Hinv) as [-> Hinv'].
  destruct (IH _ Hinv') as [-> ?]. done.
Qed.

Lemma loop_pointer_mono steps st s :
  0 < k → row_inv st → pointer st !!! s ≤ pointer (loop steps st).1 !!! s.
Proof.
  intros Hk. revert st. induction steps as [|steps IH]; intros st Hinv; [done|].
  rewrite merge_loop_S. simpl.
  destruct (step_origin st Hk Hinv) as [_ Hinv'].
  etrans; [by apply step_pointer_mono|by apply IH].
Qed.

Lemma emitted_bounds steps st s p :
  0 < k → row_inv st → (s, p) ∈ emitted steps st →
  s < nshard ∧ pointer st !!! s ≤ p < vlen s.
Proof.
  intros Hk. revert st.
  induction steps as [|steps IH]; intros st Hinv Hel.
  { by apply elem_of_nil in Hel. }
  rewrite emitted_S in Hel.
  destruct (step_origin st Hk Hinv) as [_ Hinv'].
  pose proof (step_pointer_mono st s Hk Hinv).
  destruct (decide (heap_size st = 0)) as [E|E].
  - rewrite origin_None in Hel by done.
    destruct (IH _ Hinv' Hel) as (? & ? & ?). lia.
  - rewrite origin_Some in Hel by done.
    destruct (merge_step_nonempty st Hk Hinv E) as (? & ? & _).
    apply elem_of_cons in Hel as [[= -> ->]|Hel]; [lia|].
    destruct (IH _ Hinv' Hel) as (? & ? & ?). lia.
Qed.

Lemma origins_emitted steps st j e :
  merge_origins steps st !! j = Some (Some e) → e ∈ emitted steps st.
Proof.
  intros Hj. unfold emitted. apply list_elem_of_omap.
  exists (Some e). split; [|done]. by eapply list_elem_of_lookup_2.
Qed.

Lemma remaining_empty st :
  row_inv st → heap_size st = 0 → remaining st = 0.
Proof.
  intros (_ & _ & _ & _ & _ & Hout) E. unfold remaining.
  rewrite (sum_list_with_ext_in _ (λ _, 0)).
  - by induction (seq 0 nshard).
  - intros s [_ ?]%elem_of_seq. rewrite Hout; [lia|lia|].
    unfold cells. rewrite E. simpl. apply not_elem_of_nil.
Qed.

Lemma remaining_step st :
  0 < k → row_inv st → heap_size st ≠ 0 →
  remaining (step st).1 + 1 = remaining st.
Proof.
  intros Hk Hinv E.
  destruct (merge_step_nonempty st Hk Hinv E) as (? & ? & _ & _ & Hptr & _).
  destruct Hinv as (Hlp & _).
  unfold remaining. rewrite Hptr.
  apply (sum_seq_decr _ _ _ _ (shard_ids st !!! 0)); [lia|lia|..].
  - rewrite list_lookup_total_insert_eq; lia.
  - intros s ?. by rewrite list_lookup_total_insert_ne.
Qed.

Lemma origins_shape steps st :
  0 < k → row_inv st →
  merge_origins steps st
  = (Some <$> emitted steps st)
    ++ replicate (steps - length (emitted steps st)) None
  ∧ length (emitted steps st) = steps `min` remaining st.
Proof.
  intros Hk. revert st. induction steps as [|steps IH]; intros st Hinv; [done|].
  rewrite emitted_S. cbn [merge_origins].
  destruct (step_origin st Hk Hinv) as [_ Hinv'].
  destruct (IH _ Hinv') as [IH1 IH2].
  destruct (decide (heap_size st = 0)) as [E|E].
  - rewrite origin_None by done. rewrite merge_step_empty in * by done.
    simpl in *. rewrite remaining_empty in * by done.
    rewrite Nat.min_0_r in *. apply nil_length_inv in IH2.
    rewrite IH1, IH2. simpl. by rewrite Nat.sub_0_r.
  - rewrite origin_Some by done. pose proof (remaining_step st Hk Hinv E).
    split; [|cbn [length]; lia]. rewrite IH1 at 1. done.
Qed.

Lemma emitted_cover steps st s p :
  0 < k → row_inv st → s < nshard →
  pointer st !!! s ≤ p < pointer (loop steps st).1 !!! s →
  (s, p) ∈ emitted steps st.
Proof.
  intros Hk. revert st.
  induction steps as [|steps IH]; intros st Hinv Hs Hp; [simpl in Hp; lia|].
  rewrite merge_loop_S in Hp. simpl in Hp. rewrite emitted_S.
  destruct (step_origin st Hk Hinv) as [_ Hinv'].
  destruct (decide (heap_size st = 0)) as [E|E].
  - rewrite origin_None by done. apply IH; [done..|].
    by rewrite merge_step_empty in * by done.
  - rewrite origin_Some by done.
    destruct (merge_step_nonempty st Hk Hinv E) as (? & ? & _ & _ & Hptr & _).
    destruct (decide ((s, p) = (shard_ids st !!! 0,
                                pointer st !!! (shard_ids st !!! 0))))
      as [->|Hne]; [by left|].
    right. apply IH; [done..|]. split; [|lia]. rewrite Hptr.
    destruct Hinv as (Hlp & _).
    destruct (decide (s = shard_ids st !!! 0)) as [->|].
    + rewrite list_lookup_total_insert_eq by lia.
      assert (p ≠ pointer st !!! (shard_ids st !!! 0)) by congruence. lia.
    + rewrite list_lookup_total_insert_ne by done. lia.
Qed.

Lemma emitted_NoDup steps st : 0 < k → row_inv st → NoDup (emitted steps st).
Proof.
  intros Hk. revert st.
  induction steps as [|steps IH]; intros st Hinv; [constructor|].
  rewrite emitted_S.
  destruct (step_origin st Hk Hinv) as [_ Hinv'].
  destruct (decide (heap_size st = 0)) as [E|E].
  - rewrite origin_None by done. by apply IH.
  - rewrite origin_Some by done. apply NoDup_cons. split; [|by apply IH].
    intros Hel. apply emitted_bounds in Hel as (_ & Hp & _); [|done..].
    destruct (merge_step_nonempty st Hk Hinv E) as (? & ? & _ & _ & Hptr & _).
    destruct Hinv as (Hlp & _).
    rewrite Hptr, list_lookup_total_insert_eq in Hp; lia.
Qed.

(** Candidates of one shard leave in the order of its list. *)
Lemma emitted_shard_order steps st j j' s p p' :
  0 < k → row_inv st → j < j' →
  emitted steps st !! j = Some (s, p) →
  emitted steps st !! j' = Some (s, p') → p < p'.
Proof.
  intros Hk. revert st j j'.
  induction steps as [|steps IH]; intros st j j' Hinv Hjj; [done|].
  rewrite emitted_S.
  destruct (step_origin st Hk Hinv) as [_ Hinv'].
  destruct (decide (heap_size st = 0)) as [E|E].
  - rewrite origin_None by done. by apply IH.
  - rewrite origin_Some by done.
    destruct j' as [|j']; [lia|]. destruct j as [|j]; simpl.
    + intros [= <- <-] Hel%list_elem_of_lookup_2.
      apply emitted_bounds in Hel as (_ & Hp & _); [|done..].
      destruct (merge_step_nonempty st Hk Hinv E) as (? & ? & _ & _ & Hptr & _).
      destruct Hinv as (Hlp & _).
      rewrite Hptr, list_lookup_total_insert_eq in Hp; lia.
    + apply IH; [done|lia].
Qed.

(** *** Order of the emitted candidates *)

Context {L : ComparatorLaws C}.

Definition heap_ok_st (st : merge_state T) : Prop :=
  heap_ok (heap_size st) (zip (heap_vals st) (shard_ids st)).

(** Every shard lists its consumable candidates in the order of [C]
    (ascending distance for [CMin]). *)
Definition shards_sorted : Prop :=
  ∀ s p, s < nshard → p + 1 < vlen s → cle (dis s p) (dis s (p + 1)).

(** The order in which candidates [(s, p)] are compared: by their distance. *)
Definition cand_le (e e' : nat * nat) : Prop :=
  cle (dis e.1 e.2) (dis e'.1 e'.2).

Lemma sorted_prefix s p p' :
  shards_sorted → s < nshard → p ≤ p' → p' < vlen s →
  cle (dis s p) (dis s p').
Proof.
  intros Hsorted Hs Hpp. replace p' with (p + (p' - p)) by lia.
  induction (p' - p) as [|d IH]; intros Hp'.
  - rewrite Nat.add_0_r. apply cle_refl.
  - eapply cle_trans; [apply IH; lia|].
    replace (p + S d) with (p + d + 1) by lia. apply Hsorted; [done|lia].
Qed.

Lemma step_heap_ok st :
  row_inv st → heap_ok_st st → heap_ok_st (step st).1.
Proof.
  destruct st as [hs ptr ids vals]. unfold heap_ok_st, row_inv. simpl.
  intros (Hlp & Hlen & Hhs & _) Hok.
  unfold merge_step. simpl. destruct (Nat.eqb_spec hs 0); [done|].
  pose proof (heap_pop_ok hs vals ids Hlen ltac:(lia) Hok) as Hpop.
  destruct (heap_pop_spec hs vals ids) as (Hl1 & Hl2 & _); [done|lia|].
  destruct (heap_pop hs vals ids) as [hv si]. simpl in *.
  destruct (_ && _); [|done].
  match goal with |- context [heap_push _ _ _ ?v ?s] =>
    pose proof (heap_push_ok (hs - 1) hv si v s) as Hpush;
    destruct (heap_push (S (hs - 1)) hv si v s) as [hv' si']
  end.
  simpl in *. apply Hpush; [congruence|lia|done].
Qed.

Lemma seed_fold_ok m st0 :
  0 < k → m ≤ nshard → seed_inv 0 st0 → heap_ok_st st0 →
  heap_ok_st (foldl seed_sh st0 (seq 0 m)).
Proof.
  intros Hk. induction m as [|m IH]; intros Hm H0 Hok; [done|].
  rewrite seq_S, foldl_app. simpl.
  pose proof (seed_fold_inv m st0 Hk ltac:(lia) H0) as Hinv.
  specialize (IH ltac:(lia) H0 Hok).
  destruct (foldl seed_sh st0 (seq 0 m)) as [hs ptr ids vals].
  unfold heap_ok_st, seed_inv, seed_shard in *. simpl in *.
  destruct Hinv as (Hlp & Hlv & Hli & Hhs & _).
  destruct (0 <=? I_in (stride * m))%Z; [|done].
  match goal with |- context [heap_push _ _ _ ?v ?s] =>
    pose proof (heap_push_ok hs vals ids v s) as Hpush;
    destruct (heap_push (S hs) vals ids v s) as [hv' si']
  end.
  simpl in *. apply Hpush; [congruence|lia|done].
Qed.

Lemma seed_heap_ok buf : 0 < k → buf_ok buf → heap_ok_st (seedR buf).
Proof.
  intros Hk Hbuf. destruct (Hbuf) as (? & ? & ?).
  apply seed_fold_ok; [done|done| |].
  - unfold seed_inv, cells. simpl.
    split_and!; [done|done|done|done|constructor|..].
    + intros d s Hel. by apply elem_of_nil in Hel.
    + intros s ?. lia.
    + intros s ?. lia.
  - intros j ?. simpl in *. lia.
Qed.

(** The popped candidate comes before every candidate still to come. *)
Lemma top_min_remaining st s p :
  0 < k → shards_sorted → row_inv st → heap_ok_st st → heap_size st ≠ 0 →
  s < nshard → pointer st !!! s ≤ p < vlen s →
  cle (dis (shard_ids st !!! 0) (pointer st !!! (shard_ids st !!! 0)))
      (dis s p).
Proof.
  intros Hk Hsorted Hinv Hok E Hs Hp.
  destruct (merge_step_nonempty st Hk Hinv E) as (_ & _ & <- & _).
  destruct Hinv as (_ & Hlen & Hhs & _ & Hin & Hout).
  destruct (decide (s ∈ (cells st).*2)) as [Hel|Hnel].
  2:{ specialize (Hout s Hs Hnel). lia. }
  apply list_elem_of_fmap in Hel as ([d s'] & -> & Hel). simpl in *.
  destruct (Hin _ _ Hel) as (_ & _ & ->).
  apply (cle_trans _ (dis s' (pointer st !!! s')));
    [|apply sorted_prefix; [done|done|lia|lia]].
  unfold cells in Hel. apply list_elem_of_lookup in Hel as [i Hi].
  apply lookup_take_Some in Hi as [Hi ?].
  pose proof (heap_top_min (heap_size st) _ (i + 1) Hok ltac:(lia)) as Hmin.
  rewrite rd1_zip in Hmin by done. unfold rd1 in Hmin.
  replace (i + 1 - 1) with i in Hmin by lia.
  by rewrite (list_lookup_total_correct _ _ _ Hi) in Hmin.
Qed.

Lemma emitted_sorted steps st :
  0 < k → shards_sorted → row_inv st → heap_ok_st st →
  StronglySorted cand_le (emitted steps st) ∧
  (∀ e s p, e ∈ emitted steps st → s < nshard →
     pointer (loop steps st).1 !!! s ≤ p < vlen s → cand_le e (s, p)).
Proof.
  intros Hk Hsorted. revert st.
  induction steps as [|steps IH]; intros st Hinv Hok.
  { split; [constructor|]. intros e s p Hel. by apply elem_of_nil in Hel. }
  rewrite emitted_S, merge_loop_S. simpl.
  destruct (step_origin st Hk Hinv) as [_ Hinv'].
  pose proof (step_heap_ok st Hinv Hok) as Hok'.
  destruct (IH _ Hinv' Hok') as [IH1 IH2].
  destruct (decide (heap_size st = 0)) as [E|E].
  { by rewrite origin_None by done. }
  rewrite origin_Some by done. split.
  - constructor; [done|]. apply Forall_forall. intros [s p] Hel.
    apply emitted_bounds in Hel as (? & ? & ?); [|done..].
    pose proof (step_pointer_mono st s Hk Hinv).
    apply top_min_remaining; [done..|simpl; lia].
  - intros e s p [->|Hel]%elem_of_cons ? ?; [|by apply IH2].
    pose proof (loop_pointer_mono (S steps) st s Hk Hinv) as Hmono.
    rewrite merge_loop_S in Hmono. simpl in Hmono.
    apply top_min_remaining; [done..|simpl; lia].
Qed.
End RowSpec.

(** ** The scratch buffers keep their size *)

Section RowLengths.
Context {T : Type} {C : Comparator T}.
Variables (D_in : nat → T) (I_in : nat → Z).
Variables (stride k nshard : nat) (translations : list Z).

Local Abbreviation step := (merge_step D_in I_in stride k translations).
Local Abbreviation loop := (merge_loop D_in I_in stride k translations).

Lemma step_buf_ok st : buf_ok nshard st → buf_ok nshard (step st).1.
Proof.
  destruct st as [hs ptr ids vals]. unfold buf_ok, merge_step. simpl.
  intros (Hlp & Hlv & Hli). destruct (hs =? 0); [done|].
  destruct (heap_pop_cells hs vals ids) as (Hl1 & Hl2 & _); [congruence|].
  destruct (heap_pop hs vals ids) as [hv si]. simpl in *.
  destruct (_ && _).
  - match goal with |- context [heap_push ?h _ _ ?v ?s] =>
      destruct (heap_push_cells h hv si v s) as (Hl1' & Hl2' & _);
        [congruence|];
      destruct (heap_push h hv si v s) as [hv' si']
    end.
    simpl in *. rewrite length_insert. split_and!; congruence.
  - simpl. rewrite length_insert. split_and!; congruence.
Qed.

Lemma loop_buf_ok steps st :
  buf_ok nshard st → buf_ok nshard (loop steps st).1.
Proof.
  revert st. induction steps as [|steps IH]; intros st Hbuf; [done|].
  rewrite merge_loop_S. simpl. by apply IH, step_buf_ok.
Qed.

Lemma merge_row_buf_ok buf :
  0 < k → buf_ok nshard buf →
  buf_ok nshard (merge_row D_in I_in stride k nshard translations buf).1.
Proof.
  intros Hk Hbuf. unfold merge_row. apply loop_buf_ok.
  destruct (seed_seed_inv D_in I_in stride k nshard buf Hk Hbuf)
    as (? & ? & ? & _).
  done.
Qed.
End RowLengths.

(** ** What a row's output depends on

    Two runs of a row agree as soon as their inputs agree on the consumable
    prefix of every shard; the scratch buffers they start from do not
    matter. *)

Section RowSim.
Context {T : Type} {C : Comparator T}.
Variables (D1 : nat → T) (I1 : nat → Z) (D2 : nat → T) (I2 : nat → Z).
Variables (stride k nshard : nat) (translations : list Z).

Definition inputs_agree : Prop :=
  ∀ s, s < nshard →
    vlen I1 stride k s = vlen I2 stride k s ∧
    ∀ p, p < vlen I1 stride k s →
      dis D1 stride s p = dis D2 stride s p ∧
      lab I1 stride s p = lab I2 stride s p.

(** Same heap size, same pointers, same live cells. *)
Definition st_equiv (st1 st2 : merge_state T) : Prop :=
  heap_size st1 = heap_size st2 ∧ pointer st1 = pointer st2 ∧
  cells st1 = cells st2 ∧
  length (heap_vals st2) = length (shard_ids st2) ∧
  heap_size st2 ≤ length (heap_vals st2).

Local Abbreviation step1 := (merge_step D1 I1 stride k translations).
Local Abbreviation step2 := (merge_step D2 I2 stride k translations).
Local Abbreviation inv1 := (row_inv D1 I1 stride k nshard).

Lemma cells_head (st : merge_state T) :
  1 ≤ heap_size st → length (heap_vals st) = length (shard_ids st) →
  cells st !!! 0 = (heap_vals st !!! 0, shard_ids st !!! 0).
Proof.
  intros ? Hlen. unfold cells. rewrite lookup_total_take_lt by lia.
  exact (rd1_zip (heap_vals st) (shard_ids st) 1 Hlen).
Qed.

Lemma step_sim st1 st2 :
  0 < k → inputs_agree → inv1 st1 → st_equiv st1 st2 →
  (step1 st1).2 = (step2 st2).2 ∧
  origin st1 = origin st2 ∧
  st_equiv (step1 st1).1 (step2 st2).1.
Proof.
  intros Hk Hagree Hinv Heq.
  destruct (decide (heap_size st1 = 0)) as [E|E].
  { destruct Heq as (Ehs & ? & ? & ? & ?).
    rewrite !merge_step_empty, !origin_None by congruence. done. }
  destruct (merge_step_nonempty D1 I1 stride k nshard translations st1
              Hk Hinv E) as (Hs & Hp & _).
  pose proof Hinv as (_ & Hlen1 & Hhs1 & _).
  destruct Heq as (Ehs & Eptr & Ecells & Hlen2 & Hhs2).
  assert (Ehead : (heap_vals st1 !!! 0, shard_ids st1 !!! 0)
                  = (heap_vals st2 !!! 0, shard_ids st2 !!! 0)).
  { rewrite <- !cells_head by (done || lia). by rewrite Ecells. }
  injection Ehead as Ev Ei.
  rewrite !origin_Some by congruence. rewrite <- Ei, <- Eptr.
  split; [|split; [done|]];
    destruct st1 as [hs ptr ids1 vals1], st2 as [hs2 ptr2 ids2 vals2];
    unfold cells in *; simpl in *; subst hs2 ptr2;
    unfold merge_step; simpl;
    destruct (Nat.eqb_spec hs 0) as [|_]; try done;
    rewrite <- Ei, <- Ev;
    set (s := ids1 !!! 0) in *; set (p := ptr !!! s) in *;
    destruct (Hagree s Hs) as [Evl Hent];
    pose proof (vlen_next I1 stride k s p Hp) as Hn1;
    pose proof (vlen_next I2 stride k s p ltac:(lia)) as Hn2;
    rewrite <- Evl in Hn2;
    pose proof (heap_pop_local hs vals1 vals2 ids1 ids2 Hlen1 Hlen2
                  ltac:(lia) Ecells) as Hpop;
    destruct (heap_pop_cells hs vals1 ids1 Hlen1) as (Hp1 & Hp1' & _);
    destruct (heap_pop_cells hs vals2 ids2 Hlen2) as (Hp2 & Hp2' & _);
    destruct (heap_pop hs vals1 ids1) as [hv1 si1];
    destruct (heap_pop hs vals2 ids2) as [hv2 si2]; simpl in *;
    destruct ((p + 1 <? k) && (0 <=? I1 (stride * s + (p + 1)))%Z) eqn:Ec1;
    destruct ((p + 1 <? k) && (0 <=? I2 (stride * s + (p + 1)))%Z) eqn:Ec2;
    try (assert (false = true)
           by (first [by apply Hn2, Hn1 | by apply Hn1, Hn2]); discriminate).
  - (* output, a new head is pushed *)
    destruct (heap_push _ hv1 si1 _ s), (heap_push _ hv2 si2 _ s). simpl.
    destruct (Hent p Hp) as [_ El]. unfold lab in El. by rewrite El.
  - simpl. destruct (Hent p Hp) as [_ El]. unfold lab in El. by rewrite El.
  - (* states, a new head is pushed *)
    destruct (Hent (p + 1)) as [Ed _]; [by apply Hn1|]. unfold dis in Ed.
    rewrite <- Ed.
    pose proof (heap_push_local (hs - 1) hv1 hv2 si1 si2
      (D1 (stride * s + (p + 1))) s ltac:(congruence) ltac:(congruence)
      ltac:(lia) ltac:(lia) Hpop) as Hpush.
    destruct (heap_push_cells (S (hs - 1)) hv2 si2
      (D1 (stride * s + (p + 1))) s) as (Hq & Hq' & _); [congruence|].
    destruct (heap_push _ hv1 si1 _ s), (heap_push _ hv2 si2 _ s).
    unfold st_equiv, cells. simpl in *.
    split_and!; [done|done|done|congruence|lia].
  - unfold st_equiv, cells. simpl.
    split_and!; [done|done|done|congruence|lia].
Qed.

Lemma loop_sim steps st1 st2 :
  0 < k → inputs_agree → inv1 st1 → st_equiv st1 st2 →
  (merge_loop D1 I1 stride k translations steps st1).2
  = (merge_loop D2 I2 stride k translations steps st2).2 ∧
  merge_origins D1 I1 stride k translations steps st1
  = merge_origins D2 I2 stride k translations steps st2.
Proof.
  intros Hk Hagree. revert st1 st2.
  induction steps as [|steps IH]; intros st1 st2 Hinv Heq; [done|].
  rewrite !merge_loop_S. simpl.
  destruct (step_sim st1 st2 Hk Hagree Hinv Heq) as (-> & -> & Heq').
  destruct (step_origin D1 I1 stride k nshard translations st1 Hk Hinv)
    as [_ Hinv'].
  destruct (IH _ _ Hinv' Heq') as [-> ->]. done.
Qed.

Lemma seed_fold_sim m st1 st2 :
  0 < k → inputs_agree → m ≤ nshard →
  seed_inv D1 I1 stride k nshard 0 st1 → seed_inv D2 I2 stride k nshard 0 st2 →
  heap_size st1 = heap_size st2 → cells st1 = cells st2 →
  heap_size (foldl (seed_shard D1 I1 stride) st1 (seq 0 m))
  = heap_size (foldl (seed_shard D2 I2 stride) st2 (seq 0 m)) ∧
  cells (foldl (seed_shard D1 I1 stride) st1 (seq 0 m))
  = cells (foldl (seed_shard D2 I2 stride) st2 (seq 0 m)).
Proof.
  intros Hk Hagree. induction m as [|m IH]; intros Hm H1 H2 Ehs Ec; [done|].
  rewrite !seq_S, !foldl_app. simpl.
  pose proof (seed_fold_inv D1 I1 stride k nshard m st1 Hk ltac:(lia) H1) as Hi1.
  pose proof (seed_fold_inv D2 I2 stride k nshard m st2 Hk ltac:(lia) H2) as Hi2.
  specialize (IH ltac:(lia) H1 H2 Ehs Ec).
  destruct (foldl _ st1 (seq 0 m)) as [hs ptr1 ids1 vals1].
  destruct (foldl _ st2 (seq 0 m)) as [hs2 ptr2 ids2 vals2].
  unfold seed_inv, cells, seed_shard in *. simpl in *.
  destruct IH as [<- Ecells].
  destruct Hi1 as (_ & Hlv1 & Hli1 & Hhs1 & _).
  destruct Hi2 as (_ & Hlv2 & Hli2 & _).
  destruct (Hagree m ltac:(lia)) as [Evl Hent].
  pose proof (vlen_first I1 stride k m Hk) as Hf1.
  pose proof (vlen_first I2 stride k m Hk) as Hf2. rewrite <- Evl in Hf2.
  destruct (0 <=? I1 (stride * m))%Z eqn:Ec1;
    destruct (0 <=? I2 (stride * m))%Z eqn:Ec2;
    try (assert (false = true)
           by (first [by apply Hf2, Hf1 | by apply Hf1, Hf2]); discriminate);
    [|done].
  destruct (Hent 0) as [Ed _]; [by apply Hf1|]. unfold dis in Ed.
  rewrite Nat.add_0_r in Ed. rewrite <- Ed.
  pose proof (heap_push_local hs vals1 vals2 ids1 ids2
    (D1 (stride * m)) m ltac:(congruence) ltac:(congruence)
    ltac:(lia) ltac:(lia) Ecells) as Hpush.
  by destruct (heap_push _ vals1 ids1 _ m), (heap_push _ vals2 ids2 _ m).
Qed.

Lemma seed_sim buf1 buf2 :
  0 < k → inputs_agree → buf_ok nshard buf1 → buf_ok nshard buf2 →
  st_equiv (seed D1 I1 stride nshard buf1) (seed D2 I2 stride nshard buf2).
Proof.
  intros Hk Hagree Hb1 Hb2.
  assert (H0 : ∀ (D : nat → T) I buf, buf_ok nshard buf →
    seed_inv D I stride k nshard 0
      (MergeState 0 (pointer buf) (shard_ids buf) (heap_vals buf))).
  { intros D I buf (? & ? & ?). unfold seed_inv, cells. simpl.
    split_and!; [done|done|done|done|constructor|..].
    - intros d s Hel. by apply elem_of_nil in Hel.
    - intros s ?. lia.
    - intros s ?. lia. }
  destruct (seed_fold_sim nshard _ _ Hk Hagree ltac:(done)
              (H0 D1 I1 _ Hb1) (H0 D2 I2 _ Hb2) eq_refl eq_refl) as [Ehs Ec].
  destruct (seed_seed_inv D2 I2 stride k nshard buf2 Hk Hb2)
    as (_ & Hlv & Hli & Hhs & _).
  unfold st_equiv. split_and!; [done| |done|congruence|].
  - by rewrite (seed_pointer D1 I1 stride k nshard buf1 Hk Hb1),
       (seed_pointer D2 I2 stride k nshard buf2 Hk Hb2).
  - by rewrite Hlv.
Qed.

(** A row's writes are the same from any two scratch buffers and on any
    two inputs that agree on the consumable prefixes. *)
Lemma merge_row_sim buf1 buf2 :
  0 < k → inputs_agree → buf_ok nshard buf1 → buf_ok nshard buf2 →
  (merge_row D1 I1 stride k nshard translations buf1).2
  = (merge_row D2 I2 stride k nshard translations buf2).2 ∧
  merge_origins D1 I1 stride k translations k (seed D1 I1 stride nshard buf1)
  = merge_origins D2 I2 stride k translations k (seed D2 I2 stride nshard buf2).
Proof.
  intros Hk Hagree Hb1 Hb2. unfold merge_row.
  apply loop_sim; [done|done| |by apply seed_sim].
  by apply seed_row_inv.
Qed.
End RowSim.

(** ** Writing rows of [k] slots into an array *)

Section SliceWrites.
Context {A : Type} `{Inhabited A}.
Variables (k : nat) (f : nat → list A).
Hypothesis f_length : ∀ r, length (f r) = k.

(** Row [r] is written at offset [r * k]. *)
Definition write_slices (rows : list nat) (d : list A) : list A :=
  foldl (λ d r, list_inserts (r * k) (f r) d) d rows.

Lemma slot_lt i j m : i < m → j < k → i * k + j < m * k.
Proof.
  intros ? ?. pose proof (Nat.mul_le_mono_r (S i) m k ltac:(lia)). lia.
Qed.

Lemma write_slices_length rows d : length (write_slices rows d) = length d.
Proof.
  revert d. induction rows as [|r rows IH]; intros d; [done|].
  unfold write_slices in *. simpl. by rewrite IH, length_inserts.
Qed.

Lemma write_slices_lookup rows d i j :
  j < k → i * k + j < length d →
  write_slices rows d !!! (i * k + j)
  = if decide (i ∈ rows) then f i !!! j else d !!! (i * k + j).
Proof.
  intros Hj. revert d. induction rows as [|r rows IH]; intros d Hl.
  { rewrite decide_False; [done|]. apply not_elem_of_nil. }
  change (write_slices (r :: rows) d)
    with (write_slices rows (list_inserts (r * k) (f r) d)).
  rewrite IH by (by rewrite length_inserts).
  destruct (decide (i ∈ rows)) as [Hin|Hnin].
  { rewrite decide_True; [done|]. by right. }
  destruct (decide (i = r)) as [->|Hne].
  - rewrite decide_True by (by left).
    rewrite list_lookup_total_inserts by (rewrite ?f_length; lia).
    f_equal. lia.
  - rewrite decide_False by (rewrite not_elem_of_cons; done).
    destruct (decide (i < r)).
    + pose proof (slot_lt i j r ltac:(lia) Hj).
      by rewrite list_lookup_total_inserts_lt by lia.
    + pose proof (Nat.mul_le_mono_r (S r) i k ltac:(lia)).
      by rewrite list_lookup_total_inserts_ge by (rewrite ?f_length; lia).
Qed.

(** The result only depends on which rows are written, not on their order. *)
Lemma write_slices_ext rows1 rows2 d :
  0 < k → (∀ i, i ∈ rows1 ↔ i ∈ rows2) →
  write_slices rows1 d = write_slices rows2 d.
Proof.
  intros Hk Hrows.
  apply (list_eq_same_length _ _ (length d));
    [apply write_slices_length..|].
  intros x a b Hx Ha%list_lookup_total_correct Hb%list_lookup_total_correct.
  assert (∃ i j, x = i * k + j ∧ j < k) as (i & j & -> & Hj).
  { exists (x / k), (x `mod` k). split.
    - rewrite Nat.mul_comm. apply Nat.div_mod_eq.
    - apply Nat.mod_upper_bound. lia. }
  rewrite write_slices_lookup in Ha, Hb by done.
  destruct (decide (i ∈ rows1)) as [Hin|Hnin].
  - rewrite decide_True in Hb by (by apply Hrows). congruence.
  - rewrite decide_False in Hb by (by rewrite <- Hrows). congruence.
Qed.
End SliceWrites.

(** ** All rows: what [merge_tables] leaves in the output arrays *)

Section TableSpec.
Context {T : Type} {F : FloatOps T} {C : Comparator T}.
Variables (n k nshard : nat).
Variables (all_distances : list T) (all_labels : list Z).
Variable (translations : list Z).

(** The row pointers [D_in = all_distances + i * k] and
    [I_in = all_labels + i * k]. *)
Definition row_D (i : nat) : nat → T := λ off, all_distances !!! (i * k + off).
Definition row_I (i : nat) : nat → Z := λ off, all_labels !!! (i * k + off).

(** The pairs [(D[j], I[j])] that row [i] writes. *)
Definition row_out (i : nat) : list (T * Z) :=
  (merge_row_at n k nshard all_distances all_labels translations i
     (new_buf nshard)).2.

(** For every slot of row [i], the shard and position it was popped from. *)
Definition row_origins (i : nat) : list (option (nat * nat)) :=
  merge_origins (row_D i) (row_I i) (n * k) k translations k
    (seed (row_D i) (row_I i) (n * k) nshard (new_buf nshard)).

(** The candidates that row [i] emits, in order. *)
Definition row_emitted (i : nat) : list (nat * nat) := omap id (row_origins i).

(** All the writes of the rows [rows], in that order. *)
Definition write_rows (rows : list nat) (out : list T * list Z)
    : list T * list Z :=
  foldl (λ o i, write_row k i (row_out i) o) out rows.

Lemma new_buf_ok : buf_ok nshard (new_buf nshard).
Proof. unfold buf_ok, new_buf. simpl. by rewrite !length_replicate. Qed.

Lemma inputs_agree_refl (D : nat → T) (I : nat → Z) stride :
  inputs_agree D I D I stride k nshard.
Proof. by intros s ?. Qed.

Lemma merge_row_at_out i buf :
  0 < k → buf_ok nshard buf →
  (merge_row_at n k nshard all_distances all_labels translations i buf).2
  = row_out i.
Proof.
  intros Hk Hbuf. unfold row_out, merge_row_at.
  apply merge_row_sim;
    [done|apply inputs_agree_refl|done|apply new_buf_ok].
Qed.

Lemma merge_loop_length (D : nat → T) (I : nat → Z) stride steps st :
  length (merge_loop D I stride k translations steps st).2 = steps.
Proof.
  revert st. induction steps as [|steps IH]; intros st; [done|].
  rewrite merge_loop_S. simpl. by rewrite IH.
Qed.

Lemma row_out_length i : length (row_out i) = k.
Proof. apply merge_loop_length. Qed.

Lemma run_thread_write_rows rows out :
  0 < k →
  run_thread n k nshard all_distances all_labels translations rows out
  = write_rows rows out.
Proof.
  intros Hk. unfold run_thread, write_rows.
  assert (Hgen : ∀ buf, buf_ok nshard buf →
    (foldl (λ acc i,
       let '(buf', ws) :=
         merge_row_at n k nshard all_distances all_labels translations i acc.1
       in (buf', write_row k i ws acc.2)) (buf, out) rows).2
    = foldl (λ o i, write_row k i (row_out i) o) out rows);
    [|apply Hgen, new_buf_ok].
  revert out. induction rows as [|i rows IH]; intros out buf Hbuf; [done|].
  simpl. pose proof (merge_row_at_out i buf Hk Hbuf) as Hout.
  pose proof (merge_row_buf_ok (row_D i) (row_I i) (n * k) k nshard
                translations buf Hk Hbuf) as Hbuf'.
  unfold merge_row_at in *.
  destruct (merge_row _ _ _ _ _ _ buf) as [buf' ws]. simpl in *.
  rewrite Hout. by apply IH.
Qed.

Lemma write_rows_app rows1 rows2 out :
  write_rows (rows1 ++ rows2) out = write_rows rows2 (write_rows rows1 out).
Proof. apply foldl_app. Qed.

Lemma merge_tables_on_write_rows threads distances labels :
  0 < k →
  merge_tables_on threads n k nshard distances labels all_distances all_labels
    translations
  = write_rows (concat threads) (distances, labels).
Proof.
  intros Hk. unfold merge_tables_on.
  destruct (Nat.eqb_spec k 0) as [|_]; [lia|].
  generalize (distances, labels). induction threads as [|rows threads IH];
    intros out; [done|].
  simpl. by rewrite IH, write_rows_app, run_thread_write_rows.
Qed.

Lemma write_row_length i (ws : list (T * Z)) (out : list T * list Z) :
  length (write_row k i ws out).1 = length out.1 ∧
  length (write_row k i ws out).2 = length out.2.
Proof. unfold write_row. simpl. by rewrite !length_inserts. Qed.

Lemma write_rows_length rows (out : list T * list Z) :
  length (write_rows rows out).1 = length out.1 ∧
  length (write_rows rows out).2 = length out.2.
Proof.
  revert out. induction rows as [|i rows IH]; intros out; [done|].
  unfold write_rows in *. simpl.
  destruct (IH (write_row k i (row_out i) out)) as [-> ->].
  apply write_row_length.
Qed.

Lemma write_rows_slices rows (out : list T * list Z) :
  write_rows rows out
  = (write_slices k (λ r, (row_out r).*1) rows out.1,
     write_slices k (λ r, (row_out r).*2) rows out.2).
Proof.
  revert out. induction rows as [|r rows IH]; intros [d l]; [done|].
  unfold write_rows, write_slices in *. simpl. by rewrite IH.
Qed.

(** The slot [(i, j)] of the outputs after the rows [rows] were written. *)
Lemma write_rows_lookup rows i j (out : list T * list Z) :
  j < k → i ∈ rows →
  (i * k + j < length out.1 →
   (write_rows rows out).1 !!! (i * k + j) = (row_out i !!! j).1) ∧
  (i * k + j < length out.2 →
   (write_rows rows out).2 !!! (i * k + j) = (row_out i !!! j).2).
Proof.
  intros Hj Hi. rewrite write_rows_slices. simpl.
  pose proof (row_out_length i).
  split; intros Hl.
  - rewrite write_slices_lookup, decide_True; [|done| |done|done].
    + by rewrite (list_lookup_total_fmap fst) by lia.
    + intros r. by rewrite length_fmap, row_out_length.
  - rewrite write_slices_lookup, decide_True; [|done| |done|done].
    + by rewrite (list_lookup_total_fmap snd) by lia.
    + intros r. by rewrite length_fmap, row_out_length.
Qed.

(** The outputs do not depend on how the rows are distributed over the
    threads, nor on the order in which a thread takes its rows. *)
Lemma merge_tables_on_ext threads1 threads2 distances labels :
  (∀ i, i ∈ concat threads1 ↔ i ∈ concat threads2) →
  merge_tables_on threads1 n k nshard distances labels all_distances
    all_labels translations
  = merge_tables_on threads2 n k nshard distances labels all_distances
      all_labels translations.
Proof.
  intros Hrows. destruct (decide (k = 0)) as [->|].
  { done. }
  rewrite !merge_tables_on_write_rows, !write_rows_slices by lia. simpl.
  f_equal; apply write_slices_ext; try done; try lia;
    intros r; by rewrite length_fmap, row_out_length.
Qed.

Lemma merge_tables_lookup i j distances labels :
  i < n → j < k → length distances = n * k → length labels = n * k →
  ((merge_tables n k nshard distances labels all_distances all_labels
      translations).1 !!! (i * k + j),
   (merge_tables n k nshard distances labels all_distances all_labels
      translations).2 !!! (i * k + j))
  = row_out i !!! j.
Proof.
  intros Hi Hj Hl1 Hl2. unfold merge_tables.
  rewrite merge_tables_on_write_rows by lia. simpl. rewrite app_nil_r.
  pose proof (slot_lt k i j n Hi Hj).
  destruct (write_rows_lookup (seq 0 n) i j (distances, labels) Hj)
    as [H1 H2].
  { apply elem_of_seq. lia. }
  simpl in *. rewrite H1, H2 by lia. by destruct (row_out i !!! j).
Qed.

(** *** The rows of [merge_tables] *)

(** Entry [p] of shard [s] for query [i], in the stacked inputs. *)
Definition cand_D (i s p : nat) : T :=
  all_distances !!! (i * k + (n * k * s + p)).
Definition cand_I (i s p : nat) : Z :=
  all_labels !!! (i * k + (n * k * s + p)).

(** Number of candidates of shard [s] that the merge can draw from for
    query [i]: the entries before the first negative label, among the
    first [k]. *)
Definition valid_len (i s : nat) : nat := vlen (row_I i) (n * k) k s.

(** Total number of candidates the merge can draw from for query [i]. *)
Definition row_total (i : nat) : nat := total_valid (row_I i) (n * k) k nshard.

(** The order on the candidates of query [i]: by distance. *)
Definition row_le (i : nat) (e e' : nat * nat) : Prop :=
  cle (cand_D i e.1 e.2) (cand_D i e'.1 e'.2).

(** Every shard lists its consumable candidates for query [i] in order. *)
Definition row_sorted (i : nat) : Prop :=
  ∀ s p, s < nshard → p + 1 < valid_len i s →
    cle (cand_D i s p) (cand_D i s (p + 1)).

Local Abbreviation seed0 i :=
  (seed (row_D i) (row_I i) (n * k) nshard (new_buf nshard)).

Lemma valid_len_lt i s q :
  q < valid_len i s ↔ q < k ∧ ∀ r, r ≤ q → (0 ≤ cand_I i s r)%Z.
Proof. apply vlen_lt. Qed.

Lemma seed0_inv i :
  0 < k → row_inv (row_D i) (row_I i) (n * k) k nshard (seed0 i).
Proof. intros. apply seed_row_inv; [done|apply new_buf_ok]. Qed.

Lemma row_out_emit i :
  0 < k →
  row_out i = emit (row_D i) (row_I i) (n * k) translations <$> row_origins i.
Proof.
  intros Hk.
  exact (proj1 (merge_loop_emit (row_D i) (row_I i) (n * k) k nshard
                  translations k (seed0 i) Hk (seed0_inv i Hk))).
Qed.

Lemma row_origins_shape i :
  0 < k →
  row_origins i
  = (Some <$> row_emitted i) ++ replicate (k - length (row_emitted i)) None
  ∧ length (row_emitted i) = k `min` row_total i.
Proof.
  intros Hk. unfold row_total.
  rewrite <- (seed_remaining (row_D i) (row_I i) (n * k) k nshard
               (new_buf nshard) Hk new_buf_ok).
  apply origins_shape; [done|by apply seed0_inv].
Qed.

Lemma merge_origins_length (D : nat → T) (I : nat → Z) stride steps st :
  length (merge_origins D I stride k translations steps st) = steps.
Proof.
  revert st. induction steps as [|m IH]; intros st; [done|].
  simpl. by rewrite IH.
Qed.

Lemma row_origins_length i : length (row_origins i) = k.
Proof. apply merge_origins_length. Qed.

Lemma row_emitted_bounds i s p :
  0 < k → (s, p) ∈ row_emitted i → s < nshard ∧ p < valid_len i s.
Proof.
  intros Hk Hel.
  apply (emitted_bounds (row_D i) (row_I i) (n * k) k nshard translations)
    in Hel as (? & ? & ?); [done|done|by apply seed0_inv].
Qed.

Lemma row_emitted_NoDup i : 0 < k → NoDup (row_emitted i).
Proof.
  intros Hk.
  apply (emitted_NoDup (row_D i) (row_I i) (n * k) k nshard translations);
    [done|by apply seed0_inv].
Qed.

Lemma row_emitted_shard_order i j j' s p p' :
  0 < k → j < j' →
  row_emitted i !! j = Some (s, p) → row_emitted i !! j' = Some (s, p') →
  p < p'.
Proof.
  intros Hk. apply (emitted_shard_order (row_D i) (row_I i) (n * k) k nshard
    translations); [done|by apply seed0_inv].
Qed.

Lemma row_emitted_sorted {L : ComparatorLaws C} i :
  0 < k → row_sorted i →
  StronglySorted (row_le i) (row_emitted i) ∧
  (∀ e s p, e ∈ row_emitted i → s < nshard → p < valid_len i s →
     (s, p) ∉ row_emitted i → row_le i e (s, p)).
Proof.
  intros Hk Hsorted.
  destruct (emitted_sorted (row_D i) (row_I i) (n * k) k nshard translations
    k (seed0 i) Hk Hsorted (seed0_inv i Hk)) as [H1 H2].
  { apply (seed_heap_ok (row_D i) (row_I i) (n * k) k nshard);
      [done|apply new_buf_ok]. }
  split; [done|]. intros e s p He Hs Hp Hnel. apply H2; [done|done|].
  split; [|done].
  destruct (decide (pointer (merge_loop (row_D i) (row_I i) (n * k) k
    translations k (seed0 i)).1 !!! s ≤ p)) as [|Hlt]; [done|].
  exfalso. apply Hnel.
  apply (emitted_cover (row_D i) (row_I i) (n * k) k nshard translations);
    [done|by apply seed0_inv|done|].
  split; [|lia].
  rewrite (seed_pointer (row_D i) (row_I i) (n * k) k nshard _ Hk new_buf_ok),
    lookup_total_replicate_2 by done.
  lia.
Qed.
End TableSpec.

(** * The claims *)

(** ** Concrete inputs *)

(** [CMin] on the rationals is a strict weak order. *)
Lemma CMin_Q_laws : ComparatorLaws (CMin (T := Q)).
Proof.
  split; simpl; unfold Qltb; intros a b.
  - rewrite !negb_true_iff, negb_false_iff. intros Hba.
    apply Qle_bool_iff. apply Qlt_le_weak, Qnot_le_lt.
    intros Hle%Qle_bool_iff. congruence.
  - intros c. rewrite !negb_false_iff, !Qle_bool_iff.
    intros ? ?. by eapply Qle_trans.
Qed.

(** The scenario of two shards of sizes 3 and 2, one query, [k = 2]. *)
Definition ex2_D : list Q := [(1 # 10)%Q; (5 # 10)%Q; (3 # 10)%Q; (9 # 10)%Q].
Definition ex2_I : list Z := [0; 1; 0; 1]%Z.
Definition ex2_tr : list Z := [0; 3]%Z.

(** Three shards whose only candidate has the same distance, [k = 3]. *)
Definition tie3_D : list Q := replicate 9 1%Q.
Definition tie3_I : list Z := [0; -1; -1; 0; -1; -1; 0; -1; -1]%Z.
Definition tie3_tr : list Z := [0; 10; 20]%Z.

(** The same three shards with [k = 2]. *)
Definition tie2_D : list Q := replicate 6 1%Q.
Definition tie2_I : list Z := [0; -1; 0; -1; 0; -1]%Z.

(** One shard listing a candidate, an absent one and another candidate,
    [k = 3]. *)
Definition gap_D : list Q := [1%Q; 2%Q; 3%Q].
Definition gap_I : list Z := [0; -1; 5]%Z.

(** One shard with a single candidate, [k = 2]. *)
Definition short_D : list Q := [1%Q; 2%Q].
Definition short_I : list Z := [0; -1]%Z.

(** ** C7: labels are translated by the offset of their shard *)

Section Claims.
Context {T : Type} {F : FloatOps T} {C : Comparator T}.
Variables (n k nshard : nat).
Variables (distances : list T) (labels : list Z).
Variables (all_distances : list T) (all_labels : list Z).
Variable (translations : list Z).

Local Abbreviation out :=
  (merge_tables n k nshard distances labels all_distances all_labels
     translations).
Local Abbreviation origins :=
  (row_origins n k nshard all_distances all_labels translations).
Local Abbreviation emitted_of :=
  (row_emitted n k nshard all_distances all_labels translations).
Local Abbreviation D_of := (cand_D n k all_distances).
Local Abbreviation I_of := (cand_I n k all_labels).
Local Abbreviation vlen_of := (valid_len n k all_labels).
Local Abbreviation total_of := (row_total n k nshard all_labels).

(** What slot [j] of row [i] holds, by its origin. *)
Lemma slot_by_origin i j :
  i < n → j < k → length distances = n * k → length labels = n * k →
  ∃ o, origins i !! j = Some o ∧
    (out.1 !!! (i * k + j), out.2 !!! (i * k + j))
    = match o with
      | None => (neutral, (-1)%Z)
      | Some (s, p) => (D_of i s p, (I_of i s p + translations !!! s)%Z)
      end.
Proof.
  intros Hi Hj Hl1 Hl2. rewrite merge_tables_lookup by done.
  rewrite row_out_emit by lia.
  destruct (lookup_lt_is_Some_2 (origins i) j) as [o Ho].
  { by rewrite row_origins_length. }
  exists o. split; [done|].
  erewrite (list_lookup_total_correct _ j);
    [|by rewrite list_lookup_fmap, Ho].
  by destruct o as [[s p]|].
Qed.

(** An origin is a candidate the merge can draw from. *)
Lemma origin_valid i j s p :
  0 < k → origins i !! j = Some (Some (s, p)) →
  s < nshard ∧ p < vlen_of i s ∧ p < k ∧ (0 ≤ I_of i s p)%Z.
Proof.
  intros Hk Ho.
  apply origins_emitted, row_emitted_bounds in Ho as [? Hp]; [|done].
  pose proof Hp as [? Hr]%valid_len_lt. split_and!; [done..|]. by apply Hr.
Qed.

(** C7. Every output label other than [-1] is [local_index +
    translations[s]], where [s = shard_ids[0]] is the shard popped for that
    slot and [local_index] is the label at the position [p = pointer[s]] of
    its list; the distance of the slot is the distance at that position. *)
Theorem merge_tables_translation i j :
  let out :=
    merge_tables n k nshard distances labels all_distances all_labels
      translations in
  i < n → j < k → length distances = n * k → length labels = n * k →
  out.2 !!! (i * k + j) ≠ (-1)%Z →
  ∃ s p,
    row_origins n k nshard all_distances all_labels translations i !! j
    = Some (Some (s, p)) ∧
    s < nshard ∧ p < k ∧ (0 ≤ cand_I n k all_labels i s p)%Z ∧
    out.2 !!! (i * k + j)
    = (cand_I n k all_labels i s p + translations !!! s)%Z ∧
    out.1 !!! (i * k + j) = cand_D n k all_distances i s p.
Proof.
  intros out Hi Hj Hl1 Hl2 Hne. subst out.
  destruct (slot_by_origin i j Hi Hj Hl1 Hl2) as ([[s p]|] & Ho & Hslot);
    injection Hslot as HD HI; [|done].
  destruct (origin_valid i j s p ltac:(lia) Ho) as (? & ? & ? & ?).
  by exists s, p.
Qed.

(** ** C8: too few candidates *)

(** C8. When the merge can draw [m < k] candidates for a query, its first
    [m] slots hold candidates and the last [k - m] hold label [-1] and the
    distance [C::neutral()]. *)
Theorem merge_tables_sentinel_fill i :
  let out :=
    merge_tables n k nshard distances labels all_distances all_labels
      translations in
  let m := row_total n k nshard all_labels i in
  i < n → length distances = n * k → length labels = n * k → m < k →
  (∀ j, j < m →
     ∃ s p,
       s < nshard ∧ p < valid_len n k all_labels i s ∧
       (0 ≤ cand_I n k all_labels i s p)%Z ∧
       out.1 !!! (i * k + j) = cand_D n k all_distances i s p ∧
       out.2 !!! (i * k + j)
       = (cand_I n k all_labels i s p + translations !!! s)%Z) ∧
  (∀ j, m ≤ j < k →
     out.1 !!! (i * k + j) = neutral ∧ out.2 !!! (i * k + j) = (-1)%Z).
Proof.
  intros out m Hi Hl1 Hl2 Htot. subst out m.
  destruct (row_origins_shape n k nshard all_distances all_labels translations
              i ltac:(lia)) as [Hshape Hlen].
  rewrite Nat.min_r in Hlen by lia.
  split; intros j Hj.
  - destruct (slot_by_origin i j Hi ltac:(lia) Hl1 Hl2) as (o & Ho & Hslot).
    rewrite Hshape, lookup_app_l in Ho by (rewrite length_fmap; lia).
    apply list_lookup_fmap_Some in Ho as ([s p] & -> & He).
    injection Hslot as HD HI.
    destruct (origin_valid i j s p ltac:(lia)) as (? & ? & ? & ?).
    { rewrite Hshape, lookup_app_l by (rewrite length_fmap; lia).
      by rewrite list_lookup_fmap, He. }
    by exists s, p.
  - destruct (slot_by_origin i j Hi ltac:(lia) Hl1 Hl2) as (o & Ho & Hslot).
    rewrite Hshape, lookup_app_r in Ho by (rewrite length_fmap; lia).
    apply lookup_replicate in Ho as [-> _]. by injection Hslot.
Qed.

(** ** C1, C4: order of the output *)

Lemma emitted_origin i j e :
  0 < k → emitted_of i !! j = Some e → origins i !! j = Some (Some e).
Proof.
  intros Hk He.
  destruct (row_origins_shape n k nshard all_distances all_labels translations
              i Hk) as [-> _].
  rewrite lookup_app_l by (rewrite length_fmap; by eapply lookup_lt_Some).
  by rewrite list_lookup_fmap, He.
Qed.

Lemma slot_emitted i j s p :
  i < n → 0 < k → length distances = n * k → length labels = n * k →
  emitted_of i !! j = Some (s, p) →
  out.1 !!! (i * k + j) = D_of i s p ∧
  out.2 !!! (i * k + j) = (I_of i s p + translations !!! s)%Z.
Proof.
  intros Hi Hk Hl1 Hl2 He.
  pose proof (emitted_origin i j _ Hk He) as Ho.
  assert (j < k).
  { apply lookup_lt_Some in Ho. by rewrite row_origins_length in Ho. }
  destruct (slot_by_origin i j Hi ltac:(done) Hl1 Hl2) as (o & Ho' & Hslot).
  rewrite Ho in Ho'. injection Ho' as <-. by injection Hslot.
Qed.

Lemma slot_trailing i j :
  i < n → length distances = n * k → length labels = n * k →
  length (emitted_of i) ≤ j < k →
  out.1 !!! (i * k + j) = neutral ∧ out.2 !!! (i * k + j) = (-1)%Z.
Proof.
  intros Hi Hl1 Hl2 Hj.
  destruct (slot_by_origin i j Hi ltac:(lia) Hl1 Hl2) as (o & Ho & Hslot).
  destruct (row_origins_shape n k nshard all_distances all_labels translations
              i ltac:(lia)) as [Hshape _].
  rewrite Hshape, lookup_app_r in Ho by (rewrite length_fmap; lia).
  apply lookup_replicate in Ho as [-> _]. by injection Hslot.
Qed.


(** C1 (amended). Given shards whose consumable prefixes are sorted, the
    slots of a row that hold candidates hold [min k m] distinct candidates
    out of the [m] the merge can draw from, in ascending order of distance,
    each with its translated label; every candidate left out is at least as
    far as every candidate emitted; the other slots hold the sentinel. *)
Theorem merge_tables_selects_smallest {L : ComparatorLaws C} i :
  let out :=
    merge_tables n k nshard distances labels all_distances all_labels
      translations in
  let emitted :=
    row_emitted n k nshard all_distances all_labels translations i in
  i < n → 0 < k → length distances = n * k → length labels = n * k →
  row_sorted n k nshard all_distances all_labels i →
  length emitted = k `min` row_total n k nshard all_labels i ∧
  NoDup emitted ∧
  (∀ s p, (s, p) ∈ emitted → s < nshard ∧ p < valid_len n k all_labels i s) ∧
  (∀ j s p, emitted !! j = Some (s, p) →
     out.1 !!! (i * k + j) = cand_D n k all_distances i s p ∧
     out.2 !!! (i * k + j)
     = (cand_I n k all_labels i s p + translations !!! s)%Z) ∧
  (∀ j, length emitted ≤ j < k →
     out.1 !!! (i * k + j) = neutral ∧ out.2 !!! (i * k + j) = (-1)%Z) ∧
  StronglySorted (row_le n k all_distances i) emitted ∧
  (∀ e s p,
     e ∈ emitted → s < nshard → p < valid_len n k all_labels i s →
     (s, p) ∉ emitted → row_le n k all_distances i e (s, p)).
Proof.
  intros out emitted Hi Hk Hl1 Hl2 Hsorted. subst out emitted.
  destruct (row_origins_shape n k nshard all_distances all_labels translations
              i Hk) as [_ Hlen].
  destruct (row_emitted_sorted n k nshard all_distances all_labels
              translations i Hk Hsorted) as [Hsort Hmin].
  split_and!; [done| | | | |done|done].
  - by apply row_emitted_NoDup.
  - intros s p. by apply row_emitted_bounds.
  - intros j s p. by apply slot_emitted.
  - intros j. by apply slot_trailing.
Qed.


(** ** C6: determinism *)

(** C6 (amended). The outputs are a function of the inputs alone: they do
    not depend on how [#pragma omp for] distributes the rows over threads,
    nor on what the scratch buffers hold when a row starts; and the
    candidates of one shard are emitted in the order of its list. *)
Theorem merge_tables_deterministic :
  (∀ threads, (∀ r, r ∈ concat threads ↔ r < n) →
     merge_tables_on threads n k nshard distances labels all_distances
       all_labels translations
     = merge_tables n k nshard distances labels all_distances all_labels
         translations) ∧
  (∀ i buf, 0 < k → buf_ok nshard buf →
     (merge_row_at n k nshard all_distances all_labels translations i buf).2
     = row_out n k nshard all_distances all_labels translations i) ∧
  (∀ i j j' s p p', 0 < k → j < j' →
     row_emitted n k nshard all_distances all_labels translations i !! j
     = Some (s, p) →
     row_emitted n k nshard all_distances all_labels translations i !! j'
     = Some (s, p') →
     p < p').
Proof.
  split_and!.
  - intros threads Hrows. unfold merge_tables.
    apply merge_tables_on_ext. intros r. rewrite Hrows. simpl.
    rewrite app_nil_r, elem_of_seq. lia.
  - intros i buf. apply merge_row_at_out.
  - intros i j j' s p p'. apply row_emitted_shard_order.
Qed.
End Claims.

(** ** C10: only the consumable prefixes are read *)

Lemma nat_lt_ext (a b : nat) : (∀ q, q < a ↔ q < b) → a = b.
Proof.
  intros Hq. pose proof (Hq a). pose proof (Hq b). lia.
Qed.

Lemma write_slices_cong {A} (k : nat) (f g : nat → list A) rows d :
  (∀ r, r ∈ rows → f r = g r) →
  write_slices k f rows d = write_slices k g rows d.
Proof.
  revert d. induction rows as [|r rows IH]; intros d Hfg; [done|].
  unfold write_slices in *. simpl. rewrite Hfg by (by left).
  apply IH. intros r' ?. apply Hfg. by right.
Qed.

Section PrefixOnly.
Context {T : Type} {F : FloatOps T} {C : Comparator T}.
Variables (n k nshard : nat).
Variables (distances : list T) (labels : list Z).
Variables (all_distances : list T) (all_labels : list Z).
Variables (all_distances' : list T) (all_labels' : list Z).
Variable (translations : list Z).

(** The second input keeps every entry up to the last one before the first
    negative label of its shard, and keeps a negative label where that
    first negative label is; it is arbitrary everywhere else. *)
Definition same_prefixes : Prop :=
  (∀ i s p, i < n → s < nshard → p < k →
     (∀ q, q ≤ p → (0 ≤ cand_I n k all_labels i s q)%Z) →
     cand_I n k all_labels' i s p = cand_I n k all_labels i s p ∧
     cand_D n k all_distances' i s p = cand_D n k all_distances i s p) ∧
  (∀ i s p, i < n → s < nshard → p < k →
     (∀ q, q < p → (0 ≤ cand_I n k all_labels i s q)%Z) →
     (cand_I n k all_labels i s p < 0)%Z →
     (cand_I n k all_labels' i s p < 0)%Z).

Lemma same_prefixes_agree i :
  same_prefixes → i < n →
  inputs_agree (row_D k all_distances i) (row_I k all_labels i)
    (row_D k all_distances' i) (row_I k all_labels' i) (n * k) k nshard.
Proof.
  intros [Hkeep Hstop] Hi s Hs.
  assert (Hlt : ∀ q, q < valid_len n k all_labels i s
                     ↔ q < valid_len n k all_labels' i s).
  { intros q. rewrite !valid_len_lt. split; intros [Hq Hr]; (split; [done|]).
    - intros r ?. destruct (Hkeep i s r) as [-> _]; [done|done|lia| |].
      + intros q' ?. apply Hr. lia.
      + apply Hr. lia.
    - intros r. induction r as [r IH] using lt_wf_ind. intros Hrq.
      destruct (decide (0 ≤ cand_I n k all_labels i s r)%Z) as [|Hneg];
        [done|].
      exfalso.
      assert (cand_I n k all_labels' i s r < 0)%Z.
      { apply (Hstop i s r Hi Hs); [lia| |lia]. intros q' ?. apply IH; lia. }
      specialize (Hr r Hrq). lia. }
  split; [by apply nat_lt_ext|].
  intros p [Hp Hr]%valid_len_lt.
  destruct (Hkeep i s p Hi Hs Hp Hr) as [HI HD]. done.
Qed.

(** C10. The outputs only depend on the entries of each shard's row before
    its first negative label, among the first [k]: changing anything else
    leaves them unchanged; and every slot that holds a candidate took it
    from such a prefix. *)
Theorem merge_tables_reads_prefix :
  same_prefixes →
  merge_tables n k nshard distances labels all_distances' all_labels'
    translations
  = merge_tables n k nshard distances labels all_distances all_labels
      translations
  ∧ (∀ i j s p,
       row_origins n k nshard all_distances all_labels translations i !! j
       = Some (Some (s, p)) →
       p < k ∧ ∀ q, q ≤ p → (0 ≤ cand_I n k all_labels i s q)%Z).
Proof.
  intros Hsame. split.
  - destruct (decide (k = 0)) as [->|Hk]; [done|].
    unfold merge_tables.
    rewrite !merge_tables_on_write_rows, !write_rows_slices by lia.
    assert (Hrow : ∀ r, r ∈ concat [seq 0 n] →
      row_out n k nshard all_distances' all_labels' translations r
      = row_out n k nshard all_distances all_labels translations r).
    { intros r Hr. simpl in Hr. rewrite app_nil_r in Hr.
      apply elem_of_seq in Hr. unfold row_out, merge_row_at. symmetry.
      apply merge_row_sim; [lia| |apply new_buf_ok..].
      apply same_prefixes_agree; [done|lia]. }
    f_equal; apply write_slices_cong; intros r Hr; by rewrite Hrow.
  - intros i j s p Ho. destruct (decide (k = 0)) as [->|Hk]; [done|].
    apply origins_emitted, row_emitted_bounds in Ho as [_ Hp]; [|lia].
    by apply valid_len_lt in Hp.
Qed.
End PrefixOnly.

(** ** C9: default translations *)

(** [sizes[0] + ... + sizes[i - 1]]. *)
Definition sum_sizes (sizes : list Z) (i : nat) : Z :=
  foldr Z.add 0%Z (take i sizes).

Lemma sum_sizes_S sizes i :
  i < length sizes →
  sum_sizes sizes (S i) = (sum_sizes sizes i + sizes !!! i)%Z.
Proof.
  intros Hi. unfold sum_sizes.
  rewrite (take_S_r sizes i (sizes !!! i))
    by (by apply list_lookup_lookup_total_lt).
  generalize (sizes !!! i). intros x.
  induction (take i sizes) as [|y l IH]; simpl; [lia|]. rewrite IH. lia.
Qed.

Lemma id_ranges_fold sizes n_params m :
  m ≤ n_params → m ≤ length sizes →
  foldl (λ acc i,
           let id_ranges :=
             if i <? n_params then acc.1 ++ [acc.2] else acc.1 in
           (id_ranges, (acc.2 + sizes !!! i)%Z))
        ([], 0%Z) (seq 0 m)
  = (sum_sizes sizes <$> seq 0 m, sum_sizes sizes m).
Proof.
  induction m as [|m IH]; intros Hm Hl; [done|].
  rewrite seq_S, foldl_app, IH by lia. simpl.
  destruct (Nat.ltb_spec m n_params); [|lia].
  by rewrite fmap_app, sum_sizes_S by lia.
Qed.

(** ** C5: configuration errors *)

(** C5 (amended). A metric other than [EucUnexpandedL2] and
    [EucUnexpandedL2Sqrt] makes the call fail at its first statement: no
    shard is searched and the caller's buffers are left as they were. *)
Theorem unsupported_metric_fails_fast {T : Type} {F : FloatOps T}
    (metric : DistanceType) (mem : fresh_memory T) (input : list (shard T))
    (sizes : list Z) (n_params n : nat) (res_I : list Z) (res_D : list T)
    (k : nat) (translations : option (list Z)) :
  metric ≠ EucUnexpandedL2 → metric ≠ EucUnexpandedL2Sqrt →
  brute_force_knn metric mem input sizes n_params n res_I res_D k translations
  = (AssertFailed, KnnState res_D res_I []).
Proof. by destruct metric. Qed.

(** ** C2: the square root *)

Lemma updateDevice_after_sqrt {T : Type} {F : FloatOps T}
    (dst src : list T) (len : nat) :
  len ≤ length src →
  updateDevice (unaryOp_sqrt len dst) src len = updateDevice dst src len.
Proof.
  intros Hsrc. unfold updateDevice, unaryOp_sqrt.
  assert (Hlen : length ((fsqrt <$> take len dst) ++ drop len dst)
                 = length dst).
  { rewrite length_app, length_fmap, length_take, length_drop. lia. }
  apply (list_eq_same_length _ _ (length dst));
    [by rewrite length_inserts|by rewrite length_inserts|].
  intros i x y Hi Hx Hy.
  destruct (decide (i < len)).
  - rewrite list_lookup_inserts in Hx, Hy
      by (rewrite ?length_take; lia). congruence.
  - rewrite list_lookup_inserts_ge in Hx, Hy by (rewrite length_take; lia).
    rewrite lookup_app_r in Hx by (rewrite length_fmap, length_take; lia).
    rewrite length_fmap, length_take, lookup_drop in Hx.
    replace (len + (i - len `min` length dst)) with i in Hx by lia.
    congruence.
Qed.

Lemma length_new_array {A} (init : nat → A) m : length (new_array init m) = m.
Proof. unfold new_array. by rewrite length_fmap, length_seq. Qed.

(** X18. What [brute_force_knn] returns does not depend on whether the
    metric is [EucUnexpandedL2Sqrt]: [unaryOp] runs on [res_D] before
    [updateDevice] overwrites [res_D] with the merged distances. *)
Lemma sqrt_is_overwritten {T : Type} {F : FloatOps T}
    (mem : fresh_memory T) (input : list (shard T))
    (sizes : list Z) (n_params n : nat) (res_I : list Z) (res_D : list T)
    (k : nat) (translations : option (list Z)) :
  brute_force_knn EucUnexpandedL2Sqrt mem input sizes n_params n res_I res_D k
    translations
  = brute_force_knn EucUnexpandedL2 mem input sizes n_params n res_I res_D k
      translations.
Proof.
  unfold brute_force_knn, brute_force_knn_on.
  change (search_shards_on (seq 0 ?m) ?a ?b ?c ?d ?e)
    with (search_shards a b m c d e).
  destruct (search_shards _ _ _ _ _ _) as [[all_D all_I] log].
  destruct (merge_tables _ _ _ _ _ _ _ _) as [result_D result_I] eqn:Hm.
  f_equal. f_equal. replace (n * k) with (k * n) by lia.
  apply updateDevice_after_sqrt.
  assert (length result_D = k * n) as ->; [|done].
  replace result_D with (result_D, result_I).1 by done. rewrite <- Hm.
  unfold merge_tables. destruct (decide (k = 0)) as [->|].
  { unfold merge_tables_on. simpl. lia. }
  rewrite (merge_tables_on_write_rows (C := CMin)) by lia.
  destruct (write_rows_length (C := CMin) n k n_params all_D all_I
    (id_ranges_of translations sizes n_params) (concat [seq 0 n])
    (new_array (result_D_init mem) (k * n),
     new_array (result_I_init mem) (k * n))) as [-> _].
  simpl. by rewrite length_new_array.
Qed.

(** ** C1, C4, C6 as the specification words them *)

Section AsStated.
Context {T : Type} {F : FloatOps T} {C : Comparator T}.
Variables (n k nshard : nat).
Variables (distances : list T) (labels : list Z).
Variables (all_distances : list T) (all_labels : list Z).
Variable (translations : list Z).

(** Each shard's list of [k] entries for query [i] is sorted ascending by
    distance. *)
Definition lists_sorted (i : nat) : Prop :=
  ∀ s p, s < nshard → p + 1 < k →
    cle (cand_D n k all_distances i s p) (cand_D n k all_distances i s (p + 1)).

(** Insertion before the first pair that is not strictly closer; the sort
    built on it keeps pairs of equal distance in their order of arrival. *)
Fixpoint insert_by_distance (x : T * Z) (l : list (T * Z)) : list (T * Z) :=
  match l with
  | [] => [x]
  | y :: l' => if cmp y.1 x.1 then y :: insert_by_distance x l' else x :: l
  end.

Definition sort_by_distance (l : list (T * Z)) : list (T * Z) :=
  foldr insert_by_distance [] l.

(** The valid (label other than [-1]) candidates of all shards for query
    [i] as (distance, global index) pairs, by shard index and then by
    position in the shard's list. *)
Definition all_candidates (i : nat) : list (T * Z) :=
  s ← seq 0 nshard;
  p ← seq 0 k;
  if decide (cand_I n k all_labels i s p = (-1)%Z) then []
  else [(cand_D n k all_distances i s p,
         (cand_I n k all_labels i s p + translations !!! s)%Z)].

(** The [k] smallest of them, ties by shard index and then by position. *)
Definition smallest_k (i : nat) : list (T * Z) :=
  take k (sort_by_distance (all_candidates i)).

(** The [k] slots of row [i] of the outputs. *)
Definition output_row (i : nat) : list (T * Z) :=
  (λ j,
     ((merge_tables n k nshard distances labels all_distances all_labels
         translations).1 !!! (i * k + j),
      (merge_tables n k nshard distances labels all_distances all_labels
         translations).2 !!! (i * k + j))) <$> seq 0 k.

Definition valid_entries (l : list (T * Z)) : list (T * Z) :=
  filter (λ e, e.2 ≠ (-1)%Z) l.

(** C1 as stated. *)
Definition exact_smallest_k : Prop :=
  ∀ i, i < n → lists_sorted i → valid_entries (output_row i) = smallest_k i.


(** C6 as stated, for its order of equal distances: of two emitted
    candidates with the same distance, the one of the lower shard comes
    first, and within a shard the one listed first. *)
Definition ties_by_shard : Prop :=
  ∀ i j j' s p s' p', i < n → j < j' →
    row_origins n k nshard all_distances all_labels translations i !! j
    = Some (Some (s, p)) →
    row_origins n k nshard all_distances all_labels translations i !! j'
    = Some (Some (s', p')) →
    cand_D n k all_distances i s p = cand_D n k all_distances i s' p' →
    s < s' ∨ (s = s' ∧ p < p').
End AsStated.

(** C5 as stated: an unsupported metric or a [translations] whose length is
    not [n_params] makes the call fail before any shard is searched. *)
Definition config_errors_fail_fast {T : Type} {F : FloatOps T} : Prop :=
  ∀ metric (mem : fresh_memory T) input sizes n_params n res_I res_D k
    translations,
    (metric ≠ EucUnexpandedL2 ∧ metric ≠ EucUnexpandedL2Sqrt)
    ∨ (∃ t, translations = Some t ∧ length t ≠ n_params) →
    brute_force_knn metric mem input sizes n_params n res_I res_D k
      translations
    = (AssertFailed, KnnState res_D res_I []).

(** * Further properties of the code *)

(** ** [merge_tables]: the output buffers *)

Lemma slot_decompose (n k x : nat) :
  x < n * k → ∃ i j, x = i * k + j ∧ i < n ∧ j < k.
Proof.
  intros Hx. assert (0 < k) by nia.
  exists (x / k), (x `mod` k).
  pose proof (Nat.div_mod_eq x k). pose proof (Nat.mod_upper_bound x k).
  split_and!; [lia| |lia].
  destruct (decide (x / k < n)) as [|Hn]; [done|]. nia.
Qed.

Lemma take_ext_total {A} `{Inhabited A} (m : nat) (l1 l2 : list A) :
  m ≤ length l1 → m ≤ length l2 →
  (∀ x, x < m → l1 !!! x = l2 !!! x) → take m l1 = take m l2.
Proof.
  intros H1 H2 Hx. apply (list_eq_same_length _ _ m);
    [rewrite length_take; lia..|].
  intros x a b Hxm. rewrite !lookup_take_lt by done.
  intros Ha%list_lookup_total_correct Hb%list_lookup_total_correct.
  rewrite <- Ha, <- Hb. by apply Hx.
Qed.

Lemma write_slices_beyond {A} (n k : nat) (f : nat → list A) rows d x :
  (∀ r, length (f r) = k) → (∀ r, r ∈ rows → r < n) → n * k ≤ x →
  write_slices k f rows d !! x = d !! x.
Proof.
  intros Hf. revert d. induction rows as [|r rows IH]; intros d Hrows Hx;
    [done|].
  unfold write_slices in *. simpl. rewrite IH.
  - apply list_lookup_inserts_ge. rewrite Hf.
    assert (r < n) by (apply Hrows; by left). nia.
  - intros r' ?. apply Hrows. by right.
  - done.
Qed.

Section TableSlots.
Context {T : Type} {F : FloatOps T} {C : Comparator T}.
Variables (n k nshard : nat).
Variables (all_distances : list T) (all_labels : list Z).
Variable (translations : list Z).

Lemma merge_tables_slot i j distances labels :
  i < n → j < k → n * k ≤ length distances → n * k ≤ length labels →
  ((merge_tables n k nshard distances labels all_distances all_labels
      translations).1 !!! (i * k + j),
   (merge_tables n k nshard distances labels all_distances all_labels
      translations).2 !!! (i * k + j))
  = row_out n k nshard all_distances all_labels translations i !!! j.
Proof.
  intros Hi Hj Hl1 Hl2. unfold merge_tables.
  rewrite merge_tables_on_write_rows by lia. simpl. rewrite app_nil_r.
  pose proof (slot_lt k i j n Hi Hj).
  destruct (write_rows_lookup n k nshard all_distances all_labels
              translations (seq 0 n) i j (distances, labels) Hj) as [H1 H2].
  { apply elem_of_seq. lia. }
  simpl in *. rewrite H1, H2 by lia.
  by destruct (row_out _ _ _ _ _ _ i !!! j).
Qed.

Lemma merge_tables_length distances labels :
  length (merge_tables n k nshard distances labels all_distances all_labels
            translations).1 = length distances ∧
  length (merge_tables n k nshard distances labels all_distances all_labels
            translations).2 = length labels.
Proof.
  unfold merge_tables. destruct (decide (k = 0)) as [->|]; [done|].
  rewrite merge_tables_on_write_rows by lia. apply write_rows_length.
Qed.

Lemma merge_tables_beyond distances labels x :
  n * k ≤ x →
  (merge_tables n k nshard distances labels all_distances all_labels
     translations).1 !! x = distances !! x ∧
  (merge_tables n k nshard distances labels all_distances all_labels
     translations).2 !! x = labels !! x.
Proof.
  intros Hx. unfold merge_tables. destruct (decide (k = 0)) as [->|]; [done|].
  rewrite merge_tables_on_write_rows, write_rows_slices by lia. simpl.
  rewrite app_nil_r.
  split; apply (write_slices_beyond n); try done;
    try (intros r; by rewrite length_fmap, row_out_length);
    intros r Hr%elem_of_seq; lia.
Qed.

(** X1. The outputs keep their lengths, and [merge_tables] writes nothing at or
    after offset [n * k] of [distances] and [labels]. *)
Theorem merge_tables_frame distances labels :
  let out :=
    merge_tables n k nshard distances labels all_distances all_labels
      translations in
  length out.1 = length distances ∧ length out.2 = length labels ∧
  ∀ x, n * k ≤ x → out.1 !! x = distances !! x ∧ out.2 !! x = labels !! x.
Proof.
  intros out. subst out.
  destruct (merge_tables_length distances labels) as [H1 H2].
  split_and!; [done|done|]. intros x. apply merge_tables_beyond.
Qed.

(** X2. Each of the first [n * k] cells of [distances] and of [labels] is
    written: what they held before the call has no influence on what they
    hold after it. *)
Theorem merge_tables_overwrites distances labels distances' labels' :
  n * k ≤ length distances → n * k ≤ length labels →
  n * k ≤ length distances' → n * k ≤ length labels' →
  take (n * k)
    (merge_tables n k nshard distances labels all_distances all_labels
       translations).1
  = take (n * k)
      (merge_tables n k nshard distances' labels' all_distances all_labels
         translations).1
  ∧ take (n * k)
      (merge_tables n k nshard distances labels all_distances all_labels
         translations).2
    = take (n * k)
        (merge_tables n k nshard distances' labels' all_distances all_labels
           translations).2.
Proof.
  intros Hd Hl Hd' Hl'.
  destruct (merge_tables_length distances labels) as [H1 H2].
  destruct (merge_tables_length distances' labels') as [H1' H2'].
  split; (apply take_ext_total; [lia|lia|]);
    intros x (i & j & -> & Hi & Hj)%slot_decompose.
  - pose proof (merge_tables_slot i j distances labels Hi Hj Hd Hl) as Ha.
    pose proof (merge_tables_slot i j distances' labels' Hi Hj Hd' Hl') as Hb.
    rewrite <- Hb in Ha. by injection Ha.
  - pose proof (merge_tables_slot i j distances labels Hi Hj Hd Hl) as Ha.
    pose proof (merge_tables_slot i j distances' labels' Hi Hj Hd' Hl') as Hb.
    rewrite <- Hb in Ha. by injection Ha.
Qed.
End TableSlots.

(** ** [merge_tables]: how a row consumes its shards *)

Lemma incr_bounded_lookup (l : list nat) :
  (∀ j j' x y, j < j' → l !! j = Some x → l !! j' = Some y → x < y) →
  (∀ x, x ∈ l → x < length l) →
  ∀ j x, l !! j = Some x → x = j.
Proof.
  intros Hincr Hbound.
  assert (Hge : ∀ j x, l !! j = Some x → j ≤ x).
  { induction j as [|j IH]; intros x Hx; [lia|].
    destruct (lookup_lt_is_Some_2 l j) as [y Hy].
    { apply lookup_lt_Some in Hx. lia. }
    pose proof (IH y Hy). pose proof (Hincr j (S j) y x ltac:(lia) Hy Hx).
    lia. }
  assert (Hle : ∀ d j x, j + d + 1 = length l → l !! j = Some x → x ≤ j).
  { induction d as [|d IH]; intros j x Hj Hx.
    - pose proof (Hbound x (list_elem_of_lookup_2 _ _ _ Hx)). lia.
    - destruct (lookup_lt_is_Some_2 l (S j)) as [y Hy]; [lia|].
      pose proof (IH (S j) y ltac:(lia) Hy).
      pose proof (Hincr j (S j) x y ltac:(lia) Hx Hy). lia. }
  intros j x Hx. pose proof (Hge j x Hx).
  pose proof (lookup_lt_Some _ _ _ Hx).
  pose proof (Hle (length l - j - 1) j x ltac:(lia) Hx). lia.
Qed.

Section RowPrefix.
Context {T : Type} {C : Comparator T}.
Variables (D_in : nat → T) (I_in : nat → Z).
Variables (stride k nshard : nat) (translations : list Z).

Local Abbreviation step := (merge_step D_in I_in stride k translations).
Local Abbreviation loop := (merge_loop D_in I_in stride k translations).
Local Abbreviation inv := (row_inv D_in I_in stride k nshard).
Local Abbreviation emitted_in := (emitted D_in I_in stride k translations).

(** An emitted candidate lies before the final read position of its
    shard. *)
Lemma emitted_below_pointer steps st s p :
  0 < k → inv st → (s, p) ∈ emitted_in steps st →
  p < pointer (loop steps st).1 !!! s.
Proof.
  intros Hk. revert st.
  induction steps as [|steps IH]; intros st Hinv Hel.
  { by apply elem_of_nil in Hel. }
  rewrite emitted_S in Hel. rewrite merge_loop_S. simpl.
  destruct (step_origin D_in I_in stride k nshard translations st Hk Hinv)
    as [_ Hinv'].
  destruct (decide (heap_size st = 0)) as [E|E].
  - rewrite origin_None in Hel by done. by apply IH.
  - rewrite origin_Some in Hel by done.
    apply elem_of_cons in Hel as [[= -> ->]|Hel]; [|by apply IH].
    destruct (merge_step_nonempty D_in I_in stride k nshard translations st
                Hk Hinv E) as (? & ? & _ & _ & Hptr & _).
    pose proof (loop_pointer_mono D_in I_in stride k nshard translations
                  steps (step st).1 (shard_ids st !!! 0) Hk Hinv') as Hmono.
    destruct Hinv as (Hlp & _).
    rewrite Hptr, list_lookup_total_insert_eq in Hmono; lia.
Qed.

(** A slot holds a candidate exactly when it is one of the first
    [length emitted] slots. *)
Lemma origins_lookup_emitted steps st j e :
  0 < k → inv st →
  merge_origins D_in I_in stride k translations steps st !! j = Some (Some e)
  ↔ emitted_in steps st !! j = Some e.
Proof.
  intros Hk Hinv.
  destruct (origins_shape D_in I_in stride k nshard translations steps st
              Hk Hinv) as [-> _].
  destruct (decide (j < length (emitted_in steps st))) as [Hj|Hj].
  - rewrite lookup_app_l by (by rewrite length_fmap).
    rewrite list_lookup_fmap. destruct (emitted_in steps st !! j); simpl.
    + split; congruence.
    + split; discriminate.
  - rewrite lookup_app_r by (rewrite length_fmap; lia).
    rewrite (lookup_ge_None_2 (emitted_in steps st) j) by lia.
    split; [|discriminate]. by intros [? _]%lookup_replicate.
Qed.

(** The candidates taken from a shard form a prefix of its list, and the
    ones before a candidate were emitted before it. *)
Lemma emitted_prefix_closed steps buf j s p q :
  0 < k → buf_ok nshard buf → q < p →
  emitted_in steps (seed D_in I_in stride nshard buf) !! j = Some (s, p) →
  ∃ j', j' < j ∧
    emitted_in steps (seed D_in I_in stride nshard buf) !! j' = Some (s, q).
Proof.
  intros Hk Hbuf Hq Hj.
  pose proof (seed_row_inv D_in I_in stride k nshard buf Hk Hbuf) as Hinv.
  pose proof (list_elem_of_lookup_2 _ _ _ Hj) as Hel.
  pose proof (emitted_below_pointer steps _ s p Hk Hinv Hel) as Hp.
  destruct (emitted_bounds D_in I_in stride k nshard translations steps _ s p
              Hk Hinv Hel) as (Hs & _).
  assert (Hq' : (s, q) ∈ emitted_in steps (seed D_in I_in stride nshard buf)).
  { apply (emitted_cover D_in I_in stride k nshard); [done..|].
    rewrite (seed_pointer D_in I_in stride k nshard buf Hk Hbuf),
      lookup_total_replicate_2 by done.
    lia. }
  apply list_elem_of_lookup in Hq' as [j' Hj']. exists j'. split; [|done].
  destruct (Nat.lt_trichotomy j' j) as [|[->|Hlt]]; [done| |].
  - rewrite Hj in Hj'. injection Hj' as ->. lia.
  - pose proof (emitted_shard_order D_in I_in stride k nshard translations
                  steps _ j j' s p q Hk Hinv Hlt Hj Hj'). lia.
Qed.

(** With one shard, the row is the shard's consumable prefix in order. *)
Lemma emitted_single_shard steps buf j e :
  0 < k → nshard = 1 → buf_ok nshard buf → vlen I_in stride k 0 ≤ steps →
  emitted_in steps (seed D_in I_in stride nshard buf) !! j = Some e ↔
  j < vlen I_in stride k 0 ∧ e = (0, j).
Proof.
  intros Hk Hn Hbuf Hsteps.
  pose proof (seed_row_inv D_in I_in stride k nshard buf Hk Hbuf) as Hinv.
  set (l := emitted_in steps (seed D_in I_in stride nshard buf)).
  assert (Hlen : length l = vlen I_in stride k 0).
  { destruct (origins_shape D_in I_in stride k nshard translations steps _
                Hk Hinv) as [_ Hl].
    unfold l. rewrite Hl.
    rewrite (seed_remaining D_in I_in stride k nshard buf Hk Hbuf).
    unfold total_valid. rewrite Hn. simpl. lia. }
  assert (Hfst : ∀ s p, (s, p) ∈ l → s = 0 ∧ p < length l).
  { intros s p Hel.
    destruct (emitted_bounds D_in I_in stride k nshard translations steps _
                s p Hk Hinv Hel) as (Hs & _ & Hp).
    assert (s = 0) as -> by lia. rewrite Hlen. done. }
  assert (Hid : ∀ j p, l.*2 !! j = Some p → p = j).
  { apply incr_bounded_lookup.
    - intros a b x y Hab Hx Hy.
      rewrite list_lookup_fmap in Hx, Hy.
      destruct (l !! a) as [[s1 p1]|] eqn:Ha; [|done].
      destruct (l !! b) as [[s2 p2]|] eqn:Hb; [|done].
      simpl in *. injection Hx as ->. injection Hy as ->.
      destruct (Hfst s1 x (list_elem_of_lookup_2 _ _ _ Ha)) as [-> _].
      destruct (Hfst s2 y (list_elem_of_lookup_2 _ _ _ Hb)) as [-> _].
      by apply (emitted_shard_order D_in I_in stride k nshard translations
                  steps _ a b 0 x y Hk Hinv Hab).
    - intros p ([s p'] & -> & Hel)%list_elem_of_fmap. simpl.
      rewrite length_fmap. by destruct (Hfst s p' Hel). }
  split.
  - intros Hj. pose proof (lookup_lt_Some _ _ _ Hj). split; [lia|].
    destruct e as [s p].
    destruct (Hfst s p (list_elem_of_lookup_2 _ _ _ Hj)) as [-> _].
    f_equal. apply Hid. by rewrite list_lookup_fmap, Hj.
  - intros [Hj ->].
    destruct (lookup_lt_is_Some_2 l j) as [[s p] He]; [lia|].
    destruct (Hfst s p (list_elem_of_lookup_2 _ _ _ He)) as [-> _].
    rewrite He. do 2 f_equal. apply Hid. by rewrite list_lookup_fmap, He.
Qed.

(** The new state and the distance written do not depend on
    [translations]. *)
Lemma merge_step_translations (tr' : list Z) st :
  (merge_step D_in I_in stride k tr' st).1 = (step st).1 ∧
  (merge_step D_in I_in stride k tr' st).2.1 = (step st).2.1.
Proof.
  unfold merge_step. destruct (heap_size st =? 0); [done|].
  destruct (heap_pop _ _ _) as [hv si].
  destruct (_ && _); [|done].
  by destruct (heap_push _ _ _ _ _).
Qed.

Lemma merge_origins_translations (tr' : list Z) steps st :
  merge_origins D_in I_in stride k tr' steps st
  = merge_origins D_in I_in stride k translations steps st.
Proof.
  revert st. induction steps as [|steps IH]; intros st; [done|].
  cbn [merge_origins].
  destruct (merge_step_translations tr' st) as [-> _]. by rewrite IH.
Qed.
End RowPrefix.

Section TableOrigins.
Context {T : Type} {F : FloatOps T} {C : Comparator T}.
Variables (n k nshard : nat).
Variables (all_distances : list T) (all_labels : list Z).
Variable (translations : list Z).

Local Abbreviation origins :=
  (row_origins n k nshard all_distances all_labels translations).

(** What slot [j] of row [i] holds, by its origin, in output buffers of at
    least [n * k] cells. *)
Lemma slot_origin i j distances labels :
  i < n → j < k → n * k ≤ length distances → n * k ≤ length labels →
  ∃ o, origins i !! j = Some o ∧
    ((merge_tables n k nshard distances labels all_distances all_labels
        translations).1 !!! (i * k + j),
     (merge_tables n k nshard distances labels all_distances all_labels
        translations).2 !!! (i * k + j))
    = match o with
      | None => (neutral, (-1)%Z)
      | Some (s, p) =>
          (cand_D n k all_distances i s p,
           (cand_I n k all_labels i s p + translations !!! s)%Z)
      end.
Proof.
  intros Hi Hj Hl1 Hl2. rewrite merge_tables_slot by done.
  rewrite row_out_emit by lia.
  destruct (lookup_lt_is_Some_2 (origins i) j) as [o Ho].
  { by rewrite row_origins_length. }
  exists o. split; [done|].
  erewrite (list_lookup_total_correct _ j);
    [|by rewrite list_lookup_fmap, Ho].
  by destruct o as [[s p]|].
Qed.

Lemma origins_candidate_before i j r e :
  0 < k → origins i !! j = Some (Some e) → r ≤ j →
  ∃ e', origins i !! r = Some (Some e').
Proof.
  intros Hk Ho Hr. unfold row_origins in *.
  pose proof (seed_row_inv (row_D k all_distances i) (row_I k all_labels i)
                (n * k) k nshard (new_buf nshard) Hk (new_buf_ok nshard))
    as Hinv.
  apply (origins_lookup_emitted _ _ _ _ nshard) in Ho; [|done..].
  destruct (lookup_lt_is_Some_2
              (emitted (row_D k all_distances i) (row_I k all_labels i)
                 (n * k) k translations k
                 (seed (row_D k all_distances i) (row_I k all_labels i)
                    (n * k) nshard (new_buf nshard))) r) as [e' He'].
  { apply lookup_lt_Some in Ho. lia. }
  exists e'. by apply (origins_lookup_emitted _ _ _ _ nshard).
Qed.
End TableOrigins.

Section SingleShard.
Context {T : Type} {F : FloatOps T} {C : Comparator T}.
Variables (n k : nat).
Variables (all_distances : list T) (all_labels : list Z).
Variable (translations : list Z).

Lemma single_shard_origins i j :
  0 < k → j < k →
  row_origins n k 1 all_distances all_labels translations i !! j
  = Some (if decide (j < valid_len n k all_labels i 0) then Some (0, j)
          else None).
Proof.
  intros Hk Hj.
  pose proof (seed_row_inv (row_D k all_distances i) (row_I k all_labels i)
                (n * k) k 1 (new_buf 1) Hk (new_buf_ok 1)) as Hinv.
  pose proof (emitted_single_shard (row_D k all_distances i)
                (row_I k all_labels i) (n * k) k 1 translations k
                (new_buf 1)) as Hsingle.
  destruct (lookup_lt_is_Some_2
              (row_origins n k 1 all_distances all_labels translations i) j)
    as [o Ho].
  { by rewrite row_origins_length. }
  rewrite Ho. f_equal. unfold row_origins in Ho.
  destruct o as [e|].
  - apply (origins_lookup_emitted _ _ _ _ 1) in Ho; [|done..].
    apply Hsingle in Ho as [Hv ->]; [|done|done|apply new_buf_ok|apply vlen_le].
    by rewrite decide_True.
  - destruct (decide (j < valid_len n k all_labels i 0)) as [Hv|]; [|done].
    assert (merge_origins (row_D k all_distances i) (row_I k all_labels i)
              (n * k) k translations k
              (seed (row_D k all_distances i) (row_I k all_labels i) (n * k)
                 1 (new_buf 1)) !! j = Some (Some (0, j))) as Ho'.
    { apply (origins_lookup_emitted _ _ _ _ 1); [done..|].
      apply Hsingle; [done|done|apply new_buf_ok|apply vlen_le|done]. }
    congruence.
Qed.

Lemma single_shard_slot i j distances labels :
  i < n → j < k → n * k ≤ length distances → n * k ≤ length labels →
  ((merge_tables n k 1 distances labels all_distances all_labels
      translations).1 !!! (i * k + j),
   (merge_tables n k 1 distances labels all_distances all_labels
      translations).2 !!! (i * k + j))
  = if decide (j < valid_len n k all_labels i 0) then
      (all_distances !!! (i * k + j),
       (all_labels !!! (i * k + j)%nat + translations !!! 0%nat)%Z)
    else (neutral, (-1)%Z).
Proof.
  intros Hi Hj Hl1 Hl2.
  destruct (slot_origin n k 1 all_distances all_labels translations i j
              distances labels Hi Hj Hl1 Hl2) as (o & Ho & ->).
  rewrite single_shard_origins in Ho by lia. injection Ho as <-.
  destruct (decide _); [|done].
  unfold cand_D, cand_I. by rewrite Nat.mul_0_r, Nat.add_0_l.
Qed.
End SingleShard.

Section MergeProperties.
Context {T : Type} {F : FloatOps T} {C : Comparator T}.
Variables (n k nshard : nat).
Variables (distances : list T) (labels : list Z).
Variables (all_distances : list T) (all_labels : list Z).
Variable (translations : list Z).

(** X3. Whatever the order of the distances, a row takes a prefix of each
    shard's list: if slot [j] of row [i] holds the candidate at position
    [p] of shard [s], every earlier position [q < p] of that shard is held
    by an earlier slot of the row. *)
Theorem merge_tables_consumes_prefixes i j s p q :
  0 < k → q < p →
  row_origins n k nshard all_distances all_labels translations i !! j
  = Some (Some (s, p)) →
  ∃ j', j' < j ∧
    row_origins n k nshard all_distances all_labels translations i !! j'
    = Some (Some (s, q)).
Proof.
  intros Hk Hq Ho. unfold row_origins in *.
  pose proof (seed_row_inv (row_D k all_distances i) (row_I k all_labels i)
                (n * k) k nshard (new_buf nshard) Hk (new_buf_ok nshard))
    as Hinv.
  apply (origins_lookup_emitted _ _ _ _ nshard) in Ho; [|done..].
  destruct (emitted_prefix_closed _ _ _ _ nshard translations k
              (new_buf nshard) j s p q Hk (new_buf_ok nshard) Hq Ho)
    as (j' & Hj' & Ho').
  exists j'. split; [done|].
  by apply (origins_lookup_emitted _ _ _ _ nshard).
Qed.

(** X4. With a single shard, [merge_tables] copies the shard's row up to its
    first negative label, adding [translations[0]] to the labels, and fills
    the rest of the row with [(C::neutral(), -1)]. *)
Theorem merge_tables_single_shard i j :
  let out :=
    merge_tables n k 1 distances labels all_distances all_labels
      translations in
  i < n → j < k → n * k ≤ length distances → n * k ≤ length labels →
  ((∀ r, r ≤ j → (0 ≤ all_labels !!! (i * k + r)%nat)%Z) →
   out.1 !!! (i * k + j) = all_distances !!! (i * k + j) ∧
   out.2 !!! (i * k + j)
   = (all_labels !!! (i * k + j)%nat + translations !!! 0%nat)%Z) ∧
  ((∃ r, r ≤ j ∧ (all_labels !!! (i * k + r)%nat < 0)%Z) →
   out.1 !!! (i * k + j) = neutral ∧ out.2 !!! (i * k + j) = (-1)%Z).
Proof.
  intros out Hi Hj Hl1 Hl2. subst out.
  pose proof (single_shard_slot n k all_distances all_labels translations
                i j distances labels Hi Hj Hl1 Hl2) as Hslot.
  assert (Hv : j < valid_len n k all_labels i 0
               ↔ ∀ r, r ≤ j → (0 ≤ all_labels !!! (i * k + r)%nat)%Z).
  { rewrite valid_len_lt. unfold cand_I. split.
    - intros [_ Hr] r Hrj. specialize (Hr r Hrj).
      by rewrite Nat.mul_0_r, Nat.add_0_l in Hr.
    - intros Hr. split; [done|]. intros r Hrj.
      rewrite Nat.mul_0_r, Nat.add_0_l. by apply Hr. }
  split.
  - intros Hr. rewrite decide_True in Hslot by (by apply Hv).
    by injection Hslot.
  - intros (r & Hr & Hneg). rewrite decide_False in Hslot.
    + by injection Hslot.
    + rewrite Hv. intros Hall. specialize (Hall r Hr). lia.
Qed.

(** X5. [translations] only shifts the labels: with another table [tr'], every
    slot holds the same distance and the same candidate, and the label of a
    candidate of shard [s] moves by [tr'[s] - translations[s]]. *)
Theorem merge_tables_translations_shift (tr' : list Z) i j :
  let out :=
    merge_tables n k nshard distances labels all_distances all_labels
      translations in
  let out' :=
    merge_tables n k nshard distances labels all_distances all_labels tr' in
  i < n → j < k → n * k ≤ length distances → n * k ≤ length labels →
  out'.1 !!! (i * k + j) = out.1 !!! (i * k + j) ∧
  row_origins n k nshard all_distances all_labels tr' i
  = row_origins n k nshard all_distances all_labels translations i ∧
  match
    row_origins n k nshard all_distances all_labels translations i !! j
  with
  | Some (Some (s, p)) =>
      out'.2 !!! (i * k + j)
      = (out.2 !!! (i * k + j)%nat - translations !!! s + tr' !!! s)%Z
  | _ => out'.2 !!! (i * k + j) = out.2 !!! (i * k + j)
  end.
Proof.
  intros out out' Hi Hj Hl1 Hl2. subst out out'.
  assert (Heq : row_origins n k nshard all_distances all_labels tr' i
                = row_origins n k nshard all_distances all_labels
                    translations i).
  { apply merge_origins_translations. }
  destruct (slot_origin n k nshard all_distances all_labels translations i j
              distances labels Hi Hj Hl1 Hl2) as (o & Ho & Hslot).
  destruct (slot_origin n k nshard all_distances all_labels tr' i j
              distances labels Hi Hj Hl1 Hl2) as (o' & Ho' & Hslot').
  rewrite Heq, Ho in Ho'. injection Ho' as <-. rewrite Ho.
  destruct o as [[s p]|]; injection Hslot as -> ->;
    injection Hslot' as -> ->; split_and!; try done.
  lia.
Qed.

(** X6. Row [i] of the outputs is determined by row [i] of the shards: two
    inputs that agree on the first [k] entries of every shard for query [i]
    give the same row [i], whatever they hold for the other queries. *)
Theorem merge_tables_row_local (all_distances' : list T)
    (all_labels' : list Z) i j :
  i < n → j < k → n * k ≤ length distances → n * k ≤ length labels →
  (∀ s p, s < nshard → p < k →
     cand_D n k all_distances' i s p = cand_D n k all_distances i s p ∧
     cand_I n k all_labels' i s p = cand_I n k all_labels i s p) →
  (merge_tables n k nshard distances labels all_distances' all_labels'
     translations).1 !!! (i * k + j)
  = (merge_tables n k nshard distances labels all_distances all_labels
       translations).1 !!! (i * k + j) ∧
  (merge_tables n k nshard distances labels all_distances' all_labels'
     translations).2 !!! (i * k + j)
  = (merge_tables n k nshard distances labels all_distances all_labels
       translations).2 !!! (i * k + j).
Proof.
  intros Hi Hj Hl1 Hl2 Hrow.
  pose proof (merge_tables_slot n k nshard all_distances all_labels
                translations i j distances labels Hi Hj Hl1 Hl2) as Ha.
  pose proof (merge_tables_slot n k nshard all_distances' all_labels'
                translations i j distances labels Hi Hj Hl1 Hl2) as Hb.
  assert (Hout : row_out n k nshard all_distances' all_labels' translations i
                 = row_out n k nshard all_distances all_labels translations
                     i).
  { unfold row_out, merge_row_at. symmetry.
    apply merge_row_sim; [lia| |apply new_buf_ok..].
    intros s Hs.
    assert (Hlt : ∀ q, q < valid_len n k all_labels i s
                       ↔ q < valid_len n k all_labels' i s).
    { intros q. rewrite !valid_len_lt.
      split; intros [Hq Hr]; (split; [done|]); intros r Hrq;
        destruct (Hrow s r Hs ltac:(lia)) as [_ HI];
        specialize (Hr r Hrq); lia. }
    split; [by apply nat_lt_ext|].
    intros p [Hp _]%valid_len_lt.
    destruct (Hrow s p Hs Hp) as [HD HI]. unfold cand_D, cand_I in HD, HI.
    unfold dis, lab, row_D, row_I. by rewrite HD, HI. }
  rewrite Hout, <- Ha in Hb. by injection Hb.
Qed.

(** X7. The scratch vectors are never overrun.  After any number of iterations
    of the [j] loop of row [i], started on a scratch of the right size, the
    three vectors still have [nshard] cells, the heap holds at most [nshard]
    entries, no read position exceeds [k], and the entry about to be popped
    names a shard [s < nshard] at a position [p < k]: the reads
    [I_in[stride * s + p]] and [translations[s]] are within the
    [nshard * n * k] cells of the inputs and the [nshard] translations. *)
Theorem merge_tables_scratch_in_bounds i steps buf :
  let st :=
    (merge_loop (row_D k all_distances i) (row_I k all_labels i) (n * k) k
       translations steps
       (seed (row_D k all_distances i) (row_I k all_labels i) (n * k) nshard
          buf)).1 in
  0 < k → i < n → buf_ok nshard buf →
  length (pointer st) = nshard ∧ length (shard_ids st) = nshard ∧
  length (heap_vals st) = nshard ∧ heap_size st ≤ nshard ∧
  (∀ s, s < nshard → pointer st !!! s ≤ k) ∧
  (heap_size st ≠ 0 →
   let s := shard_ids st !!! 0 in
   let p := pointer st !!! s in
   s < nshard ∧ p < k ∧ i * k + (n * k * s + p) < nshard * (n * k)).
Proof.
  intros st Hk Hi Hbuf. subst st.
  pose proof (seed_row_inv (row_D k all_distances i) (row_I k all_labels i)
                (n * k) k nshard buf Hk Hbuf) as Hinv0.
  destruct (seed_seed_inv (row_D k all_distances i) (row_I k all_labels i)
              (n * k) k nshard buf Hk Hbuf) as (Hp0 & Hv0 & Hs0 & _).
  destruct (merge_loop_emit (row_D k all_distances i) (row_I k all_labels i)
              (n * k) k nshard translations steps _ Hk Hinv0) as [_ Hinv].
  destruct (loop_buf_ok (row_D k all_distances i) (row_I k all_labels i)
              (n * k) k nshard translations steps _
              (conj Hp0 (conj Hv0 Hs0))) as (Hlp & Hlv & Hls).
  set (st := (merge_loop _ _ _ _ _ _ _).1) in *.
  pose proof Hinv as (_ & _ & Hhs & _ & Hin & Hout).
  split_and!; [done|done|done|lia| |].
  - intros s Hs.
    pose proof (vlen_le (row_I k all_labels i) (n * k) k s).
    destruct (decide (s ∈ (cells st).*2)) as [Hel|Hnel].
    + apply list_elem_of_fmap in Hel as ([d s'] & -> & Hel).
      apply Hin in Hel as (_ & ? & _). simpl in *. lia.
    + rewrite (Hout s Hs Hnel). lia.
  - intros E.
    destruct (merge_step_nonempty _ _ _ _ _ translations st Hk Hinv E)
      as (Hs & Hp & _).
    simpl in *.
    pose proof (vlen_le (row_I k all_labels i) (n * k) k
                  (shard_ids st !!! 0)).
    split_and!; [done|lia|].
    pose proof (slot_lt k i (pointer st !!! (shard_ids st !!! 0)) n Hi
                  ltac:(lia)).
    pose proof (Nat.mul_le_mono_l (shard_ids st !!! 0 + 1) nshard (n * k)
                  ltac:(lia)).
    lia.
Qed.

(** X8. Merging the merged table again, as the only shard and with a zero
    translation, returns it unchanged, provided no translation is negative:
    the result of [merge_tables] is itself a valid shard table. *)
Theorem merge_tables_idempotent (distances' : list T) (labels' : list Z) :
  let out :=
    merge_tables n k nshard distances labels all_distances all_labels
      translations in
  0 < k → length distances = n * k → length labels = n * k →
  length distances' = n * k → length labels' = n * k →
  (∀ s, s < nshard → (0 ≤ translations !!! s)%Z) →
  merge_tables n k 1 distances' labels' out.1 out.2 [0%Z] = out.
Proof.
  intros out Hk Hl1 Hl2 Hl1' Hl2' Htr.
  destruct (merge_tables_length n k nshard all_distances all_labels
              translations distances labels) as [Ho1 Ho2].
  fold out in Ho1, Ho2.
  destruct (merge_tables_length n k 1 out.1 out.2 [0%Z] distances' labels')
    as [Hr1 Hr2].
  assert (Hslot : ∀ i j, i < n → j < k →
    ((merge_tables n k 1 distances' labels' out.1 out.2 [0%Z]).1
       !!! (i * k + j),
     (merge_tables n k 1 distances' labels' out.1 out.2 [0%Z]).2
       !!! (i * k + j))
    = (out.1 !!! (i * k + j), out.2 !!! (i * k + j))).
  { intros i j Hi Hj.
    rewrite single_shard_slot by lia.
    assert (Hlab : ∀ r e,
      row_origins n k nshard all_distances all_labels translations i !! r
      = Some (Some e) → (0 ≤ out.2 !!! (i * k + r)%nat)%Z).
    { intros r [s p] Hr.
      assert (r < k).
      { apply lookup_lt_Some in Hr. by rewrite row_origins_length in Hr. }
      destruct (slot_origin n k nshard all_distances all_labels translations
                  i r distances labels Hi ltac:(done) ltac:(lia) ltac:(lia))
        as (o & Ho & Hs).
      rewrite Hr in Ho. injection Ho as <-. injection Hs as _ Hs.
      fold out in Hs. rewrite Hs.
      destruct (origin_valid n k nshard all_distances all_labels
                  translations i r s p Hk Hr) as (Hsn & _ & _ & ?).
      specialize (Htr s Hsn). lia. }
    destruct (slot_origin n k nshard all_distances all_labels translations
                i j distances labels Hi Hj ltac:(lia) ltac:(lia))
      as (o & Ho & Hs).
    fold out in Hs.
    destruct o as [e|].
    - rewrite decide_True; [f_equal; simpl; lia|].
      apply valid_len_lt. split; [done|]. intros r Hr. unfold cand_I.
      rewrite Nat.mul_0_r, Nat.add_0_l.
      destruct (origins_candidate_before n k nshard all_distances all_labels
                  translations i j r e Hk Ho Hr) as [e' He'].
      by apply (Hlab r e').
    - rewrite decide_False; [by rewrite Hs|].
      intros [_ Hv]%valid_len_lt. specialize (Hv j ltac:(lia)).
      unfold cand_I in Hv. rewrite Nat.mul_0_r, Nat.add_0_l in Hv.
      injection Hs as _ Hs. rewrite Hs in Hv. lia. }
  apply injective_projections.
  - apply (list_eq_same_length _ _ (n * k)); [lia..|].
    intros x a b (i & j & -> & Hi & Hj)%slot_decompose
      Ha%list_lookup_total_correct Hb%list_lookup_total_correct.
    specialize (Hslot i j Hi Hj). injection Hslot as H1 _. congruence.
  - apply (list_eq_same_length _ _ (n * k)); [lia..|].
    intros x a b (i & j & -> & Hi & Hj)%slot_decompose
      Ha%list_lookup_total_correct Hb%list_lookup_total_correct.
    specialize (Hslot i j Hi Hj). injection Hslot as _ H2. congruence.
Qed.
(** X9. When at least [k] candidates are available for a row, every slot of the
    row holds one: the sentinel only appears when the shards run out. *)
Theorem merge_tables_full_row i j :
  let out :=
    merge_tables n k nshard distances labels all_distances all_labels
      translations in
  i < n → j < k → n * k ≤ length distances → n * k ≤ length labels →
  k ≤ row_total n k nshard all_labels i →
  ∃ s p,
    row_origins n k nshard all_distances all_labels translations i !! j
    = Some (Some (s, p)) ∧
    s < nshard ∧ p < valid_len n k all_labels i s ∧
    out.1 !!! (i * k + j) = cand_D n k all_distances i s p ∧
    out.2 !!! (i * k + j)
    = (cand_I n k all_labels i s p + translations !!! s)%Z.
Proof.
  intros out Hi Hj Hl1 Hl2 Htot. subst out.
  destruct (slot_origin n k nshard all_distances all_labels translations i j
              distances labels Hi Hj Hl1 Hl2) as (o & Ho & Hslot).
  destruct (row_origins_shape n k nshard all_distances all_labels
              translations i ltac:(lia)) as [Hshape Hlen].
  rewrite Nat.min_l in Hlen by done.
  destruct o as [[s p]|].
  - injection Hslot as HD HI.
    destruct (origin_valid n k nshard all_distances all_labels translations
                i j s p ltac:(lia) Ho) as (? & ? & _).
    by exists s, p.
  - rewrite Hshape, lookup_app_l in Ho by (rewrite length_fmap; lia).
    apply list_lookup_fmap_Some in Ho as (e & ? & _). discriminate.
Qed.

(** X10. With non-negative translations the sentinel label is unambiguous: a
    slot holds the label [-1] exactly when it holds no candidate, and every
    other label is non-negative. *)
Theorem merge_tables_sentinel_unambiguous i j :
  let out :=
    merge_tables n k nshard distances labels all_distances all_labels
      translations in
  i < n → j < k → n * k ≤ length distances → n * k ≤ length labels →
  (∀ s, s < nshard → (0 ≤ translations !!! s)%Z) →
  (out.2 !!! (i * k + j) = (-1)%Z ↔
   row_origins n k nshard all_distances all_labels translations i !! j
   = Some None) ∧
  (out.2 !!! (i * k + j) ≠ (-1)%Z → (0 ≤ out.2 !!! (i * k + j)%nat)%Z).
Proof.
  intros out Hi Hj Hl1 Hl2 Htr. subst out.
  destruct (slot_origin n k nshard all_distances all_labels translations i j
              distances labels Hi Hj Hl1 Hl2) as (o & Ho & Hslot).
  rewrite Ho. destruct o as [[s p]|]; injection Hslot as _ ->.
  - destruct (origin_valid n k nshard all_distances all_labels translations
                i j s p ltac:(lia) Ho) as (Hs & _ & _ & ?).
    specialize (Htr s Hs). split; [|lia]. split; [lia|discriminate].
  - split; [done|]. by intros [].
Qed.
End MergeProperties.

(** ** [brute_force_knn] *)

Lemma list_inserts_full {A} (src dst : list A) :
  length src = length dst → list_inserts 0 src dst = src.
Proof.
  intros Hl. apply (list_eq_same_length _ _ (length dst));
    [done|by rewrite length_inserts|].
  intros x a b Hx. rewrite list_lookup_inserts by lia.
  rewrite Nat.sub_0_r. congruence.
Qed.

Lemma updateDevice_length {A} (dst src : list A) len :
  length (updateDevice dst src len) = length dst.
Proof. unfold updateDevice. by rewrite length_inserts. Qed.

Lemma updateDevice_beyond {A} (dst src : list A) len x :
  len ≤ x → updateDevice dst src len !! x = dst !! x.
Proof.
  intros Hx. unfold updateDevice. apply list_lookup_inserts_ge.
  rewrite length_take. lia.
Qed.

Lemma updateDevice_take {A} (dst src : list A) len :
  len ≤ length dst → length src = len →
  take len (updateDevice dst src len) = src.
Proof.
  intros Hd Hs. unfold updateDevice.
  rewrite (take_ge src) by lia.
  apply (list_eq_same_length _ _ len);
    [done|rewrite length_take, length_inserts; lia|].
  intros x a b Hx. rewrite lookup_take_lt by done.
  rewrite list_lookup_inserts by lia. rewrite Nat.sub_0_r. congruence.
Qed.

(** The merged distances of a row without candidates. *)
Lemma no_shard_slot {T : Type} {F : FloatOps T} {C : Comparator T}
    (n k : nat) (distances : list T) (labels : list Z)
    (all_distances : list T) (all_labels translations : list Z) i j :
  i < n → j < k → n * k ≤ length distances → n * k ≤ length labels →
  ((merge_tables n k 0 distances labels all_distances all_labels
      translations).1 !!! (i * k + j),
   (merge_tables n k 0 distances labels all_distances all_labels
      translations).2 !!! (i * k + j))
  = (neutral, (-1)%Z).
Proof.
  intros Hi Hj Hl1 Hl2.
  destruct (slot_origin n k 0 all_distances all_labels translations i j
              distances labels Hi Hj Hl1 Hl2) as (o & Ho & ->).
  destruct (row_origins_shape n k 0 all_distances all_labels translations i
              ltac:(lia)) as [Hshape Hlen].
  unfold row_total, total_valid in Hlen. simpl in Hlen.
  rewrite Nat.min_0_r in Hlen. apply nil_length_inv in Hlen.
  rewrite Hshape, Hlen in Ho. simpl in Ho.
  by apply lookup_replicate in Ho as [-> _].
Qed.


Section BruteForceProperties.
Context {T : Type} {F : FloatOps T}.
#[local] Existing Instance CMin.

(** [merge_tables] on result buffers of exactly [n * k] cells does not
    depend on what they hold. *)
Lemma merge_tables_fresh n k nshard (d d' : list T) (l l' : list Z)
    all_distances all_labels translations :
  length d = n * k → length d' = n * k →
  length l = n * k → length l' = n * k →
  merge_tables n k nshard d l all_distances all_labels translations
  = merge_tables n k nshard d' l' all_distances all_labels translations.
Proof.
  intros Hd Hd' Hl Hl'.
  destruct (merge_tables_length n k nshard all_distances all_labels
              translations d l) as [H1 H2].
  destruct (merge_tables_length n k nshard all_distances all_labels
              translations d' l') as [H1' H2'].
  apply injective_projections;
    (apply (list_eq_same_length _ _ (n * k)); [lia..|]);
    intros x a b (i & j & -> & Hi & Hj)%slot_decompose
      Ha%list_lookup_total_correct Hb%list_lookup_total_correct;
    pose proof (merge_tables_slot n k nshard all_distances all_labels
                  translations i j d l Hi Hj ltac:(lia) ltac:(lia)) as Hs;
    pose proof (merge_tables_slot n k nshard all_distances all_labels
                  translations i j d' l' Hi Hj ltac:(lia) ltac:(lia)) as Hs';
    rewrite <- Hs' in Hs; injection Hs as H3 H4; congruence.
Qed.

(** The shard [input[i]] is searched: its pointer resolves to a device. *)
Definition shard_resolves (input : list (shard T)) (i : nat) : bool :=
  match input !! i with
  | Some sh => (ptr_err sh =? 0)%Z && (-1 <? att_device sh)%Z
  | None => false
  end.

(** Every shard is searched and the backend fills its slice. *)
Definition all_shards_succeed (n k n_params : nat) (input : list (shard T))
    : Prop :=
  ∀ i, i < n_params →
    ∃ sh ds ls,
      input !! i = Some sh ∧ ptr_err sh = 0%Z ∧ (-1 < att_device sh)%Z ∧
      backend sh = Some (ds, ls) ∧ length ds = k * n ∧ length ls = k * n.

Local Abbreviation search_body n k input :=
  (λ (acc : list T * list Z * list nat) (i : nat),
     match input !! i with
     | Some sh => search_shard n k i sh acc
     | None => acc
     end).

Lemma search_shards_S n k m (input : list (shard T)) all_D all_I :
  search_shards n k (S m) input all_D all_I
  = search_body n k input (search_shards n k m input all_D all_I) m.
Proof.
  unfold search_shards, search_shards_on. by rewrite seq_S, foldl_app.
Qed.

Lemma search_shards_log n k m (input : list (shard T)) all_D all_I :
  (search_shards n k m input all_D all_I).2
  = List.filter (shard_resolves input) (seq 0 m).
Proof.
  induction m as [|m IH]; [done|].
  rewrite search_shards_S, seq_S, List.filter_app, <- IH. simpl.
  unfold shard_resolves.
  destruct (search_shards n k m input all_D all_I) as [[aD aI] log].
  destruct (input !! m) as [sh|]; simpl; [|by rewrite app_nil_r].
  destruct (_ && _); simpl; [|by rewrite app_nil_r].
  by destruct (backend sh) as [[ds ls]|].
Qed.

Lemma search_shards_length n k m (input : list (shard T)) all_D all_I :
  length (search_shards n k m input all_D all_I).1.1 = length all_D ∧
  length (search_shards n k m input all_D all_I).1.2 = length all_I.
Proof.
  induction m as [|m IH]; [done|].
  rewrite search_shards_S.
  destruct (search_shards n k m input all_D all_I) as [[aD aI] log].
  simpl in *. destruct (input !! m) as [sh|]; [|done]. simpl.
  destruct (_ && _); [|done].
  destruct (backend sh) as [[ds ls]|]; [|done]. simpl.
  by rewrite !length_inserts.
Qed.

(** After [m] successful shards, the first [m] slices hold what the backend
    wrote, whatever the arrays held before. *)
Lemma search_shards_filled n k n_params m input
    (all_D all_D' : list T) (all_I all_I' : list Z) :
  all_shards_succeed n k n_params input → m ≤ n_params →
  length all_D = length all_D' → length all_I = length all_I' →
  m * k * n ≤ length all_D → m * k * n ≤ length all_I →
  ∀ x, x < m * k * n →
    (search_shards n k m input all_D all_I).1.1 !! x
    = (search_shards n k m input all_D' all_I').1.1 !! x ∧
    (search_shards n k m input all_D all_I).1.2 !! x
    = (search_shards n k m input all_D' all_I').1.2 !! x.
Proof.
  intros Hok. induction m as [|m IH]; intros Hm HlD HlI HD HI x Hx; [lia|].
  assert (S m * k * n = m * k * n + k * n) as Hsm by lia.
  destruct (Hok m ltac:(lia))
    as (sh & ds & ls & Hsh & He & Ha & Hb & Hds & Hls).
  pose proof (search_shards_length n k m input all_D all_I) as [L1 L2].
  pose proof (search_shards_length n k m input all_D' all_I') as [L1' L2'].
  specialize (IH ltac:(lia) HlD HlI ltac:(lia) ltac:(lia)).
  rewrite !search_shards_S.
  destruct (search_shards n k m input all_D all_I) as [[aD aI] log].
  destruct (search_shards n k m input all_D' all_I') as [[aD' aI'] log'].
  simpl in *. rewrite Hsh. simpl. rewrite He, Hb.
  destruct (Z.ltb_spec (-1) (att_device sh)); [|lia]. simpl.
  destruct (decide (x < m * k * n)) as [Hlt|Hge].
  - rewrite !list_lookup_inserts_lt by done. by apply IH.
  - by rewrite !list_lookup_inserts by lia.
Qed.

Lemma search_shards_fresh n k n_params input
    (all_D all_D' : list T) (all_I all_I' : list Z) :
  all_shards_succeed n k n_params input →
  length all_D = n_params * k * n → length all_D' = n_params * k * n →
  length all_I = n_params * k * n → length all_I' = n_params * k * n →
  search_shards n k n_params input all_D all_I
  = search_shards n k n_params input all_D' all_I'.
Proof.
  intros Hok HD HD' HI HI'.
  pose proof (search_shards_length n k n_params input all_D all_I)
    as [L1 L2].
  pose proof (search_shards_length n k n_params input all_D' all_I')
    as [L1' L2'].
  pose proof (search_shards_filled n k n_params n_params input all_D all_D'
                all_I all_I' Hok ltac:(done) ltac:(lia) ltac:(lia)
                ltac:(lia) ltac:(lia)) as Hfill.
  pose proof (search_shards_log n k n_params input all_D all_I) as Hlog.
  pose proof (search_shards_log n k n_params input all_D' all_I') as Hlog'.
  destruct (search_shards n k n_params input all_D all_I) as [[aD aI] log].
  destruct (search_shards n k n_params input all_D' all_I')
    as [[aD' aI'] log'].
  simpl in *. f_equal; [f_equal|congruence].
  - apply (list_eq_same_length _ _ (n_params * k * n)); [lia..|].
    intros x a b Hx Ha Hb. destruct (Hfill x Hx) as [Hf _]. congruence.
  - apply (list_eq_same_length _ _ (n_params * k * n)); [lia..|].
    intros x a b Hx Ha Hb. destruct (Hfill x Hx) as [_ Hf]. congruence.
Qed.

Lemma unaryOp_sqrt_length len (buf : list T) :
  length (unaryOp_sqrt len buf) = length buf.
Proof.
  unfold unaryOp_sqrt.
  rewrite length_app, length_fmap, length_take, length_drop. lia.
Qed.

Lemma unaryOp_sqrt_beyond len (buf : list T) x :
  len ≤ x → unaryOp_sqrt len buf !! x = buf !! x.
Proof.
  intros Hx. unfold unaryOp_sqrt.
  destruct (decide (x < length buf)) as [Hlt|Hge].
  - rewrite lookup_app_r by (rewrite length_fmap, length_take; lia).
    rewrite length_fmap, length_take, lookup_drop. f_equal. lia.
  - rewrite !lookup_ge_None_2; [done|lia|].
    rewrite length_app, length_fmap, length_take, length_drop. lia.
Qed.

(** X11. Whatever the metric and the shards, the caller's buffers keep their
    lengths and the call leaves every cell at or after offset [k * n]
    untouched. *)
Theorem brute_force_knn_frame (metric : DistanceType) (mem : fresh_memory T)
    (input : list (shard T)) (sizes : list Z) (n_params n : nat)
    (res_I0 : list Z) (res_D0 : list T) (k : nat)
    (translations : option (list Z)) :
  let r :=
    (brute_force_knn metric mem input sizes n_params n res_I0 res_D0 k
       translations).2 in
  length (res_D r) = length res_D0 ∧ length (res_I r) = length res_I0 ∧
  ∀ x, k * n ≤ x → res_D r !! x = res_D0 !! x ∧ res_I r !! x = res_I0 !! x.
Proof.
  intros r. subst r. unfold brute_force_knn, brute_force_knn_on.
  change (search_shards_on (seq 0 ?m) ?a ?b ?c ?d ?e)
    with (search_shards a b m c d e).
  destruct (search_shards _ _ _ _ _ _) as [[all_D all_I] log].
  destruct (merge_tables _ _ _ _ _ _ _ _) as [result_D result_I].
  destruct metric; simpl; [| |done].
  - rewrite !updateDevice_length. split_and!; [done..|].
    intros x Hx. by rewrite !updateDevice_beyond.
  - rewrite !updateDevice_length, unaryOp_sqrt_length.
    split_and!; [done..|].
    intros x Hx. rewrite !updateDevice_beyond by done.
    by rewrite unaryOp_sqrt_beyond by lia.
Qed.

(** *** The order of the shards *)








(** X13. When every shard is searched and the backend fills its slice, the
    result does not depend on what the arrays obtained from [new[]] held. *)
Theorem brute_force_knn_ignores_fresh_memory (metric : DistanceType)
    (mem mem' : fresh_memory T) (input : list (shard T)) (sizes : list Z)
    (n_params n : nat) (res_I0 : list Z) (res_D0 : list T) (k : nat)
    (translations : option (list Z)) :
  all_shards_succeed n k n_params input →
  brute_force_knn metric mem input sizes n_params n res_I0 res_D0 k
    translations
  = brute_force_knn metric mem' input sizes n_params n res_I0 res_D0 k
      translations.
Proof.
  intros Hok. unfold brute_force_knn, brute_force_knn_on.
  change (search_shards_on (seq 0 ?m) ?a ?b ?c ?d ?e)
    with (search_shards a b m c d e).
  rewrite (search_shards_fresh n k n_params input
             (new_array (all_D_init mem) (n_params * k * n))
             (new_array (all_D_init mem') (n_params * k * n))
             (new_array (all_I_init mem) (n_params * k * n))
             (new_array (all_I_init mem') (n_params * k * n)))
    by (done || apply length_new_array).
  destruct (search_shards _ _ _ _ _ _) as [[all_D all_I] log].
  rewrite (merge_tables_fresh n k n_params
             (new_array (result_D_init mem) (k * n))
             (new_array (result_D_init mem') (k * n))
             (new_array (result_I_init mem) (k * n))
             (new_array (result_I_init mem') (k * n)))
    by (rewrite length_new_array; lia).
  done.
Qed.

(** X14. Without shards ([n_params = 0]) every one of the [k * n] results is the
    sentinel: distance [-FLT_MAX] and label [-1]. *)
Theorem brute_force_knn_no_shards (metric : DistanceType)
    (mem : fresh_memory T) (input : list (shard T)) (sizes : list Z)
    (n : nat) (res_I0 : list Z) (res_D0 : list T) (k : nat)
    (translations : option (list Z)) :
  let r :=
    (brute_force_knn metric mem input sizes 0 n res_I0 res_D0 k
       translations).2 in
  metric ≠ OtherDistanceType →
  k * n ≤ length res_D0 → k * n ≤ length res_I0 →
  take (k * n) (res_D r) = replicate (k * n) (fneg fmax) ∧
  take (k * n) (res_I r) = replicate (k * n) (-1)%Z ∧
  searched r = [].
Proof.
  intros r Hm HD HI. subst r. unfold brute_force_knn, brute_force_knn_on.
  change (search_shards_on (seq 0 ?m) ?a ?b ?c ?d ?e)
    with (search_shards a b m c d e).
  change (search_shards n k 0 input _ _)
    with (new_array (all_D_init mem) (0 * k * n),
          new_array (all_I_init mem) (0 * k * n), @nil nat).
  cbv iota beta.
  pose proof (merge_tables_length (C := CMin) n k 0
                (new_array (all_D_init mem) (0 * k * n))
                (new_array (all_I_init mem) (0 * k * n))
                (id_ranges_of translations sizes 0)
                (new_array (result_D_init mem) (k * n))
                (new_array (result_I_init mem) (k * n))) as [L1 L2].
  rewrite length_new_array in L1. rewrite length_new_array in L2.
  assert (Hslot : ∀ i j, i < n → j < k →
    ((merge_tables (C := CMin) n k 0 (new_array (result_D_init mem) (k * n))
        (new_array (result_I_init mem) (k * n))
        (new_array (all_D_init mem) (0 * k * n))
        (new_array (all_I_init mem) (0 * k * n))
        (id_ranges_of translations sizes 0)).1 !!! (i * k + j),
     (merge_tables (C := CMin) n k 0 (new_array (result_D_init mem) (k * n))
        (new_array (result_I_init mem) (k * n))
        (new_array (all_D_init mem) (0 * k * n))
        (new_array (all_I_init mem) (0 * k * n))
        (id_ranges_of translations sizes 0)).2 !!! (i * k + j))
    = (fneg fmax, (-1)%Z)).
  { intros i j Hi Hj.
    apply (no_shard_slot (C := CMin)); rewrite ?length_new_array; lia. }
  destruct (merge_tables _ _ _ _ _ _ _ _) as [result_D result_I].
  simpl in L1, L2, Hslot.
  assert (result_D = replicate (k * n) (fneg fmax)) as ->.
  { apply (list_eq_same_length _ _ (k * n));
      [by rewrite length_replicate|done|].
    intros x a b Hx Ha%list_lookup_total_correct [-> _]%lookup_replicate.
    destruct (slot_decompose n k x ltac:(lia)) as (i & j & -> & Hi & Hj).
    specialize (Hslot i j Hi Hj). injection Hslot as H1 _. congruence. }
  assert (result_I = replicate (k * n) (-1)%Z) as ->.
  { apply (list_eq_same_length _ _ (k * n));
      [by rewrite length_replicate|done|].
    intros x a b Hx Ha%list_lookup_total_correct [-> _]%lookup_replicate.
    destruct (slot_decompose n k x ltac:(lia)) as (i & j & -> & Hi & Hj).
    specialize (Hslot i j Hi Hj). injection Hslot as _ H2. congruence. }
  destruct metric; [| |done]; simpl;
    rewrite !updateDevice_take
      by (rewrite ?unaryOp_sqrt_length, ?length_replicate; lia);
    done.
Qed.
End BruteForceProperties.

Section SingleShardSearch.
Context {T : Type} {F : FloatOps T}.
#[local] Existing Instance CMin.

Lemma merge_tables_single_valid n k (d : list T) (l : list Z)
    (ds : list T) (ls : list Z) :
  length d = n * k → length l = n * k →
  length ds = n * k → length ls = n * k →
  Forall (λ x, (0 ≤ x)%Z) ls →
  merge_tables n k 1 d l ds ls [0%Z] = (ds, ls).
Proof.
  intros Hd Hl Hds Hls Hpos.
  destruct (merge_tables_length n k 1 ds ls [0%Z] d l) as [L1 L2].
  assert (Hslot : ∀ i j, i < n → j < k →
    ((merge_tables n k 1 d l ds ls [0%Z]).1 !!! (i * k + j),
     (merge_tables n k 1 d l ds ls [0%Z]).2 !!! (i * k + j))
    = (ds !!! (i * k + j), ls !!! (i * k + j))).
  { intros i j Hi Hj. rewrite single_shard_slot by lia.
    rewrite decide_True; [f_equal; simpl; lia|].
    apply valid_len_lt. split; [done|]. intros r Hr. unfold cand_I.
    rewrite Nat.mul_0_r, Nat.add_0_l.
    pose proof (slot_lt k i r n Hi ltac:(lia)).
    eapply Forall_forall in Hpos; [done|].
    apply list_elem_of_lookup_total_2. lia. }
  apply injective_projections; simpl;
    (apply (list_eq_same_length _ _ (n * k)); [lia..|]);
    intros x a b (i & j & -> & Hi & Hj)%slot_decompose
      Ha%list_lookup_total_correct Hb%list_lookup_total_correct;
    specialize (Hslot i j Hi Hj); injection Hslot as H1 H2; congruence.
Qed.

(** X15. One shard, no [translations]: the caller receives what the backend
    found for that shard, as it is (provided the backend reports no negative
    label, which would end the row there). *)
Theorem brute_force_knn_single_shard (metric : DistanceType)
    (mem : fresh_memory T) (sh : shard T) (ds : list T) (ls : list Z)
    (sizes : list Z) (n : nat) (res_I0 : list Z) (res_D0 : list T)
    (k : nat) :
  let r :=
    (brute_force_knn metric mem [sh] sizes 1 n res_I0 res_D0 k None).2 in
  metric ≠ OtherDistanceType →
  ptr_err sh = 0%Z → (-1 < att_device sh)%Z → backend sh = Some (ds, ls) →
  length ds = k * n → length ls = k * n → Forall (λ x, (0 ≤ x)%Z) ls →
  k * n ≤ length res_D0 → k * n ≤ length res_I0 →
  take (k * n) (res_D r) = ds ∧ take (k * n) (res_I r) = ls.
Proof.
  intros r Hm He Ha Hb Hds Hls Hpos HD HI. subst r.
  unfold brute_force_knn, brute_force_knn_on.
  change (search_shards_on (seq 0 ?m) ?a ?b ?c ?d ?e)
    with (search_shards a b m c d e).
  assert (search_shards n k 1 [sh]
            (new_array (all_D_init mem) (1 * k * n))
            (new_array (all_I_init mem) (1 * k * n)) = (ds, ls, [0])) as ->.
  { unfold search_shards, search_shards_on. simpl. rewrite He, Hb.
    destruct (Z.ltb_spec (-1) (att_device sh)); [|lia]. simpl.
    replace (0 * k * n) with 0 by lia.
    rewrite !list_inserts_full by (rewrite length_new_array; lia). done. }
  cbv iota beta.
  change (id_ranges_of None sizes 1) with [0%Z].
  rewrite merge_tables_single_valid
    by (rewrite ?length_new_array; done || lia).
  destruct metric; [| |done]; simpl;
    rewrite !updateDevice_take by (rewrite ?unaryOp_sqrt_length; lia);
    done.
Qed.
End SingleShardSearch.

(** *** Default translations *)

Lemma sum_sizes_mono (sizes : list Z) (a b : nat) :
  (∀ i, i < b → (0 ≤ sizes !!! i)%Z) → a ≤ b → b ≤ length sizes →
  (sum_sizes sizes a ≤ sum_sizes sizes b)%Z.
Proof.
  intros Hpos. induction b as [|b IH] in Hpos |- *; intros Hab Hb.
  { assert (a = 0) as -> by lia. done. }
  destruct (decide (a = S b)) as [->|]; [done|].
  rewrite (sum_sizes_S sizes b) by lia.
  specialize (IH ltac:(intros i ?; apply Hpos; lia) ltac:(lia) ltac:(lia)).
  specialize (Hpos b ltac:(lia)). lia.
Qed.

Lemma id_ranges_default_lookup (sizes : list Z) (n_params i : nat) :
  n_params ≤ length sizes → i < n_params →
  id_ranges_of None sizes n_params !!! i = sum_sizes sizes i.
Proof.
  intros Hl Hi. unfold id_ranges_of.
  rewrite id_ranges_fold by lia. simpl.
  rewrite (list_lookup_total_fmap (sum_sizes sizes))
    by (by rewrite length_seq).
  by rewrite lookup_total_seq_lt.
Qed.

(** X16. With the default translations and shards of sizes [sizes[s] >= 0], the
    global index [l + translations[s]] of a local index [0 <= l < sizes[s]]
    identifies both the shard and the local index: no two candidates share a
    global index. *)
Theorem default_translations_injective (sizes : list Z) (n_params : nat)
    (s s' : nat) (l l' : Z) :
  n_params ≤ length sizes →
  (∀ i, i < n_params → (0 ≤ sizes !!! i)%Z) →
  s < n_params → s' < n_params →
  (0 ≤ l < sizes !!! s)%Z → (0 ≤ l' < sizes !!! s')%Z →
  (l + id_ranges_of None sizes n_params !!! s
   = l' + id_ranges_of None sizes n_params !!! s')%Z →
  s = s' ∧ l = l'.
Proof.
  intros Hlen Hpos Hs Hs' Hl Hl'.
  rewrite !id_ranges_default_lookup by done. intros Heq.
  assert (Hlt : ∀ a b x y, a < b → b < n_params →
            (0 ≤ x < sizes !!! a)%Z → (0 ≤ y)%Z →
            (x + sum_sizes sizes a < y + sum_sizes sizes b)%Z).
  { intros a b x y Hab Hb Hx Hy.
    pose proof (sum_sizes_S sizes a ltac:(lia)).
    pose proof (sum_sizes_mono sizes (S a) b
                  ltac:(intros i ?; apply Hpos; lia) ltac:(lia) ltac:(lia)).
    lia. }
  destruct (Nat.lt_trichotomy s s') as [Hss|[->|Hss]].
  - pose proof (Hlt s s' l l' Hss Hs' Hl ltac:(lia)). lia.
  - split; [done|lia].
  - pose proof (Hlt s' s l' l Hss Hs Hl' ltac:(lia)). lia.
Qed.


Section DefaultTranslations.
Context {T : Type} {F : FloatOps T}.
#[local] Existing Instance CMin.


End DefaultTranslations.

(** *** The search as a merge of the backend's answers *)


Section SearchAsMerge.
Context {T : Type} {F : FloatOps T}.
#[local] Existing Instance CMin.




End SearchAsMerge.

(** ** The claims on concrete inputs *)

#[local] Existing Instance CMin.

(** Fresh memory that happens to hold distance 0 and label 7 everywhere. *)
Definition mem7 : fresh_memory Q :=
  FreshMemory (λ _, 0%Q) (λ _, 7%Z) (λ _, 0%Q) (λ _, 7%Z).

(** A shard on which the backend finds one neighbour at squared distance 4. *)
Definition shard4 : shard Q := Shard 0 0 (Some ([4%Q], [0%Z])).

(** A shard whose pointer does not resolve to a device. *)
Definition shard_bad : shard Q := Shard 1 0 None.


Lemma merge_tables_translation_witness :
  ∃ s p,
    row_origins (C := CMin) 1 2 2 ex2_D ex2_I ex2_tr 0 !! 1
    = Some (Some (s, p)) ∧
    s < 2 ∧ p < 2 ∧ (0 ≤ cand_I 1 2 ex2_I 0 s p)%Z ∧
    (merge_tables (C := CMin) 1 2 2 [0%Q; 0%Q] [0%Z; 0%Z] ex2_D ex2_I
       ex2_tr).2 !!! (0 * 2 + 1)
    = (cand_I 1 2 ex2_I 0 s p + ex2_tr !!! s)%Z ∧
    (merge_tables (C := CMin) 1 2 2 [0%Q; 0%Q] [0%Z; 0%Z] ex2_D ex2_I
       ex2_tr).1 !!! (0 * 2 + 1)
    = cand_D 1 2 ex2_D 0 s p.
Proof.
  apply (merge_tables_translation (C := CMin) 1 2 2 [0%Q; 0%Q] [0%Z; 0%Z]
           ex2_D ex2_I ex2_tr 0 1); [lia|lia|reflexivity|reflexivity|].
  vm_compute. discriminate.
Defined.

Lemma merge_tables_sentinel_fill_witness :
  (∀ j, j < row_total 1 2 1 short_I 0 →
     ∃ s p, s < 1 ∧ p < valid_len 1 2 short_I 0 s ∧
       (0 ≤ cand_I 1 2 short_I 0 s p)%Z ∧
       (merge_tables (C := CMin) 1 2 1 [0%Q; 0%Q] [0%Z; 0%Z] short_D short_I
          [5%Z]).1 !!! (0 * 2 + j) = cand_D 1 2 short_D 0 s p ∧
       (merge_tables (C := CMin) 1 2 1 [0%Q; 0%Q] [0%Z; 0%Z] short_D short_I
          [5%Z]).2 !!! (0 * 2 + j)
       = (cand_I 1 2 short_I 0 s p + [5%Z] !!! s)%Z) ∧
  (∀ j, row_total 1 2 1 short_I 0 ≤ j < 2 →
     (merge_tables (C := CMin) 1 2 1 [0%Q; 0%Q] [0%Z; 0%Z] short_D short_I
        [5%Z]).1 !!! (0 * 2 + j) = neutral ∧
     (merge_tables (C := CMin) 1 2 1 [0%Q; 0%Q] [0%Z; 0%Z] short_D short_I
        [5%Z]).2 !!! (0 * 2 + j) = (-1)%Z).
Proof.
  apply (merge_tables_sentinel_fill (C := CMin) 1 2 1 [0%Q; 0%Q] [0%Z; 0%Z]
           short_D short_I [5%Z] 0); [lia|reflexivity|reflexivity|].
  vm_compute. lia.
Defined.

(** The two shards of [ex2] are sorted. *)
Lemma ex2_sorted : row_sorted 1 2 2 ex2_D ex2_I 0.
Proof.
  intros s p Hs Hp.
  pose proof (vlen_le (row_I 2 ex2_I 0) (1 * 2) 2 s) as Hle.
  unfold valid_len in Hp. assert (p = 0) as -> by lia.
  destruct s as [|[|s]]; [vm_compute; reflexivity..|lia].
Qed.

Lemma merge_tables_selects_smallest_witness :
  length (row_emitted 1 2 2 ex2_D ex2_I ex2_tr 0)
  = 2 `min` row_total 1 2 2 ex2_I 0 ∧
  NoDup (row_emitted 1 2 2 ex2_D ex2_I ex2_tr 0) ∧
  (∀ s p, (s, p) ∈ row_emitted 1 2 2 ex2_D ex2_I ex2_tr 0 →
     s < 2 ∧ p < valid_len 1 2 ex2_I 0 s) ∧
  (∀ j s p, row_emitted 1 2 2 ex2_D ex2_I ex2_tr 0 !! j = Some (s, p) →
     (merge_tables 1 2 2 [0%Q; 0%Q] [0%Z; 0%Z] ex2_D ex2_I ex2_tr).1
       !!! (0 * 2 + j) = cand_D 1 2 ex2_D 0 s p ∧
     (merge_tables 1 2 2 [0%Q; 0%Q] [0%Z; 0%Z] ex2_D ex2_I ex2_tr).2
       !!! (0 * 2 + j) = (cand_I 1 2 ex2_I 0 s p + ex2_tr !!! s)%Z) ∧
  (∀ j, length (row_emitted 1 2 2 ex2_D ex2_I ex2_tr 0) ≤ j < 2 →
     (merge_tables 1 2 2 [0%Q; 0%Q] [0%Z; 0%Z] ex2_D ex2_I ex2_tr).1
       !!! (0 * 2 + j) = neutral ∧
     (merge_tables 1 2 2 [0%Q; 0%Q] [0%Z; 0%Z] ex2_D ex2_I ex2_tr).2
       !!! (0 * 2 + j) = (-1)%Z) ∧
  StronglySorted (row_le 1 2 ex2_D 0)
    (row_emitted 1 2 2 ex2_D ex2_I ex2_tr 0) ∧
  (∀ e s p, e ∈ row_emitted 1 2 2 ex2_D ex2_I ex2_tr 0 → s < 2 →
     p < valid_len 1 2 ex2_I 0 s →
     (s, p) ∉ row_emitted 1 2 2 ex2_D ex2_I ex2_tr 0 →
     row_le 1 2 ex2_D 0 e (s, p)).
Proof.
  apply (merge_tables_selects_smallest (L := CMin_Q_laws) 1 2 2
           [0%Q; 0%Q] [0%Z; 0%Z] ex2_D ex2_I ex2_tr 0);
    [lia|lia|reflexivity|reflexivity|exact ex2_sorted].
Defined.


Lemma merge_tables_deterministic_witness :
  merge_tables_on [[1]; [0]] 2 1 1 [0%Q; 0%Q] [0%Z; 0%Z] [3%Q; 4%Q]
    [0%Z; 0%Z] [10%Z]
  = merge_tables 2 1 1 [0%Q; 0%Q] [0%Z; 0%Z] [3%Q; 4%Q] [0%Z; 0%Z] [10%Z].
Proof.
  apply (merge_tables_deterministic 2 1 1 [0%Q; 0%Q] [0%Z; 0%Z] [3%Q; 4%Q]
           [0%Z; 0%Z] [10%Z]).
  intros r. simpl. rewrite !elem_of_cons, elem_of_nil. lia.
Defined.

(** C1, counterexamples.  First, one shard lists a candidate, an absent
    one and another candidate, with [k = 3]: the merge stops at the absent
    entry and emits one candidate, the claim asks for both.  Second, three
    shards offer one candidate each, at the same distance, with [k = 2]: the
    merge emits the candidates of shards 0 and 2, the claim asks for those
    of shards 0 and 1. *)
Lemma exact_smallest_k_counterexample :
  ¬ exact_smallest_k 1 3 1 [0%Q; 0%Q; 0%Q] [0%Z; 0%Z; 0%Z] gap_D gap_I [0%Z]
  ∧ ¬ exact_smallest_k 1 2 3 [0%Q; 0%Q] [0%Z; 0%Z] tie2_D tie2_I tie3_tr.
Proof.
  split; intros Hclaim; specialize (Hclaim 0 ltac:(lia)).
  - assert (Hsorted : lists_sorted 1 3 1 gap_D 0).
    { intros s p Hs Hp. assert (s = 0) as -> by lia.
      destruct p as [|[|p]]; [vm_compute; reflexivity..|lia]. }
    specialize (Hclaim Hsorted). vm_compute in Hclaim. discriminate.
  - assert (Hsorted : lists_sorted 1 2 3 tie2_D 0).
    { intros s p Hs Hp. assert (p = 0) as -> by lia.
      destruct s as [|[|[|s]]]; [vm_compute; reflexivity..|lia]. }
    specialize (Hclaim Hsorted). vm_compute in Hclaim. discriminate.
Qed.


(** C6, counterexample. Three shards offer one candidate each, at the same
    distance, and [k = 3]: shard 2 is emitted before shard 1. *)
Lemma ties_by_shard_counterexample :
  ¬ ties_by_shard 1 3 3 tie3_D tie3_I tie3_tr.
Proof.
  intros Hclaim.
  specialize (Hclaim 0 1 2 2 0 1 0 ltac:(lia) ltac:(lia)
                eq_refl eq_refl eq_refl).
  lia.
Qed.


Lemma unsupported_metric_fails_fast_witness :
  brute_force_knn OtherDistanceType mem7 [shard4] [5%Z] 1 1 [99%Z] [9%Q] 1 None
  = (AssertFailed, KnnState [9%Q] [99%Z] []).
Proof.
  apply (unsupported_metric_fails_fast OtherDistanceType mem7 [shard4] [5%Z]
           1 1 [99%Z] [9%Q] 1 None); discriminate.
Defined.

(** C5, counterexample. No shard ([n_params = 0]) and a [translations] of
    one entry, which the print loop of lines 141-143 reads as it is: the
    length of the table is not compared with [n_params], the call returns
    and the caller's buffers hold the merged (here sentinel) results. *)
Lemma config_errors_fail_fast_counterexample :
  ¬ config_errors_fail_fast (T := Q)
  ∧ print_defined (Some [7%Z]) = true
  ∧ brute_force_knn EucUnexpandedL2 mem7 [] [] 0 1 [99%Z] [9%Q] 1
      (Some [7%Z])
    = (Returned, KnnState [(- FLT_MAX)%Q] [(-1)%Z] []).
Proof.
  split; [|split; reflexivity].
  intros Hclaim.
  specialize (Hclaim EucUnexpandedL2 mem7 [] [] 0 1 [99%Z] [9%Q] 1
                (Some [7%Z])).
  assert (Hlen : ∃ t, Some [7%Z] = Some t ∧ length t ≠ 0).
  { exists [7%Z]. split; [reflexivity|simpl; lia]. }
  specialize (Hclaim (or_intror Hlen)). vm_compute in Hclaim. discriminate.
Qed.

Lemma merge_tables_reads_prefix_witness :
  merge_tables 1 2 1 [0%Q; 0%Q] [0%Z; 0%Z] [1%Q; 77%Q] [0; -5]%Z [0%Z]
  = merge_tables 1 2 1 [0%Q; 0%Q] [0%Z; 0%Z] short_D short_I [0%Z]
  ∧ (∀ i j s p,
       row_origins 1 2 1 short_D short_I [0%Z] i !! j = Some (Some (s, p)) →
       p < 2 ∧ ∀ q, q ≤ p → (0 ≤ cand_I 1 2 short_I i s q)%Z).
Proof.
  apply (merge_tables_reads_prefix 1 2 1 [0%Q; 0%Q] [0%Z; 0%Z] short_D short_I
           [1%Q; 77%Q] [0; -5]%Z [0%Z]).
  split; intros i s p Hi Hs Hp;
    assert (i = 0) as -> by lia; assert (s = 0) as -> by lia;
    destruct p as [|[|p]]; try lia.
  - intros _. split; reflexivity.
  - intros Hq. specialize (Hq 1 ltac:(lia)). vm_compute in Hq. by destruct Hq.
  - intros _ Hneg. vm_compute in Hneg. discriminate.
  - intros _ _. reflexivity.
Defined.

(** ** C2, C3: what [brute_force_knn] returns *)

(** C2, on a failing input. One shard, one query, [k = 1], the neighbour at
    squared distance 4: with [EucUnexpandedL2Sqrt] the caller gets 4, not
    its square root 2. *)
Theorem sqrt_metric_returns_squared_distance :
  res_D (brute_force_knn EucUnexpandedL2Sqrt mem7 [shard4] [5%Z] 1 1 [99%Z]
           [9%Q] 1 None).2 = [4%Q]
  ∧ fsqrt 4%Q = 2%Q.
Proof. split; reflexivity. Qed.

(** C3, on a failing input. Two shards, one query, [k = 1]; the first
    shard's pointer does not resolve, the second finds a neighbour at
    squared distance 4.  The slice of the first shard is read as it came
    from [new[]]: the caller gets its leftover label 7 at distance 0, not
    the neighbour [(4, 0 + 5)] of the second shard. *)
Theorem failed_shard_slice_is_merged :
  brute_force_knn EucUnexpandedL2 mem7 [shard_bad; shard4] [5; 3]%Z 2 1 [99%Z]
    [9%Q] 1 None
  = (Returned, KnnState [0%Q] [7%Z] [1]).
Proof. reflexivity. Qed.

(** ** Further properties on concrete inputs *)

(** One shard listing two candidates for one query. *)
Definition pair_D : list Q := [1%Q; 2%Q].
Definition pair_I : list Z := [0; 1]%Z.

(** Fresh memory that happens to hold distance 1 and label 1 everywhere. *)
Definition mem1 : fresh_memory Q :=
  FreshMemory (λ _, 1%Q) (λ _, 1%Z) (λ _, 1%Q) (λ _, 1%Z).

Lemma merge_tables_overwrites_witness :
  take (1 * 2)
    (merge_tables 1 2 2 [0%Q; 0%Q] [0%Z; 0%Z] ex2_D ex2_I ex2_tr).1
  = take (1 * 2)
      (merge_tables 1 2 2 [7%Q; 7%Q; 7%Q] [5%Z; 5%Z; 5%Z] ex2_D ex2_I
         ex2_tr).1
  ∧ take (1 * 2)
      (merge_tables 1 2 2 [0%Q; 0%Q] [0%Z; 0%Z] ex2_D ex2_I ex2_tr).2
    = take (1 * 2)
        (merge_tables 1 2 2 [7%Q; 7%Q; 7%Q] [5%Z; 5%Z; 5%Z] ex2_D ex2_I
           ex2_tr).2.
Proof.
  apply (merge_tables_overwrites 1 2 2 ex2_D ex2_I ex2_tr [0%Q; 0%Q]
           [0%Z; 0%Z] [7%Q; 7%Q; 7%Q] [5%Z; 5%Z; 5%Z]); simpl; lia.
Defined.

Lemma merge_tables_consumes_prefixes_witness :
  ∃ j', j' < 1 ∧
    row_origins 1 2 1 pair_D pair_I [0%Z] 0 !! j' = Some (Some (0, 0)).
Proof.
  apply (merge_tables_consumes_prefixes 1 2 1 pair_D pair_I [0%Z] 0 1 0 1 0);
    [lia|lia|reflexivity].
Defined.

Lemma merge_tables_single_shard_witness :
  ((∀ r, r ≤ 0 → (0 ≤ short_I !!! (0 * 2 + r)%nat)%Z) →
   (merge_tables 1 2 1 [0%Q; 0%Q] [0%Z; 0%Z] short_D short_I [5%Z]).1
     !!! (0 * 2 + 0) = short_D !!! (0 * 2 + 0) ∧
   (merge_tables 1 2 1 [0%Q; 0%Q] [0%Z; 0%Z] short_D short_I [5%Z]).2
     !!! (0 * 2 + 0)
   = (short_I !!! (0 * 2 + 0)%nat + [5%Z] !!! 0%nat)%Z) ∧
  ((∃ r, r ≤ 0 ∧ (short_I !!! (0 * 2 + r)%nat < 0)%Z) →
   (merge_tables 1 2 1 [0%Q; 0%Q] [0%Z; 0%Z] short_D short_I [5%Z]).1
     !!! (0 * 2 + 0) = neutral ∧
   (merge_tables 1 2 1 [0%Q; 0%Q] [0%Z; 0%Z] short_D short_I [5%Z]).2
     !!! (0 * 2 + 0) = (-1)%Z).
Proof.
  apply (merge_tables_single_shard 1 2 [0%Q; 0%Q] [0%Z; 0%Z] short_D short_I
           [5%Z] 0 0); simpl; lia.
Defined.

Lemma merge_tables_translations_shift_witness :
  (merge_tables 1 2 2 [0%Q; 0%Q] [0%Z; 0%Z] ex2_D ex2_I [10; 20]%Z).1
    !!! (0 * 2 + 1)
  = (merge_tables 1 2 2 [0%Q; 0%Q] [0%Z; 0%Z] ex2_D ex2_I ex2_tr).1
      !!! (0 * 2 + 1) ∧
  row_origins 1 2 2 ex2_D ex2_I [10; 20]%Z 0
  = row_origins 1 2 2 ex2_D ex2_I ex2_tr 0 ∧
  match row_origins 1 2 2 ex2_D ex2_I ex2_tr 0 !! 1 with
  | Some (Some (s, p)) =>
      (merge_tables 1 2 2 [0%Q; 0%Q] [0%Z; 0%Z] ex2_D ex2_I [10; 20]%Z).2
        !!! (0 * 2 + 1)
      = ((merge_tables 1 2 2 [0%Q; 0%Q] [0%Z; 0%Z] ex2_D ex2_I ex2_tr).2
           !!! (0 * 2 + 1)%nat - ex2_tr !!! s + [10; 20]%Z !!! s)%Z
  | _ =>
      (merge_tables 1 2 2 [0%Q; 0%Q] [0%Z; 0%Z] ex2_D ex2_I [10; 20]%Z).2
        !!! (0 * 2 + 1)
      = (merge_tables 1 2 2 [0%Q; 0%Q] [0%Z; 0%Z] ex2_D ex2_I ex2_tr).2
          !!! (0 * 2 + 1)
  end.
Proof.
  apply (merge_tables_translations_shift 1 2 2 [0%Q; 0%Q] [0%Z; 0%Z] ex2_D
           ex2_I ex2_tr [10; 20]%Z 0 1); simpl; lia.
Defined.

Lemma merge_tables_row_local_witness :
  (merge_tables 2 1 1 [0%Q; 0%Q] [0%Z; 0%Z] [1%Q; 9%Q] [0; 3]%Z [0%Z]).1
    !!! (0 * 1 + 0)
  = (merge_tables 2 1 1 [0%Q; 0%Q] [0%Z; 0%Z] pair_D pair_I [0%Z]).1
      !!! (0 * 1 + 0) ∧
  (merge_tables 2 1 1 [0%Q; 0%Q] [0%Z; 0%Z] [1%Q; 9%Q] [0; 3]%Z [0%Z]).2
    !!! (0 * 1 + 0)
  = (merge_tables 2 1 1 [0%Q; 0%Q] [0%Z; 0%Z] pair_D pair_I [0%Z]).2
      !!! (0 * 1 + 0).
Proof.
  apply (merge_tables_row_local 2 1 1 [0%Q; 0%Q] [0%Z; 0%Z] pair_D pair_I
           [0%Z] [1%Q; 9%Q] [0; 3]%Z 0 0); [lia|lia|simpl; lia|simpl; lia|].
  intros s p Hs Hp. assert (s = 0) as -> by lia. assert (p = 0) as -> by lia.
  split; reflexivity.
Defined.

Lemma merge_tables_scratch_in_bounds_witness :
  let st :=
    (merge_loop (row_D 2 ex2_D 0) (row_I 2 ex2_I 0) (1 * 2) 2 ex2_tr 1
       (seed (row_D 2 ex2_D 0) (row_I 2 ex2_I 0) (1 * 2) 2 (new_buf 2))).1 in
  length (pointer st) = 2 ∧ length (shard_ids st) = 2 ∧
  length (heap_vals st) = 2 ∧ heap_size st ≤ 2 ∧
  (∀ s, s < 2 → pointer st !!! s ≤ 2) ∧
  (heap_size st ≠ 0 →
   let s := shard_ids st !!! 0 in
   let p := pointer st !!! s in
   s < 2 ∧ p < 2 ∧ 0 * 2 + (1 * 2 * s + p) < 2 * (1 * 2)).
Proof.
  apply (merge_tables_scratch_in_bounds 1 2 2 ex2_D ex2_I ex2_tr 0 1
           (new_buf 2)); [lia|lia|].
  repeat split; reflexivity.
Defined.

Lemma merge_tables_idempotent_witness :
  merge_tables 1 2 1 [0%Q; 0%Q] [0%Z; 0%Z]
    (merge_tables 1 2 2 [0%Q; 0%Q] [0%Z; 0%Z] ex2_D ex2_I ex2_tr).1
    (merge_tables 1 2 2 [0%Q; 0%Q] [0%Z; 0%Z] ex2_D ex2_I ex2_tr).2 [0%Z]
  = merge_tables 1 2 2 [0%Q; 0%Q] [0%Z; 0%Z] ex2_D ex2_I ex2_tr.
Proof.
  apply (merge_tables_idempotent 1 2 2 [0%Q; 0%Q] [0%Z; 0%Z] ex2_D ex2_I
           ex2_tr [0%Q; 0%Q] [0%Z; 0%Z]);
    [lia|reflexivity|reflexivity|reflexivity|reflexivity|].
  intros s Hs. destruct s as [|[|s]]; [vm_compute; discriminate..|lia].
Defined.

Lemma merge_tables_full_row_witness :
  ∃ s p,
    row_origins 1 2 2 ex2_D ex2_I ex2_tr 0 !! 1 = Some (Some (s, p)) ∧
    s < 2 ∧ p < valid_len 1 2 ex2_I 0 s ∧
    (merge_tables 1 2 2 [0%Q; 0%Q] [0%Z; 0%Z] ex2_D ex2_I ex2_tr).1
      !!! (0 * 2 + 1) = cand_D 1 2 ex2_D 0 s p ∧
    (merge_tables 1 2 2 [0%Q; 0%Q] [0%Z; 0%Z] ex2_D ex2_I ex2_tr).2
      !!! (0 * 2 + 1)
    = (cand_I 1 2 ex2_I 0 s p + ex2_tr !!! s)%Z.
Proof.
  apply (merge_tables_full_row 1 2 2 [0%Q; 0%Q] [0%Z; 0%Z] ex2_D ex2_I
           ex2_tr 0 1); [lia|lia|simpl; lia|simpl; lia|].
  vm_compute. lia.
Defined.

Lemma merge_tables_sentinel_unambiguous_witness :
  ((merge_tables 1 2 1 [0%Q; 0%Q] [0%Z; 0%Z] short_D short_I [5%Z]).2
     !!! (0 * 2 + 1) = (-1)%Z ↔
   row_origins 1 2 1 short_D short_I [5%Z] 0 !! 1 = Some None) ∧
  ((merge_tables 1 2 1 [0%Q; 0%Q] [0%Z; 0%Z] short_D short_I [5%Z]).2
     !!! (0 * 2 + 1) ≠ (-1)%Z →
   (0 ≤ (merge_tables 1 2 1 [0%Q; 0%Q] [0%Z; 0%Z] short_D short_I [5%Z]).2
          !!! (0 * 2 + 1)%nat)%Z).
Proof.
  apply (merge_tables_sentinel_unambiguous 1 2 1 [0%Q; 0%Q] [0%Z; 0%Z]
           short_D short_I [5%Z] 0 1); [lia|lia|simpl; lia|simpl; lia|].
  intros s Hs. assert (s = 0) as -> by lia. vm_compute. discriminate.
Defined.


Lemma brute_force_knn_ignores_fresh_memory_witness :
  brute_force_knn EucUnexpandedL2 mem7 [shard4] [5%Z] 1 1 [99%Z] [9%Q] 1 None
  = brute_force_knn EucUnexpandedL2 mem1 [shard4] [5%Z] 1 1 [99%Z] [9%Q] 1
      None.
Proof.
  apply (brute_force_knn_ignores_fresh_memory EucUnexpandedL2 mem7 mem1
           [shard4] [5%Z] 1 1 [99%Z] [9%Q] 1 None).
  intros i Hi. assert (i = 0) as -> by lia.
  exists shard4, [4%Q], [0%Z]. repeat split; reflexivity.
Defined.

Lemma brute_force_knn_no_shards_witness :
  take (1 * 1)
    (res_D (brute_force_knn EucUnexpandedL2 mem7 [] [] 0 1 [99%Z] [9%Q] 1
              None).2)
  = replicate (1 * 1) (fneg fmax) ∧
  take (1 * 1)
    (res_I (brute_force_knn EucUnexpandedL2 mem7 [] [] 0 1 [99%Z] [9%Q] 1
              None).2)
  = replicate (1 * 1) (-1)%Z ∧
  searched
    (brute_force_knn EucUnexpandedL2 mem7 [] [] 0 1 [99%Z] [9%Q] 1 None).2
  = [].
Proof.
  apply (brute_force_knn_no_shards EucUnexpandedL2 mem7 [] [] 1 [99%Z] [9%Q]
           1 None); [discriminate|simpl; lia|simpl; lia].
Defined.

Lemma brute_force_knn_single_shard_witness :
  take (1 * 1)
    (res_D (brute_force_knn EucUnexpandedL2 mem7 [shard4] [5%Z] 1 1 [99%Z]
              [9%Q] 1 None).2) = [4%Q] ∧
  take (1 * 1)
    (res_I (brute_force_knn EucUnexpandedL2 mem7 [shard4] [5%Z] 1 1 [99%Z]
              [9%Q] 1 None).2) = [0%Z].
Proof.
  apply (brute_force_knn_single_shard EucUnexpandedL2 mem7 shard4 [4%Q]
           [0%Z] [5%Z] 1 [99%Z] [9%Q] 1);
    [discriminate|reflexivity|reflexivity|reflexivity|reflexivity
    |reflexivity| |simpl; lia|simpl; lia].
  repeat constructor. discriminate.
Defined.

Lemma default_translations_injective_witness : 1 = 1 ∧ 2%Z = 2%Z.
Proof.
  apply (default_translations_injective [5; 3]%Z 2 1 1 2 2);
    [simpl; lia| |lia|lia|vm_compute; split; congruence
    |vm_compute; split; congruence|reflexivity].
  intros i Hi. destruct i as [|[|i]]; [vm_compute; discriminate..|lia].
Defined.

